(** * single-event: a shallow embedding of [SingleEvent.ts]

    The program is a tree of event objects ([SuperEvent] and its three
    subclasses) that reference each other through closures and mutate their
    [Set]s in place.  The embedding keeps every object in a store indexed by
    allocation order, threads the store through a state-and-failure monad, and
    records every call that leaves the library (listeners, hooks, predicates,
    transforms) in a ghost trace. *)

From Stdlib Require Import ZArith Lia.
From stdpp Require Import list.

Set Default Proof Using "Type".

(** ** JavaScript [Set]

    A [Set] keeps its entries in insertion order.  [delete] blanks the entry
    in place, [add] appends when the value is absent, and an iterator walks the
    entry list by position, so that it skips entries blanked before it reaches
    them and visits entries appended while it runs. *)

Module JsSet.

Abbreviation t A := (list (option A)).

Definition empty {A} : t A := [].

Definition elements {A} (s : t A) : list A := omap id s.

Definition size {A} (s : t A) : nat := length (elements s).

Definition add {A} `{EqDecision A} (x : A) (s : t A) : t A :=
  if decide (Some x ∈ s) then s else s ++ [Some x].

Definition delete {A} `{EqDecision A} (x : A) (s : t A) : t A :=
  (λ e, if decide (e = Some x) then None else e) <$> s.

End JsSet.

(** Objects and promises are named by their rank in allocation order. *)
Abbreviation node_id := nat.
Abbreviation promise_id := nat.
Abbreviation result_id := nat.

(** A listener is compared by reference.  [LExt k] is a closure supplied by the
    host program; [LNext this p] is the closure [l] that [next()] builds on the
    node [this] for the promise [p]. *)
Inductive listener : Type :=
| LExt (k : nat)
| LNext (this : node_id) (p : promise_id).

#[global] Instance listener_eq_dec : EqDecision listener.
Proof. solve_decision. Defined.

(** The closures stored in [_connect] and [_disconnect]:
    the host's [onConnect]/[onDisconnect], [() => this.addChild(e)] and
    [() => this.removeChild(e)]. *)
Inductive hook : Type :=
| HExternal
| HAddChild (this e : node_id)
| HRemoveChild (this e : node_id).

(** ** The monad

    A computation reads and writes the store and may fail (a dangling
    reference, or the bound on nested calls reached). *)

Definition M (St A : Type) : Type := St → option (A * St).

Definition ret {St A} (a : A) : M St A := λ st, Some (a, st).

Definition bind {St A B} (m : M St A) (k : A → M St B) : M St B :=
  λ st, match m st with
        | Some (a, st') => k a st'
        | None => None
        end.

Definition fail {St A} : M St A := λ _, None.

Definition when {St} (b : bool) (m : M St unit) : M St unit :=
  if b then m else ret tt.

Notation "x <- m ;; k" := (bind m (λ x, k))
  (at level 100, m at next level, k at level 200, right associativity).
Notation "m ;; k" := (bind m (λ _, k))
  (at level 100, k at level 200, right associativity).

Section SingleEvent.

(** [V] is the universe of event arguments, [Sender] the type of senders. *)
Context {V Sender : Type}.

(** The three subclasses of [SuperEvent]. *)
Inductive variant : Type :=
  | SingleEventSource
  | FilterEvent (_pred : V → bool)
  | MapEvent (_transform : V → V).

Record node : Type := Node {
  _listeners : JsSet.t listener;
  _children : JsSet.t node_id;
  _connect : hook;
  _disconnect : hook;
  _sender : Sender;
  variant_of : variant
}.

(** The suspended body of the async function [take]: the receiver, the local
      [array], the loop counter [i], the argument [count] and the promise the
      call returned. *)
Record take_frame : Type := TakeFrame {
  tf_this : node_id;
  tf_array : list V;
  tf_i : Z;
  tf_count : Z;
  tf_result : result_id
}.

(** A promise of [next()]: its value once fulfilled, and the continuations
      that await it. *)
Record promise : Type := Promise {
  p_value : option V;
  p_reactions : list take_frame
}.

(** What leaves the library. *)
Inductive event : Type :=
  | EConnect (n : node_id)
  | EDisconnect (n : node_id)
  | ECall (n : node_id) (l : listener) (args : V) (sender : Sender)
  | EPred (n : node_id) (args : V)
  | ETransform (n : node_id) (args : V).

Record state : Type := State {
  nodes : list node;
  promises : list promise;
  results : list (option (list V));
  microtasks : list (take_frame * V);
  trace : list event
}.

Definition init : state := State [] [] [] [] [].

Local Abbreviation M := (M state).

Definition with_nodes (ns : list node) (st : state) : state :=
  State ns (promises st) (results st) (microtasks st) (trace st).

Definition with_promises (ps : list promise) (st : state) : state :=
  State (nodes st) ps (results st) (microtasks st) (trace st).

Definition with_results (rs : list (option (list V))) (st : state) : state :=
  State (nodes st) (promises st) rs (microtasks st) (trace st).

Definition with_microtasks (q : list (take_frame * V)) (st : state) : state :=
  State (nodes st) (promises st) (results st) q (trace st).

Definition with_trace (tr : list event) (st : state) : state :=
  State (nodes st) (promises st) (results st) (microtasks st) tr.

Definition log (e : event) : M unit :=
  λ st, Some (tt, with_trace (trace st ++ [e]) st).

(** Reading the fields of the object [this]; a dangling reference fails. *)
Definition get_node (this : node_id) : M node :=
  λ st, nd ← nodes st !! this; Some (nd, st).

Definition update_node (this : node_id) (f : node → node) : M unit :=
  λ st, nd ← nodes st !! this;
        Some (tt, with_nodes (<[this := f nd]> (nodes st)) st).

Definition with_listeners (f : JsSet.t listener → JsSet.t listener) (nd : node) : node :=
  Node (f (_listeners nd)) (_children nd) (_connect nd) (_disconnect nd)
       (_sender nd) (variant_of nd).

Definition with_children (f : JsSet.t node_id → JsSet.t node_id) (nd : node) : node :=
  Node (_listeners nd) (f (_children nd)) (_connect nd) (_disconnect nd)
       (_sender nd) (variant_of nd).

(** [this._listeners.size === 0 && this._children.size === 0] *)
Definition is_empty (nd : node) : bool :=
  (JsSet.size (_listeners nd) =? 0) && (JsSet.size (_children nd) =? 0).

(** ** [for (let x of set) body]

    The iterator reads the entry list of the live set at every step.  The
    recursion is bounded by the number of entries the set has when the loop
    starts; the loop fails (runs out of steps) only if the body makes the set
    grow while it is being iterated. *)
Fixpoint for_of_from {K} (steps : nat) (set : node → JsSet.t K) (this : node_id)
    (i : nat) (body : K → M unit) : M unit :=
  nd <- get_node this;;
  match set nd !! i with
  | None => ret tt
  | Some entry =>
      match steps with
      | O => fail
      | S steps =>
          match entry with
          | Some x => body x
          | None => ret tt
          end;;
          for_of_from steps set this (S i) body
      end
  end.

Definition for_of {K} (set : node → JsSet.t K) (this : node_id)
    (body : K → M unit) : M unit :=
  nd <- get_node this;;
  for_of_from (length (set nd)) set this 0 body.

(** ** Methods of [SuperEvent]

    A method that reaches a stored closure takes the interpreter of closures
    as its first argument; the knot is tied by [call_hook] below. *)

(** [this._connect()] and [this._disconnect()], with the call recorded. *)
Definition call_connect (run : hook → M unit) (this : node_id) : M unit :=
  nd <- get_node this;;
  log (EConnect this);;
  run (_connect nd).

Definition call_disconnect (run : hook → M unit) (this : node_id) : M unit :=
  nd <- get_node this;;
  log (EDisconnect this);;
  run (_disconnect nd).

Definition listen_with (run : hook → M unit) (this : node_id) (l : listener) : M unit :=
  nd <- get_node this;;
  when (is_empty nd) (call_connect run this);;
  update_node this (with_listeners (JsSet.add l)).

Definition addChild_with (run : hook → M unit) (this e : node_id) : M unit :=
  nd <- get_node this;;
  when (is_empty nd) (call_connect run this);;
  update_node this (with_children (JsSet.add e)).

Definition removeChild_with (run : hook → M unit) (this e : node_id) : M unit :=
  update_node this (with_children (JsSet.delete e));;
  nd <- get_node this;;
  when (is_empty nd) (call_disconnect run this).

(** Calling a stored closure.  [fuel] bounds the depth of nested calls. *)
Fixpoint call_hook (fuel : nat) (h : hook) : M unit :=
  match fuel with
  | O => fail
  | S fuel =>
      match h with
      | HExternal => ret tt
      | HAddChild this e => addChild_with (call_hook fuel) this e
      | HRemoveChild this e => removeChild_with (call_hook fuel) this e
      end
  end.

Definition listen (fuel : nat) : node_id → listener → M unit :=
  listen_with (call_hook fuel).

Definition addChild (fuel : nat) : node_id → node_id → M unit :=
  addChild_with (call_hook fuel).

Definition removeChild (fuel : nat) : node_id → node_id → M unit :=
  removeChild_with (call_hook fuel).

Fixpoint unlisten (fuel : nat) (this : node_id) (l : listener) : M unit :=
  match fuel with
  | O => fail
  | S fuel =>
      update_node this (with_listeners (JsSet.delete l));;
      for_of _children this (λ child, unlisten fuel child l);;
      nd <- get_node this;;
      when (is_empty nd) (call_disconnect (call_hook fuel) this)
  end.

(** ** Promises and the microtask queue *)

(** [new Promise(...)]: a pending promise nobody awaits yet. *)
Definition new_promise : M promise_id :=
  λ st, Some (length (promises st),
              with_promises (promises st ++ [Promise None []]) st).

(** [ok(a)]: fulfils a pending promise and queues the continuations that
    await it; a promise that is already fulfilled stays as it is. *)
Definition resolve (p : promise_id) (a : V) : M unit :=
  λ st, c ← promises st !! p;
        match p_value c with
        | Some _ => Some (tt, st)
        | None =>
            Some (tt, with_microtasks
                        (microtasks st ++ ((λ fr, (fr, a)) <$> p_reactions c))
                        (with_promises (<[p := Promise (Some a) []]> (promises st)) st))
        end.

(** [await p] in the frame [fr]: the continuation runs in a later microtask,
    also when [p] is already fulfilled. *)
Definition await (p : promise_id) (fr : take_frame) : M unit :=
  λ st, c ← promises st !! p;
        match p_value c with
        | Some a =>
            Some (tt, with_microtasks (microtasks st ++ [(fr, a)]) st)
        | None =>
            Some (tt, with_promises
                        (<[p := Promise None (p_reactions c ++ [fr])]> (promises st)) st)
        end.

(** The promise an async function returns, and its fulfilment by [return]. *)
Definition new_result : M result_id :=
  λ st, Some (length (results st), with_results (results st ++ [None]) st).

Definition resolve_result (r : result_id) (array : list V) : M unit :=
  λ st, c ← results st !! r;
        match c with
        | Some _ => Some (tt, st)
        | None =>
            Some (tt, with_results (<[r := Some array]> (results st)) st)
        end.

(** ** Firing *)

(** [l(args, this._sender)], called by the node [n].  The closure of [next()]
    is [a => { ok(a); this.unlisten(l) }]; a host closure is opaque. *)
Definition invoke (fuel : nat) (n : node_id) (l : listener) (args : V) (sender : Sender) : M unit :=
  log (ECall n l args sender);;
  match l with
  | LExt _ => ret tt
  | LNext this p => resolve p args;; unlisten fuel this l
  end.

Definition _notifyListeners_with (call : node_id → listener → V → Sender → M unit)
    (trigger : node_id → V → M unit) (this : node_id) (args : V) : M unit :=
  for_of _listeners this (λ l, nd <- get_node this;; call this l args (_sender nd));;
  for_of _children this (λ c, trigger c args).

Fixpoint _trigger (fuel : nat) (this : node_id) (args : V) : M unit :=
  match fuel with
  | O => fail
  | S fuel =>
      nd <- get_node this;;
      match variant_of nd with
      | SingleEventSource =>
          _notifyListeners_with (invoke fuel) (_trigger fuel) this args
      | FilterEvent _pred =>
          log (EPred this args);;
          if _pred args
          then _notifyListeners_with (invoke fuel) (_trigger fuel) this args
          else ret tt
      | MapEvent _transform =>
          log (ETransform this args);;
          _notifyListeners_with (invoke fuel) (_trigger fuel) this (_transform args)
      end
  end.

Definition _notifyListeners (fuel : nat) : node_id → V → M unit :=
  _notifyListeners_with (invoke fuel) (_trigger fuel).

(** ** Constructors *)

Definition new_node (mk : node_id → node) : M node_id :=
  λ st, Some (length (nodes st),
              with_nodes (nodes st ++ [mk (length (nodes st))]) st).

(** [singleEvent(sender, onConnect, onDisconnect)]; the trigger function it
    returns next to the event is [_trigger] at the new node. *)
Definition singleEvent (sender : Sender) : M node_id :=
  new_node (λ _, Node JsSet.empty JsSet.empty HExternal HExternal sender SingleEventSource).

Definition filter (this : node_id) (pred : V → bool) : M node_id :=
  nd <- get_node this;;
  new_node (λ filterEvent,
    Node JsSet.empty JsSet.empty (HAddChild this filterEvent)
         (HRemoveChild this filterEvent) (_sender nd) (FilterEvent pred)).

Definition map (this : node_id) (transform : V → V) : M node_id :=
  nd <- get_node this;;
  new_node (λ mapEvent,
    Node JsSet.empty JsSet.empty (HAddChild this mapEvent)
         (HRemoveChild this mapEvent) (_sender nd) (MapEvent transform)).

(** ** [next] and [take] *)

Definition next (fuel : nat) (this : node_id) : M promise_id :=
  p <- new_promise;;
  listen fuel this (LNext this p);;
  ret p.

(** The body of [take] from the loop test up to the next [await] or
    [return]. *)
Definition take_loop (fuel : nat) (fr : take_frame) : M unit :=
  if (tf_i fr <? tf_count fr)%Z
  then p <- next fuel (tf_this fr);; await p fr
  else resolve_result (tf_result fr) (tf_array fr).

Definition take (fuel : nat) (this : node_id) (count : Z) : M result_id :=
  r <- new_result;;
  take_loop fuel (TakeFrame this [] 0 count r);;
  ret r.

(** Resuming after [await]: [array.push(a); ++i] and back to the loop test. *)
Definition resume (fuel : nat) (fr : take_frame) (a : V) : M unit :=
  take_loop fuel (TakeFrame (tf_this fr) (tf_array fr ++ [a]) (tf_i fr + 1)
                            (tf_count fr) (tf_result fr)).

(** One job of the microtask queue. *)
Definition run_microtask (fuel : nat) : M unit :=
  λ st, match microtasks st with
        | [] => Some (tt, st)
        | (fr, a) :: rest =>
            resume fuel fr a (with_microtasks rest st)
        end.

(** The host returns to the event loop: the queue is run until it is empty. *)
Fixpoint drain (steps fuel : nat) : M unit :=
  λ st, match microtasks st with
        | [] => Some (tt, st)
        | _ :: _ =>
            match steps with
            | O => None
            | S steps => (run_microtask fuel;; drain steps fuel) st
            end
        end.

End SingleEvent.

(** * Facts about [JsSet] *)

Module JsSetFacts.
Import JsSet.

(** [shrink s s']: [s'] is [s] after some deletions. *)
Definition shrink {A} (s s' : t A) : Prop :=
  Forall2 (λ e e', e' = e ∨ e' = None) s s'.

Section facts.
Context {A : Type} `{EqDecision A}.
Implicit Types (s : t A) (x y : A).

Lemma elem_of_elements x s : x ∈ elements s ↔ Some x ∈ s.
Proof.
  unfold elements. rewrite list_elem_of_omap. split.
  - intros ([y|] & Hy & Heq); simplify_eq/=. done.
  - intros Hx. exists (Some x). done.
Qed.

Lemma size_0 s : size s = 0 ↔ ∀ x, Some x ∉ s.
Proof.
  unfold size. rewrite length_zero_iff_nil. split.
  - intros Hnil x Hx. apply elem_of_elements in Hx. rewrite Hnil in Hx.
    by apply not_elem_of_nil in Hx.
  - intros Hno. destruct (elements s) as [|x l] eqn:E; [done|].
    exfalso. apply (Hno x), elem_of_elements. rewrite E. left.
Qed.

Lemma size_pos x s : Some x ∈ s → size s ≠ 0.
Proof. intros Hx Hz. by apply (proj1 (size_0 s) Hz x). Qed.

Lemma length_delete x s : length (delete x s) = length s.
Proof. unfold delete. by rewrite length_fmap. Qed.

Lemma lookup_delete x s i :
  delete x s !! i = (λ e, if decide (e = Some x) then None else e) <$> s !! i.
Proof. apply list_lookup_fmap. Qed.

Lemma delete_absent x s : Some x ∉ s → delete x s = s.
Proof.
  intros Hx. unfold delete. induction s as [|e s IH]; [done|].
  rewrite fmap_cons. rewrite not_elem_of_cons in Hx. destruct Hx as [Hne Hx].
  rewrite IH by done. by rewrite decide_False.
Qed.

Lemma elem_of_delete y x s : Some y ∈ delete x s ↔ Some y ∈ s ∧ y ≠ x.
Proof.
  unfold delete. rewrite list_elem_of_fmap. split.
  - intros (e & Heq & He). destruct (decide (e = Some x)); [done|].
    subst e. split; [done|]. intros ->. done.
  - intros [Hy Hne]. exists (Some y). split; [|done].
    rewrite decide_False; [done|]. intros [= ->]. done.
Qed.

Lemma elements_delete x s : elements (delete x s) = base.filter (λ y, y ≠ x) (elements s).
Proof.
  unfold elements, delete. induction s as [|[y|] s IH]; csimpl; [done| |done].
  destruct (decide (Some y = Some x)) as [[= ->]|Hne]; csimpl.
  - rewrite filter_cons_False by (intros Hc; by apply Hc). done.
  - rewrite filter_cons_True by (intros ->; by apply Hne). by rewrite IH.
Qed.

Lemma NoDup_delete x s : NoDup (elements s) → NoDup (elements (delete x s)).
Proof. rewrite elements_delete. apply NoDup_filter. Qed.

Lemma elements_add x s :
  elements (add x s) = if decide (Some x ∈ s) then elements s else elements s ++ [x].
Proof.
  unfold add. destruct (decide (Some x ∈ s)); [done|].
  unfold elements. by rewrite omap_app.
Qed.

Lemma elem_of_add y x s : Some y ∈ add x s ↔ Some y ∈ s ∨ y = x.
Proof.
  unfold add. destruct (decide (Some x ∈ s)) as [Hx|Hx].
  - split; [by left|]. intros [?| ->]; done.
  - rewrite elem_of_app, list_elem_of_singleton. split.
    + intros [?|[= ->]]; [by left|by right].
    + intros [?| ->]; [by left|by right].
Qed.

Lemma NoDup_add x s : NoDup (elements s) → NoDup (elements (add x s)).
Proof.
  rewrite elements_add. destruct (decide (Some x ∈ s)) as [Hx|Hx]; [done|].
  intros Hnd. apply NoDup_app. split_and!; [done| |apply NoDup_singleton].
  intros y Hy ->%list_elem_of_singleton. by apply Hx, elem_of_elements.
Qed.

Lemma size_add x s : size (add x s) ≠ 0.
Proof. apply (size_pos x), elem_of_add. by right. Qed.

Lemma add_prefix x s : s `prefix_of` add x s.
Proof.
  unfold add. destruct (decide (Some x ∈ s)); [done|]. by apply prefix_app_r.
Qed.

Lemma shrink_refl s : shrink s s.
Proof. apply Forall2_same_length_lookup. split; [done|]. intros; simplify_eq. by left. Qed.

Lemma shrink_trans s1 s2 s3 : shrink s1 s2 → shrink s2 s3 → shrink s1 s3.
Proof.
  unfold shrink. intros H12 H23. revert s3 H23.
  induction H12 as [|e1 e2 l1 l2 He H12 IH]; intros s3 H23;
    inversion H23 as [|? e3 ? l3 He' H23']; subst; constructor; [|by apply IH].
  destruct He as [->| ->], He' as [->| ->]; auto.
Qed.

Lemma shrink_length s s' : shrink s s' → length s' = length s.
Proof. intros Hs. symmetry. by eapply Forall2_length. Qed.

Lemma shrink_lookup s s' i e' :
  shrink s s' → s' !! i = Some e' → ∃ e, s !! i = Some e ∧ (e' = e ∨ e' = None).
Proof.
  intros Hs Hi. destruct (Forall2_lookup_r _ _ _ _ _ Hs Hi) as (e & ? & ?). eauto.
Qed.

Lemma shrink_elem_of s s' x : shrink s s' → Some x ∈ s' → Some x ∈ s.
Proof.
  intros Hs (i & Hi)%list_elem_of_lookup.
  destruct (shrink_lookup _ _ _ _ Hs Hi) as (e & He & [<-|?]); [|done].
  by eapply list_elem_of_lookup_2.
Qed.

Lemma shrink_delete x s : shrink s (delete x s).
Proof.
  unfold shrink, delete. induction s as [|e s IH]; csimpl; constructor; [|done].
  destruct (decide (e = Some x)); [by right|by left].
Qed.

Lemma shrink_size_0 s s' : shrink s s' → size s = 0 → size s' = 0.
Proof.
  rewrite !size_0. intros Hs Hno x Hx. by eapply Hno, shrink_elem_of.
Qed.

Lemma shrink_NoDup s s' : shrink s s' → NoDup (elements s) → NoDup (elements s').
Proof.
  unfold shrink, elements. induction 1 as [|e e' l l' He Hl IH]; [done|].
  destruct He as [->| ->]; simpl.
  - destruct e as [x|]; simpl; [|done]. rewrite !NoDup_cons.
    intros [Hx Hnd]. split; [|by apply IH].
    intros Hx'. apply Hx. apply elem_of_elements. apply elem_of_elements in Hx'.
    by eapply shrink_elem_of.
  - destruct e as [x|]; simpl; [|done]. rewrite NoDup_cons. intros [_ ?]. by apply IH.
Qed.

End facts.

End JsSetFacts.

(** * Invariants of the store *)

Section Invariants.

Context {V Sender : Type}.

Local Abbreviation state := (@state V Sender).
Local Abbreviation node := (@node V Sender).
Local Abbreviation event := (@event V Sender).
Local Abbreviation M := (M state).

Implicit Types (st : state) (nd : node) (n m p c this : node_id) (l : listener).

(** The parent a derived node was built from: the object captured by its
    [_connect] closure. *)
Definition parent_of (nd : node) : option node_id :=
  match _connect nd with
  | HAddChild p _ => Some p
  | _ => None
  end.

(** The [readonly] fields. *)
Definition static_eq (nd nd' : node) : Prop :=
  _connect nd' = _connect nd ∧ _disconnect nd' = _disconnect nd ∧
  _sender nd' = _sender nd ∧ variant_of nd' = variant_of nd.

(** A source carries the host's hooks; a derived node [n] carries the two
    closures over itself and its parent, which was allocated before it. *)
Definition hooks_ok (n : node_id) (nd : node) : Prop :=
  match variant_of nd with
  | SingleEventSource => _connect nd = HExternal ∧ _disconnect nd = HExternal
  | _ => ∃ p, p < n ∧ _connect nd = HAddChild p n ∧ _disconnect nd = HRemoveChild p n
  end.

Definition empty_at (st : state) (n : node_id) : Prop :=
  ∃ nd, nodes st !! n = Some nd ∧ is_empty nd = true.

(** [in_tree st r n]: [n] is [r] or was derived from it by a chain of
    [filter]/[map] calls. *)
Inductive in_tree (st : state) (r : node_id) : node_id → Prop :=
  | in_tree_self : in_tree st r r
  | in_tree_step n nd p :
      nodes st !! n = Some nd → parent_of nd = Some p → in_tree st r p →
      in_tree st r n.

(** The invariant of every store the public interface can build.  [X] lists
    the nodes that are in the middle of an update: such a node may still be
    registered with its parent although its last listener or child is gone. *)
Record inv_gen (X : node_id → Prop) (st : state) : Prop := {
  inv_hooks : ∀ n nd, nodes st !! n = Some nd → hooks_ok n nd;
  inv_sender : ∀ n nd p, nodes st !! n = Some nd → parent_of nd = Some p →
    ∃ ndp, nodes st !! p = Some ndp ∧ _sender ndp = _sender nd;
  inv_nodup_listeners : ∀ n nd, nodes st !! n = Some nd →
    NoDup (JsSet.elements (_listeners nd));
  inv_nodup_children : ∀ n nd, nodes st !! n = Some nd →
    NoDup (JsSet.elements (_children nd));
  inv_listener : ∀ n nd m p, nodes st !! n = Some nd →
    Some (LNext m p) ∈ _listeners nd → m = n ∧ p < length (promises st);
  inv_child : ∀ n nd c, nodes st !! n = Some nd → Some c ∈ _children nd →
    ∃ ndc, nodes st !! c = Some ndc ∧ parent_of ndc = Some n ∧
           (is_empty ndc = false ∨ X c);
  inv_registered : ∀ n nd p, nodes st !! n = Some nd → parent_of nd = Some p →
    is_empty nd = false → ∃ ndp, nodes st !! p = Some ndp ∧ Some n ∈ _children ndp
}.

Definition inv : state → Prop := inv_gen (λ _, False).

(** [shrinks st st']: [st'] is [st] after deletions from the sets; a child is
    deleted only once it has neither listener nor child. *)
Definition node_shrinks (nd nd' : node) : Prop :=
  static_eq nd nd' ∧
  JsSetFacts.shrink (_listeners nd) (_listeners nd') ∧
  JsSetFacts.shrink (_children nd) (_children nd').

Record shrinks (st st' : state) : Prop := {
  sh_nodes : Forall2 node_shrinks (nodes st) (nodes st');
  sh_removed : ∀ p nd nd' e, nodes st !! p = Some nd → nodes st' !! p = Some nd' →
    Some e ∈ _children nd → Some e ∉ _children nd' → empty_at st' e;
  sh_promises : length (promises st') = length (promises st);
  sh_results : results st' = results st;
  sh_trace : trace st `prefix_of` trace st'
}.

Definition is_disconnect (e : event) : Prop :=
  match e with EDisconnect _ => True | _ => False end.

(** ** Running the primitives *)

Lemma bind_eq {A B} (m : M A) (k : A → M B) st a st1 :
  m st = Some (a, st1) → bind m k st = k a st1.
Proof. unfold bind. by intros ->. Qed.

Lemma get_node_eq this st nd :
  nodes st !! this = Some nd → get_node this st = Some (nd, st).
Proof. unfold get_node. by intros ->. Qed.

Lemma update_node_eq this f st nd :
  nodes st !! this = Some nd →
  update_node this f st = Some (tt, with_nodes (<[this := f nd]> (nodes st)) st).
Proof. unfold update_node. by intros ->. Qed.

Lemma is_empty_false_iff nd :
  is_empty nd = false ↔ (∃ l, Some l ∈ _listeners nd) ∨ (∃ c, Some c ∈ _children nd).
Proof.
  unfold is_empty. rewrite andb_false_iff, !Nat.eqb_neq. split.
  - intros [Hl|Hc].
    + left. destruct (JsSet.elements (_listeners nd)) as [|l ls] eqn:E.
      { unfold JsSet.size in Hl. by rewrite E in Hl. }
      exists l. apply JsSetFacts.elem_of_elements. rewrite E. left.
    + right. destruct (JsSet.elements (_children nd)) as [|c cs] eqn:E.
      { unfold JsSet.size in Hc. by rewrite E in Hc. }
      exists c. apply JsSetFacts.elem_of_elements. rewrite E. left.
  - intros [[l Hl]|[c Hc]]; [left|right]; by eapply JsSetFacts.size_pos.
Qed.

Lemma is_empty_true_iff nd :
  is_empty nd = true ↔ (∀ l, Some l ∉ _listeners nd) ∧ (∀ c, Some c ∉ _children nd).
Proof.
  unfold is_empty. rewrite andb_true_iff, !Nat.eqb_eq, !JsSetFacts.size_0. done.
Qed.

Lemma node_shrinks_refl nd : node_shrinks nd nd.
Proof. repeat split; apply JsSetFacts.shrink_refl. Qed.

Lemma node_shrinks_trans nd1 nd2 nd3 :
  node_shrinks nd1 nd2 → node_shrinks nd2 nd3 → node_shrinks nd1 nd3.
Proof.
  intros ((?&?&?&?)&?&?) ((?&?&?&?)&?&?).
  repeat split; try congruence; by eapply JsSetFacts.shrink_trans.
Qed.

Lemma node_shrinks_empty nd nd' :
  node_shrinks nd nd' → is_empty nd = true → is_empty nd' = true.
Proof.
  intros (_ & Hl & Hc). rewrite !is_empty_true_iff. intros [Hnl Hnc].
  split; intros x Hx; [eapply Hnl|eapply Hnc]; by eapply JsSetFacts.shrink_elem_of.
Qed.

Lemma node_shrinks_parent nd nd' : node_shrinks nd nd' → parent_of nd' = parent_of nd.
Proof. intros ((Hc & _) & _). unfold parent_of. by rewrite Hc. Qed.

Lemma nodes_shrink_lookup_l (ns ns' : list node) m nd :
  Forall2 node_shrinks ns ns' → ns !! m = Some nd →
  ∃ nd', ns' !! m = Some nd' ∧ node_shrinks nd nd'.
Proof. intros H ?. by eapply Forall2_lookup_l. Qed.

Lemma nodes_shrink_lookup_r (ns ns' : list node) m nd' :
  Forall2 node_shrinks ns ns' → ns' !! m = Some nd' →
  ∃ nd, ns !! m = Some nd ∧ node_shrinks nd nd'.
Proof. intros H ?. by eapply Forall2_lookup_r. Qed.

Lemma nodes_shrink_refl (ns : list node) : Forall2 node_shrinks ns ns.
Proof. apply Forall_Forall2_diag, Forall_forall. intros; apply node_shrinks_refl. Qed.

Lemma nodes_shrink_trans (ns1 ns2 ns3 : list node) :
  Forall2 node_shrinks ns1 ns2 → Forall2 node_shrinks ns2 ns3 →
  Forall2 node_shrinks ns1 ns3.
Proof.
  intros H12. revert ns3. induction H12; intros ns3 H23; inversion H23; subst;
    constructor; eauto using node_shrinks_trans.
Qed.

Lemma nodes_shrink_insert (ns : list node) m nd nd' :
  ns !! m = Some nd → node_shrinks nd nd' → Forall2 node_shrinks ns (<[m := nd']> ns).
Proof.
  intros Hm Hs. apply Forall2_same_length_lookup. split; [by rewrite length_insert|].
  intros i x y Hx Hy. destruct (decide (i = m)) as [->|Hne].
  - rewrite list_lookup_insert_eq in Hy by (by eapply lookup_lt_Some).
    by simplify_eq.
  - rewrite list_lookup_insert_ne in Hy by done. simplify_eq. apply node_shrinks_refl.
Qed.

Lemma empty_at_shrinks st st' e :
  Forall2 node_shrinks (nodes st) (nodes st') → empty_at st e → empty_at st' e.
Proof.
  intros Hs (nd & Hnd & He).
  destruct (nodes_shrink_lookup_l _ _ _ _ Hs Hnd) as (nd' & ? & ?).
  exists nd'. split; [done|]. by eapply node_shrinks_empty.
Qed.

Lemma shrinks_refl st : shrinks st st.
Proof.
  split; [apply nodes_shrink_refl| |done..].
  intros; simplify_eq; done.
Qed.

Lemma shrinks_trans st1 st2 st3 : shrinks st1 st2 → shrinks st2 st3 → shrinks st1 st3.
Proof.
  intros [Hn1 Hr1 Hp1 Hq1 Ht1] [Hn2 Hr2 Hp2 Hq2 Ht2]. split.
  - by eapply nodes_shrink_trans.
  - intros p nd nd3 e H1 H3 He Hne.
    destruct (nodes_shrink_lookup_l _ _ _ _ Hn1 H1) as (nd2 & H2 & _).
    destruct (decide (Some e ∈ _children nd2)) as [Hin|Hout].
    + by eapply Hr2.
    + eapply empty_at_shrinks; [done|]. by eapply Hr1.
  - congruence.
  - congruence.
  - by etrans.
Qed.

Lemma in_tree_shrinks st st' r n :
  Forall2 node_shrinks (nodes st) (nodes st') → in_tree st r n ↔ in_tree st' r n.
Proof.
  intros Hs. split; induction 1 as [|n nd p Hn Hp _ IH]; try apply in_tree_self.
  - destruct (nodes_shrink_lookup_l _ _ _ _ Hs Hn) as (nd' & ? & Hsh).
    eapply in_tree_step; [done| |done]. by rewrite (node_shrinks_parent _ _ Hsh).
  - destruct (nodes_shrink_lookup_r _ _ _ _ Hs Hn) as (nd' & ? & Hsh).
    eapply in_tree_step; [done| |done]. by rewrite <-(node_shrinks_parent _ _ Hsh).
Qed.

Lemma in_tree_trans st a b c : in_tree st a b → in_tree st b c → in_tree st a c.
Proof. intros Hab. induction 1; [done|]. by eapply in_tree_step. Qed.

Lemma hooks_ok_parent n nd p :
  hooks_ok n nd → parent_of nd = Some p →
  p < n ∧ _connect nd = HAddChild p n ∧ _disconnect nd = HRemoveChild p n.
Proof.
  unfold hooks_ok, parent_of.
  destruct (variant_of nd); [intros [-> _]; done|..];
    intros (q & ? & Hc & Hd); rewrite Hc; by intros [= <-].
Qed.

Lemma hooks_ok_root n nd :
  hooks_ok n nd → parent_of nd = None → _disconnect nd = HExternal ∧ _connect nd = HExternal.
Proof.
  unfold hooks_ok, parent_of.
  destruct (variant_of nd); [intros [-> ->]; done|..];
    intros (q & ? & Hc & Hd); by rewrite Hc.
Qed.

Lemma in_tree_le X st r n : inv_gen X st → in_tree st r n → r ≤ n.
Proof.
  intros Hinv. induction 1 as [|n nd p Hn Hp _ IH]; [done|].
  destruct (hooks_ok_parent n nd p) as [? _]; [by eapply inv_hooks|done|lia].
Qed.

Lemma in_tree_inv st r n :
  in_tree st r n → r = n ∨ ∃ nd p, nodes st !! n = Some nd ∧ parent_of nd = Some p ∧
                                   in_tree st r p.
Proof. destruct 1; eauto 10. Qed.

Lemma inv_gen_mono (X Y : node_id → Prop) st :
  (∀ m, X m → Y m) → inv_gen X st → inv_gen Y st.
Proof.
  intros HXY [H1 H2 H3 H4 H5 H6 H7]. split; try done.
  intros n nd c Hn Hc. destruct (H6 n nd c Hn Hc) as (ndc & ? & ? & [?|?]); eauto 10.
Qed.

Lemma inv_gen_ext X st st' :
  nodes st' = nodes st → length (promises st') = length (promises st) →
  inv_gen X st → inv_gen X st'.
Proof.
  intros Hn Hp [H1 H2 H3 H4 H5 H6 H7]. split; rewrite ?Hn, ?Hp; done.
Qed.

Lemma lookup_lt_parent X st n nd p :
  inv_gen X st → nodes st !! n = Some nd → parent_of nd = Some p →
  p < n ∧ ∃ ndp, nodes st !! p = Some ndp.
Proof.
  intros Hinv Hn Hp. destruct (inv_sender _ _ Hinv n nd p Hn Hp) as (ndp & ? & _).
  destruct (hooks_ok_parent n nd p) as [? _]; [by eapply inv_hooks|done|]. eauto.
Qed.

(** Deleting the entry of a node without listener or child from its parent. *)
Lemma remove_child_inv X st st1 n nd p ndp :
  inv_gen (λ m, X m ∨ m = n) st →
  nodes st !! n = Some nd → is_empty nd = true → parent_of nd = Some p →
  nodes st !! p = Some ndp →
  nodes st1 = <[p := with_children (JsSet.delete n) ndp]> (nodes st) →
  length (promises st1) = length (promises st) →
  inv_gen (λ m, X m ∨ (m = p ∧ is_empty (with_children (JsSet.delete n) ndp) = true)) st1.
Proof.
  intros Hinv Hn Hempty Hpar Hp Hnodes Hprom.
  assert (p < n) as Hlt by (by eapply lookup_lt_parent).
  assert (Hlook : ∀ m ndm, nodes st1 !! m = Some ndm →
    (m = p ∧ ndm = with_children (JsSet.delete n) ndp) ∨ (m ≠ p ∧ nodes st !! m = Some ndm)).
  { intros m ndm. rewrite Hnodes. destruct (decide (m = p)) as [->|Hne].
    - rewrite list_lookup_insert_eq by (by eapply lookup_lt_Some). intros [= <-]. by left.
    - rewrite list_lookup_insert_ne by done. by right. }
  assert (Hback : ∀ m ndm, nodes st !! m = Some ndm →
    ∃ ndm', nodes st1 !! m = Some ndm' ∧ node_shrinks ndm ndm').
  { intros m ndm Hm. rewrite Hnodes. destruct (decide (m = p)) as [->|Hne].
    - rewrite list_lookup_insert_eq by (by eapply lookup_lt_Some). simplify_eq.
      eexists; split; [done|]. repeat split; [apply JsSetFacts.shrink_refl|].
      apply JsSetFacts.shrink_delete.
    - rewrite list_lookup_insert_ne by done. eauto using node_shrinks_refl. }
  pose proof Hinv as [H1 H2 H3 H4 H5 H6 H7]. split.
  - intros m ndm [[-> ->]|[_ Hm]]%Hlook; [|by eapply H1]. by apply (H1 p ndp).
  - intros m ndm q [[-> ->]|[_ Hm]]%Hlook Hq.
    + destruct (H2 p ndp q Hp Hq) as (ndq & Hndq & ?).
      destruct (Hback _ _ Hndq) as (ndq' & ? & ((_&_&Hs&_)&_)).
      exists ndq'. split; [done|]. simpl. congruence.
    + destruct (H2 m ndm q Hm Hq) as (ndq & Hndq & ?).
      destruct (Hback _ _ Hndq) as (ndq' & ? & ((_&_&Hs&_)&_)).
      exists ndq'. split; [done|]. congruence.
  - intros m ndm [[-> ->]|[_ Hm]]%Hlook; [|by eapply H3]. by apply (H3 p ndp).
  - intros m ndm [[-> ->]|[_ Hm]]%Hlook; [|by eapply H4].
    simpl. apply JsSetFacts.NoDup_delete. by apply (H4 p ndp).
  - rewrite Hprom. intros m ndm q x [[-> ->]|[_ Hm]]%Hlook; [|by eapply H5].
    by apply (H5 p ndp).
  - intros m ndm c [[-> ->]|[Hmp Hm]]%Hlook Hc.
    + simpl in Hc. apply JsSetFacts.elem_of_delete in Hc as [Hc Hcn].
      destruct (H6 p ndp c Hp Hc) as (ndc & Hndc & Hpc & Hne).
      assert (p < c) by (by eapply lookup_lt_parent).
      exists ndc. split; [|split; [done|]].
      * rewrite Hnodes, list_lookup_insert_ne by lia. done.
      * destruct Hne as [?|[?|?]]; [by left|by right; left|done].
    + destruct (H6 m ndm c Hm Hc) as (ndc & Hndc & Hpc & Hne).
      destruct (decide (c = p)) as [->|Hcp].
      * simplify_eq. exists (with_children (JsSet.delete n) ndp).
        split; [|split; [done|]].
        { rewrite Hnodes. apply list_lookup_insert_eq. by eapply lookup_lt_Some. }
        destruct Hne as [Hne|[?| ->]]; [|by right; left|lia].
        destruct (is_empty (with_children (JsSet.delete n) ndp)) eqn:E;
          [right; right; done|by left].
      * exists ndc. split; [|split; [done|]].
        { rewrite Hnodes, list_lookup_insert_ne by done. done. }
        destruct Hne as [?|[?| ->]]; [by left|by right; left|].
        simplify_eq.
  - intros m ndm q [[-> ->]|[Hmp Hm]]%Hlook Hq Hne.
    + assert (is_empty ndp = false) as Hne'.
      { destruct (is_empty ndp) eqn:E; [|done].
        eapply node_shrinks_empty in E; [by rewrite E in Hne|].
        repeat split; [apply JsSetFacts.shrink_refl|apply JsSetFacts.shrink_delete]. }
      destruct (H7 p ndp q Hp Hq Hne') as (ndq & Hndq & Hin).
      assert (q < p) by (by eapply lookup_lt_parent).
      exists ndq. split; [|done]. rewrite Hnodes, list_lookup_insert_ne by lia. done.
    + destruct (H7 m ndm q Hm Hq Hne) as (ndq & Hndq & Hin).
      destruct (decide (q = p)) as [->|Hqp].
      * simplify_eq. exists (with_children (JsSet.delete n) ndp). split.
        { rewrite Hnodes. apply list_lookup_insert_eq. by eapply lookup_lt_Some. }
        simpl. apply JsSetFacts.elem_of_delete. split; [done|]. intros ->.
        assert (ndm = nd) as -> by congruence. congruence.
      * exists ndq. split; [|done]. rewrite Hnodes, list_lookup_insert_ne by done. done.
Qed.

(** ** The chain of [_disconnect] calls

    [detached n st st']: [st'] is [st] after [n._disconnect()] has run; only
    the child sets of proper ancestors of [n] have changed. *)
Record detached (n : node_id) (st st' : state) : Prop := {
  dt_shrinks : shrinks st st';
  dt_listeners : ∀ m, _listeners <$> nodes st' !! m = _listeners <$> nodes st !! m;
  dt_frame : ∀ m, ¬ (in_tree st m n ∧ m ≠ n) → nodes st' !! m = nodes st !! m;
  dt_promises : promises st' = promises st;
  dt_microtasks : microtasks st' = microtasks st;
  dt_trace : ∃ dis, trace st' = trace st ++ dis ∧ Forall is_disconnect dis
}.

Lemma remove_child_detached st st1 n nd p ndp tr :
  nodes st !! n = Some nd → is_empty nd = true → parent_of nd = Some p → p < n →
  nodes st !! p = Some ndp →
  Forall is_disconnect tr →
  st1 = with_nodes (<[p := with_children (JsSet.delete n) ndp]> (nodes st))
          (with_trace (trace st ++ tr) st) →
  detached n st st1.
Proof.
  intros Hn Hempty Hpar Hlt Hp Htr ->. split; simpl; try done.
  - split; simpl; try done.
    + eapply nodes_shrink_insert; [done|].
      repeat split; [apply JsSetFacts.shrink_refl|apply JsSetFacts.shrink_delete].
    + intros q ndq ndq' e Hq Hq' He Hne. destruct (decide (q = p)) as [->|Hqp].
      * rewrite list_lookup_insert_eq in Hq' by (by eapply lookup_lt_Some).
        simplify_eq. simpl in Hne.
        assert (e = n) as ->.
        { destruct (decide (e = n)); [done|]. exfalso. apply Hne.
          by apply JsSetFacts.elem_of_delete. }
        exists nd. split; [|done]. simpl. rewrite list_lookup_insert_ne by lia. done.
      * rewrite list_lookup_insert_ne in Hq' by done. simplify_eq.
    + by apply prefix_app_r.
  - intros m. destruct (decide (m = p)) as [->|Hne].
    + rewrite list_lookup_insert_eq by (by eapply lookup_lt_Some). by rewrite Hp.
    + by rewrite list_lookup_insert_ne.
  - intros m Hm. rewrite list_lookup_insert_ne; [done|]. intros <-. apply Hm.
    split; [|lia]. eapply in_tree_step; [done..|apply in_tree_self].
  - eauto.
Qed.

Lemma detached_trans X st1 st2 st3 n nd p :
  inv_gen X st2 → nodes st1 !! n = Some nd → parent_of nd = Some p → p < n →
  detached n st1 st2 → detached p st2 st3 → detached n st1 st3.
Proof.
  intros Hinv Hn Hp Hlt [Hs1 Hl1 Hf1 Hp1 Hm1 (d1 & Ht1 & Hd1)]
    [Hs2 Hl2 Hf2 Hp2 Hm2 (d2 & Ht2 & Hd2)].
  split.
  - by eapply shrinks_trans.
  - intros m. by rewrite Hl2, Hl1.
  - intros m Hm. rewrite Hf2, Hf1; [done..|].
    intros [Hmp _]. apply Hm.
    assert (m ≤ p) by (by eapply in_tree_le).
    split; [|lia].
    eapply in_tree_step; [done..|]. by eapply in_tree_shrinks; [apply Hs1|].
  - congruence.
  - congruence.
  - exists (d1 ++ d2). rewrite Ht2, Ht1, (assoc_L (++)). split; [done|].
    by apply Forall_app.
Qed.

(** [n._disconnect()] on a node without listener or child returns, given
    more fuel than the depth of [n], and restores the invariant. *)
Lemma call_disconnect_spec fuel : ∀ X st n nd,
  inv_gen (λ m, X m ∨ m = n) st →
  nodes st !! n = Some nd → is_empty nd = true → n < fuel →
  ∃ st', call_disconnect (call_hook fuel) n st = Some (tt, st') ∧
         inv_gen X st' ∧ detached n st st'.
Proof.
  induction fuel as [|fuel IH]; intros X st n nd Hinv Hn Hempty Hfuel; [lia|].
  unfold call_disconnect. rewrite (bind_eq _ _ _ _ _ (get_node_eq _ _ _ Hn)).
  unfold bind at 1, log at 1.
  destruct (parent_of nd) as [p|] eqn:Hpar.
  - destruct (lookup_lt_parent _ _ _ _ _ Hinv Hn Hpar) as [Hlt [ndp Hp]].
    destruct (hooks_ok_parent n nd p) as (_ & _ & ->); [by eapply inv_hooks|done|].
    simpl. unfold removeChild_with.
    erewrite bind_eq; [|by apply update_node_eq].
    set (ndp1 := with_children (JsSet.delete n) ndp).
    set (st1 := with_nodes _ _).
    assert (nodes st1 !! p = Some ndp1) as Hp1.
    { subst st1. simpl. apply list_lookup_insert_eq. by eapply lookup_lt_Some. }
    rewrite (bind_eq _ _ _ _ _ (get_node_eq _ _ _ Hp1)).
    assert (detached n st st1) as Hdet.
    { eapply (remove_child_detached _ _ n nd p ndp [EDisconnect n]); try done.
      by repeat constructor. }
    assert (inv_gen (λ m, X m ∨ (m = p ∧ is_empty ndp1 = true)) st1) as Hinv1.
    { by eapply (remove_child_inv X st st1 n nd p ndp). }
    destruct (is_empty ndp1) eqn:Hemp1; simpl.
    + destruct (IH X st1 p ndp1) as (st' & Hrun & Hinv' & Hdet'); [|done|done|lia|].
      { eapply inv_gen_mono; [|done]. intros m [?|[? _]]; auto. }
      exists st'. split; [done|]. split; [done|].
      eapply detached_trans; [apply Hinv1|done..].
    + exists st1. split; [done|]. split; [|done].
      eapply inv_gen_mono; [|done]. intros m [?|[_ ?]]; [done|congruence].
  - destruct (hooks_ok_root n nd) as [-> _]; [by eapply inv_hooks|done|].
    simpl. eexists. split; [done|]. split.
    + eapply inv_gen_ext; [done..|].
      destruct Hinv as [H1 H2 H3 H4 H5 H6 H7]. split; try done.
      intros m ndm c Hm Hc. destruct (H6 m ndm c Hm Hc) as (ndc & ? & ? & [?|[?| ->]]);
        [eauto 10..|]. simplify_eq.
    + split; simpl; try done.
      * split; simpl; try done; [apply nodes_shrink_refl| |by apply prefix_app_r].
        intros; simplify_eq; done.
      * exists [EDisconnect n]. split; [done|]. by repeat constructor.
Qed.

(** ** Loops

    The rule for [for (let x of set) body]: an invariant indexed by the
    position of the iterator, kept by the body, under which the set does not
    grow. *)
Lemma for_of_from_rule {K} (set : node → JsSet.t K) this (body : K → M unit)
    (I : nat → state → Prop) (bound : nat) :
  (∀ j st1, I j st1 →
     ∃ nd1, nodes st1 !! this = Some nd1 ∧ length (set nd1) = bound ∧
       ∀ e, set nd1 !! j = Some e →
         match e with
         | Some x => ∃ st2, body x st1 = Some (tt, st2) ∧ I (S j) st2
         | None => I (S j) st1
         end) →
  ∀ steps i st, I i st → i ≤ bound → bound ≤ i + steps →
  ∃ st', for_of_from steps set this i body st = Some (tt, st') ∧ I bound st'.
Proof.
  intros Hbody. induction steps as [|steps IH]; intros i st HI Hi Hsteps.
  - destruct (Hbody i st HI) as (nd1 & Hnd1 & Hlen & _).
    assert (i = bound) as -> by lia.
    exists st. split; [|done]. simpl.
    rewrite (bind_eq _ _ _ _ _ (get_node_eq _ _ _ Hnd1)).
    rewrite lookup_ge_None_2 by lia. done.
  - destruct (Hbody i st HI) as (nd1 & Hnd1 & Hlen & Hstep).
    simpl. rewrite (bind_eq _ _ _ _ _ (get_node_eq _ _ _ Hnd1)).
    destruct (set nd1 !! i) as [e|] eqn:He.
    + assert (i < bound) by (rewrite <-Hlen; by eapply lookup_lt_Some).
      specialize (Hstep e eq_refl). destruct e as [x|].
      * destruct Hstep as (st2 & Hrun & HI2).
        rewrite (bind_eq _ _ _ _ _ Hrun). apply IH; [done|lia..].
      * unfold bind at 1, ret at 1. apply IH; [done|lia..].
    + apply lookup_ge_None_1 in He. assert (i = bound) as -> by lia.
      exists st. done.
Qed.

Lemma for_of_rule {K} (set : node → JsSet.t K) this (body : K → M unit)
    (I : nat → state → Prop) st nd :
  nodes st !! this = Some nd →
  I 0 st →
  (∀ j st1, I j st1 →
     ∃ nd1, nodes st1 !! this = Some nd1 ∧ length (set nd1) = length (set nd) ∧
       ∀ e, set nd1 !! j = Some e →
         match e with
         | Some x => ∃ st2, body x st1 = Some (tt, st2) ∧ I (S j) st2
         | None => I (S j) st1
         end) →
  ∃ st', for_of set this body st = Some (tt, st') ∧ I (length (set nd)) st'.
Proof.
  intros Hnd HI Hbody. unfold for_of.
  rewrite (bind_eq _ _ _ _ _ (get_node_eq _ _ _ Hnd)).
  eapply for_of_from_rule; [done|done|lia..].
Qed.

Lemma with_listeners_id (f : JsSet.t listener → JsSet.t listener) nd :
  f (_listeners nd) = _listeners nd → with_listeners f nd = nd.
Proof. destruct nd; unfold with_listeners; simpl. by intros ->. Qed.

Lemma with_nodes_id st (ns : list node) : ns = nodes st → with_nodes ns st = st.
Proof. destruct st; unfold with_nodes; simpl. by intros ->. Qed.

(** ** [unlisten] of a listener that is registered nowhere in the subtree *)
Lemma unlisten_absent fuel : ∀ X st c ndc l,
  inv_gen X st →
  nodes st !! c = Some ndc → is_empty ndc = false →
  (∀ m, in_tree st c m → ¬ X m) →
  (∀ m ndm, in_tree st c m → nodes st !! m = Some ndm → Some l ∉ _listeners ndm) →
  length (nodes st) ≤ fuel + c →
  unlisten fuel c l st = Some (tt, st).
Proof.
  induction fuel as [|fuel IH]; intros X st c ndc l Hinv Hc Hne HX Habs Hfuel.
  { apply lookup_lt_Some in Hc. lia. }
  simpl.
  assert (update_node c (with_listeners (JsSet.delete l)) st = Some (tt, st)) as Hupd.
  { rewrite (update_node_eq _ _ _ _ Hc). f_equal. f_equal. apply with_nodes_id.
    rewrite with_listeners_id.
    - by apply list_insert_id.
    - apply JsSetFacts.delete_absent. eapply Habs; [apply in_tree_self|done]. }
  rewrite (bind_eq _ _ _ _ _ Hupd).
  destruct (for_of_rule _children c (λ child, unlisten fuel child l)
              (λ _ st1, st1 = st) st ndc Hc eq_refl) as (st' & Hloop & ->).
  { intros j st1 ->. exists ndc. split; [done|]. split; [done|].
    intros [x|] Hx; [|done]. exists st. split; [|done].
    assert (Some x ∈ _children ndc) as Hin by (by eapply list_elem_of_lookup_2).
    destruct (inv_child _ _ Hinv c ndc x Hc Hin) as (ndx & Hndx & Hpx & Hnex).
    assert (in_tree st c x) as Hcx.
    { eapply in_tree_step; [done..|apply in_tree_self]. }
    assert (c < x) by (by eapply lookup_lt_parent).
    eapply (IH X); [done|done| | | |lia].
    - destruct Hnex as [?|?]; [done|]. by destruct (HX x).
    - intros m Hm. apply HX. by eapply in_tree_trans.
    - intros m ndm Hm. apply Habs. by eapply in_tree_trans. }
  rewrite (bind_eq _ _ _ _ _ Hloop).
  rewrite (bind_eq _ _ _ _ _ (get_node_eq _ _ _ Hc)).
  by rewrite Hne.
Qed.

(** ** [unlisten] of a listener that is registered on the receiver only *)

(** Deleting a listener from [n]: [n] may now stand registered without
    listener or child. *)
Lemma delete_listener_inv X st st1 n nd l :
  inv_gen X st → nodes st !! n = Some nd →
  nodes st1 = <[n := with_listeners (JsSet.delete l) nd]> (nodes st) →
  length (promises st1) = length (promises st) →
  inv_gen (λ m, X m ∨ (m = n ∧ is_empty (with_listeners (JsSet.delete l) nd) = true)) st1.
Proof.
  intros Hinv Hn Hnodes Hprom.
  assert (Hlook : ∀ m ndm, nodes st1 !! m = Some ndm →
    (m = n ∧ ndm = with_listeners (JsSet.delete l) nd) ∨ (m ≠ n ∧ nodes st !! m = Some ndm)).
  { intros m ndm. rewrite Hnodes. destruct (decide (m = n)) as [->|Hne].
    - rewrite list_lookup_insert_eq by (by eapply lookup_lt_Some). intros [= <-]. by left.
    - rewrite list_lookup_insert_ne by done. by right. }
  assert (Hsh : node_shrinks nd (with_listeners (JsSet.delete l) nd)).
  { repeat split; [apply JsSetFacts.shrink_delete|apply JsSetFacts.shrink_refl]. }
  assert (Hback : ∀ m ndm, nodes st !! m = Some ndm →
    ∃ ndm', nodes st1 !! m = Some ndm' ∧ node_shrinks ndm ndm' ∧
            _children ndm' = _children ndm).
  { intros m ndm Hm. rewrite Hnodes. destruct (decide (m = n)) as [->|Hne].
    - rewrite list_lookup_insert_eq by (by eapply lookup_lt_Some). simplify_eq. eauto.
    - rewrite list_lookup_insert_ne by done. eauto using node_shrinks_refl. }
  pose proof Hinv as [H1 H2 H3 H4 H5 H6 H7]. split.
  - intros m ndm [[-> ->]|[_ Hm]]%Hlook; [|by eapply H1]. by apply (H1 n nd).
  - intros m ndm q Hm Hq.
    assert (∃ ndm0, nodes st !! m = Some ndm0 ∧ parent_of ndm0 = Some q ∧
                    _sender ndm0 = _sender ndm) as (ndm0 & Hm0 & Hq0 & Hs0).
    { apply Hlook in Hm as [[-> ->]|[_ Hm]]; eauto. }
    destruct (H2 m ndm0 q Hm0 Hq0) as (ndq & Hndq & ?).
    destruct (Hback _ _ Hndq) as (ndq' & ? & ((_&_&Hs&_)&_) & _).
    exists ndq'. split; [done|]. congruence.
  - intros m ndm [[-> ->]|[_ Hm]]%Hlook; [|by eapply H3].
    simpl. apply JsSetFacts.NoDup_delete. by apply (H3 n nd).
  - intros m ndm [[-> ->]|[_ Hm]]%Hlook; [|by eapply H4]. by apply (H4 n nd).
  - rewrite Hprom. intros m ndm q x [[-> ->]|[_ Hm]]%Hlook; [|by eapply H5].
    simpl. intros [Hin _]%JsSetFacts.elem_of_delete. by apply (H5 n nd).
  - intros m ndm c Hm Hc.
    assert (∃ ndm0, nodes st !! m = Some ndm0 ∧ Some c ∈ _children ndm0)
      as (ndm0 & Hm0 & Hc0).
    { apply Hlook in Hm as [[-> ->]|[_ Hm]]; eauto. }
    destruct (H6 m ndm0 c Hm0 Hc0) as (ndc & Hndc & Hpc & Hne).
    destruct (decide (c = n)) as [->|Hcn].
    + simplify_eq. exists (with_listeners (JsSet.delete l) nd). split; [|split; [done|]].
      { rewrite Hnodes. apply list_lookup_insert_eq. by eapply lookup_lt_Some. }
      destruct (is_empty (with_listeners (JsSet.delete l) nd)) eqn:E; [|by left].
      right; by right.
    + exists ndc. split; [|split; [done|]].
      { rewrite Hnodes, list_lookup_insert_ne by done. done. }
      destruct Hne; [by left|by right; left].
  - intros m ndm q Hm Hq Hne.
    assert (∃ ndm0, nodes st !! m = Some ndm0 ∧ parent_of ndm0 = Some q ∧
                    is_empty ndm0 = false) as (ndm0 & Hm0 & Hq0 & Hne0).
    { apply Hlook in Hm as [[-> ->]|[_ Hm]]; [|eauto]. exists nd. split_and!; try done.
      destruct (is_empty nd) eqn:E; [|done].
      eapply node_shrinks_empty in E; [|done]. congruence. }
    destruct (H7 m ndm0 q Hm0 Hq0 Hne0) as (ndq & Hndq & Hin).
    destruct (Hback _ _ Hndq) as (ndq' & ? & _ & Hch).
    exists ndq'. split; [done|]. by rewrite Hch.
Qed.

Definition unlistened (n : node_id) (l : listener) (st st' : state) : Prop :=
  ∃ nd, nodes st !! n = Some nd ∧
    let nd1 := with_listeners (JsSet.delete l) nd in
    let st1 := with_nodes (<[n := nd1]> (nodes st)) st in
    if is_empty nd1 then detached n st1 st' else st' = st1.

Lemma unlisten_self fuel st n nd l :
  inv st → nodes st !! n = Some nd →
  (∀ m ndm, m ≠ n → nodes st !! m = Some ndm → Some l ∉ _listeners ndm) →
  2 * length (nodes st) ≤ fuel + n →
  ∃ st', unlisten fuel n l st = Some (tt, st') ∧ inv st' ∧ unlistened n l st st'.
Proof.
  intros Hinv Hn Habs Hfuel.
  assert (n < length (nodes st)) as Hlt by (by eapply lookup_lt_Some).
  destruct fuel as [|fuel]; [lia|]. simpl.
  rewrite (bind_eq _ _ _ _ _ (update_node_eq _ _ _ _ Hn)).
  set (nd1 := with_listeners (JsSet.delete l) nd).
  set (st1 := with_nodes _ st).
  assert (nodes st1 !! n = Some nd1) as Hn1.
  { subst st1. simpl. by apply list_lookup_insert_eq. }
  assert (inv_gen (λ m, m = n ∧ is_empty nd1 = true) st1) as Hinv1.
  { eapply inv_gen_mono; [|by eapply (delete_listener_inv _ st st1 n nd l)].
    intros m [[]|?]; done. }
  assert (Hother : ∀ m, m ≠ n → nodes st1 !! m = nodes st !! m).
  { intros m Hm. subst st1. simpl. by rewrite list_lookup_insert_ne. }
  destruct (for_of_rule _children n (λ child, unlisten fuel child l)
              (λ _ st2, st2 = st1) st1 nd1 Hn1 eq_refl) as (st' & Hloop & ->).
  { intros j st2 ->. exists nd1. split; [done|]. split; [done|].
    intros [x|] Hx; [|done]. exists st1. split; [|done].
    assert (Some x ∈ _children nd1) as Hin by (by eapply list_elem_of_lookup_2).
    destruct (inv_child _ _ Hinv1 n nd1 x Hn1 Hin) as (ndx & Hndx & Hpx & Hnex).
    assert (n < x) by (by eapply lookup_lt_parent).
    eapply (unlisten_absent fuel _ st1 x ndx l Hinv1 Hndx); [| | |simpl; rewrite length_insert; lia].
    - destruct Hnex as [?|[? _]]; [done|lia].
    - intros m Hm [-> _]. apply (in_tree_le _ _ _ _ Hinv1) in Hm. lia.
    - intros m ndm Hm Hndm. apply (in_tree_le _ _ _ _ Hinv1) in Hm.
      rewrite Hother in Hndm by lia. eapply Habs; [|done]. lia. }
  rewrite (bind_eq _ _ _ _ _ Hloop).
  rewrite (bind_eq _ _ _ _ _ (get_node_eq _ _ _ Hn1)).
  destruct (is_empty nd1) eqn:Hemp; simpl.
  - destruct (call_disconnect_spec fuel (λ _, False) st1 n nd1) as (st' & Hrun & Hinv' & Hdet);
      [|done|done|lia|].
    { eapply inv_gen_mono; [|done]. intros m [-> _]. by right. }
    exists st'. split; [done|]. split; [done|].
    exists nd. split; [done|]. simpl. fold nd1. by rewrite Hemp.
  - exists st1. split; [done|]. split.
    + eapply inv_gen_mono; [|done]. intros m [_ ?]. congruence.
    + exists nd. split; [done|]. simpl. fold nd1. by rewrite Hemp.
Qed.

(** ** What [unlisten] on the receiver alone changes *)

Lemma delete_listener_shrinks st n nd l :
  nodes st !! n = Some nd →
  shrinks st (with_nodes (<[n := with_listeners (JsSet.delete l) nd]> (nodes st)) st).
Proof.
  intros Hn. split; simpl; try done.
  - eapply nodes_shrink_insert; [done|].
    repeat split; [apply JsSetFacts.shrink_delete|apply JsSetFacts.shrink_refl].
  - intros q ndq ndq' e Hq Hq' He Hne. exfalso. apply Hne.
    destruct (decide (q = n)) as [->|Hqn].
    + rewrite list_lookup_insert_eq in Hq' by (by eapply lookup_lt_Some). by simplify_eq.
    + rewrite list_lookup_insert_ne in Hq' by done. by simplify_eq.
Qed.

Record unlistened_facts (n : node_id) (l : listener) (st st' : state) : Prop := {
  uf_shrinks : shrinks st st';
  uf_self : ∀ nd, nodes st !! n = Some nd →
    ∃ nd', nodes st' !! n = Some nd' ∧
           _listeners nd' = JsSet.delete l (_listeners nd) ∧
           _children nd' = _children nd;
  uf_listeners : ∀ m, m ≠ n → _listeners <$> nodes st' !! m = _listeners <$> nodes st !! m;
  uf_frame : ∀ m, m ≠ n → ¬ in_tree st m n → nodes st' !! m = nodes st !! m;
  uf_promises : promises st' = promises st;
  uf_microtasks : microtasks st' = microtasks st;
  uf_trace : ∃ dis, trace st' = trace st ++ dis ∧ Forall is_disconnect dis ∧
                    (dis ≠ [] → empty_at st' n)
}.

Lemma unlistened_unfold n l st st' :
  unlistened n l st st' → unlistened_facts n l st st'.
Proof.
  intros (nd & Hn & Hst'). simpl in Hst'.
  set (nd1 := with_listeners (JsSet.delete l) nd) in *.
  set (st1 := with_nodes _ st) in *.
  assert (n < length (nodes st)) as Hlt by (by eapply lookup_lt_Some).
  assert (nodes st1 !! n = Some nd1) as Hn1.
  { subst st1. simpl. by apply list_lookup_insert_eq. }
  assert (shrinks st st1) as Hsh1 by (by apply delete_listener_shrinks).
  assert (Hother : ∀ m, m ≠ n → nodes st1 !! m = nodes st !! m).
  { intros m Hm. subst st1. simpl. by rewrite list_lookup_insert_ne. }
  destruct (is_empty nd1) eqn:Hemp.
  - destruct Hst' as [Hs Hl Hf Hp Hm (dis & Ht & Hd)]. split.
    + by eapply shrinks_trans.
    + intros nd0 Hnd0. simplify_eq.
      assert (nodes st' !! n = Some nd1) as Hn'.
      { rewrite Hf; [done|]. intros [_ ?]. done. }
      exists nd1. done.
    + intros m Hm'. rewrite Hl. by rewrite Hother.
    + intros m Hm1 Hm2. rewrite Hf, Hother; [done..|].
      intros [Hin _]. apply Hm2. by eapply in_tree_shrinks; [apply Hsh1|].
    + done.
    + done.
    + exists dis. split_and!; [done..|]. intros _.
      eapply empty_at_shrinks; [apply Hs|]. by exists nd1.
  - subst st'. split; try done.
    + intros nd0 Hnd0. simplify_eq. exists nd1. done.
    + intros m Hm. by rewrite Hother.
    + intros m Hm _. by rewrite Hother.
    + exists []. rewrite (right_id_L [] (++)). done.
Qed.

(** ** Promises *)

(** A promise is fulfilled at most once, and its reactions leave with it. *)
Definition cell_step (cell cell' : @promise V) : Prop :=
  cell' = cell ∨ (p_value cell = None ∧ p_value cell' ≠ None ∧ p_reactions cell' = []).

Definition tasks_step (st st' : state) : Prop :=
  ∃ new, microtasks st' = microtasks st ++ new ∧
    Forall (λ x, ∃ q cell, promises st !! q = Some cell ∧ p_value cell = None ∧
                           x.1 ∈ p_reactions cell) new.

Lemma cell_step_refl (cell : @promise V) : cell_step cell cell.
Proof. by left. Qed.

Lemma cell_step_trans (x1 x2 x3 : @promise V) :
  cell_step x1 x2 → cell_step x2 x3 → cell_step x1 x3.
Proof.
  intros [->|(H1 & H2 & H3)] [->|(H1' & H2' & H3')]; unfold cell_step; eauto.
Qed.

Lemma promises_step_refl (ps : list (@promise V)) : Forall2 cell_step ps ps.
Proof. apply Forall_Forall2_diag, Forall_forall. intros; apply cell_step_refl. Qed.

Lemma promises_step_trans (ps1 ps2 ps3 : list (@promise V)) :
  Forall2 cell_step ps1 ps2 → Forall2 cell_step ps2 ps3 → Forall2 cell_step ps1 ps3.
Proof.
  intros H12. revert ps3. induction H12; intros ps3 H23; inversion H23; subst;
    constructor; eauto using cell_step_trans.
Qed.

Lemma tasks_step_refl st : tasks_step st st.
Proof. exists []. by rewrite (right_id_L [] (++)). Qed.

Lemma tasks_step_trans st1 st2 st3 :
  Forall2 cell_step (promises st1) (promises st2) →
  tasks_step st1 st2 → tasks_step st2 st3 → tasks_step st1 st3.
Proof.
  intros Hps (n1 & H1 & Hf1) (n2 & H2 & Hf2). exists (n1 ++ n2). split.
  - by rewrite H2, H1, (assoc_L (++)).
  - apply Forall_app. split; [done|]. eapply Forall_impl; [done|].
    intros x (q & cell2 & Hq & Hv & Hx). simpl in *.
    destruct (Forall2_lookup_r _ _ _ _ _ Hps Hq) as (cell1 & Hq1 & [->|(_ & Hne & _)]).
    + eauto.
    + congruence.
Qed.

(** The store after [ok(a)] on the promise [p]. *)
Definition resolve_state (p : promise_id) (a : V) (st : state) : state :=
  match promises st !! p with
  | Some cell =>
      match p_value cell with
      | Some _ => st
      | None =>
          with_microtasks (microtasks st ++ ((λ fr, (fr, a)) <$> p_reactions cell))
            (with_promises (<[p := Promise (Some a) []]> (promises st)) st)
      end
  | None => st
  end.

Lemma resolve_eq p a st :
  p < length (promises st) → resolve p a st = Some (tt, resolve_state p a st).
Proof.
  intros Hp. destruct (lookup_lt_is_Some_2 _ _ Hp) as [cell Hcell].
  unfold resolve, resolve_state. rewrite Hcell. simpl. by destruct (p_value cell).
Qed.

Lemma resolve_state_nodes p a st : nodes (resolve_state p a st) = nodes st.
Proof.
  unfold resolve_state. destruct (promises st !! p) as [cell|]; [|done].
  by destruct (p_value cell).
Qed.

Lemma resolve_state_trace p a st : trace (resolve_state p a st) = trace st.
Proof.
  unfold resolve_state. destruct (promises st !! p) as [cell|]; [|done].
  by destruct (p_value cell).
Qed.

Lemma resolve_state_results p a st : results (resolve_state p a st) = results st.
Proof.
  unfold resolve_state. destruct (promises st !! p) as [cell|]; [|done].
  by destruct (p_value cell).
Qed.

Lemma resolve_state_promises p a st :
  Forall2 cell_step (promises st) (promises (resolve_state p a st)).
Proof.
  unfold resolve_state. destruct (promises st !! p) as [cell|] eqn:Hcell;
    [|apply promises_step_refl].
  destruct (p_value cell) eqn:Hv; [apply promises_step_refl|]. simpl.
  apply Forall2_same_length_lookup. split; [by rewrite length_insert|].
  intros i x y Hx Hy. destruct (decide (i = p)) as [->|Hne].
  - rewrite list_lookup_insert_eq in Hy by (by eapply lookup_lt_Some).
    simplify_eq. right. done.
  - rewrite list_lookup_insert_ne in Hy by done. simplify_eq. by left.
Qed.

Lemma resolve_state_tasks p a st : tasks_step st (resolve_state p a st).
Proof.
  unfold resolve_state. destruct (promises st !! p) as [cell|] eqn:Hcell;
    [|apply tasks_step_refl].
  destruct (p_value cell) eqn:Hv; [apply tasks_step_refl|]. simpl.
  eexists. split; [done|]. apply Forall_fmap, Forall_forall. intros fr Hfr. simpl.
  eauto.
Qed.

Lemma resolve_state_with_trace p a tr st :
  promises (resolve_state p a (with_trace tr st)) = promises (resolve_state p a st) ∧
  microtasks (resolve_state p a (with_trace tr st)) = microtasks (resolve_state p a st).
Proof.
  unfold resolve_state. simpl. destruct (promises st !! p) as [cell|]; [|done].
  by destruct (p_value cell).
Qed.

Lemma resolve_state_length p a st :
  length (promises (resolve_state p a st)) = length (promises st).
Proof. symmetry. eapply Forall2_length, resolve_state_promises. Qed.

(** ** Calling one listener *)

(** The listener set of the calling node after the call: the closure of
    [next()] has removed itself. *)
Definition after_call (l : listener) (ls : JsSet.t listener) : JsSet.t listener :=
  match l with
  | LExt _ => ls
  | LNext _ _ => JsSet.delete l ls
  end.

(** The promises and the queue after the call. *)
Definition call_state (l : listener) (a : V) (st : state) : state :=
  match l with
  | LExt _ => st
  | LNext _ p => resolve_state p a st
  end.

Record invoked (c : node_id) (l : listener) (a : V) (s : Sender) (st st' : state) : Prop := {
  iv_shrinks : shrinks st st';
  iv_self : ∀ nd, nodes st !! c = Some nd →
    ∃ nd', nodes st' !! c = Some nd' ∧
           _listeners nd' = after_call l (_listeners nd) ∧
           _children nd' = _children nd;
  iv_listeners : ∀ m, m ≠ c → _listeners <$> nodes st' !! m = _listeners <$> nodes st !! m;
  iv_frame : ∀ m, m ≠ c → ¬ in_tree st m c → nodes st' !! m = nodes st !! m;
  iv_promises : promises st' = promises (call_state l a st);
  iv_microtasks : microtasks st' = microtasks (call_state l a st);
  iv_trace : ∃ dis, trace st' = trace st ++ ECall c l a s :: dis ∧
                    Forall is_disconnect dis ∧ (dis ≠ [] → empty_at st' c)
}.

Lemma shrinks_ext st st1 st' :
  nodes st1 = nodes st → length (promises st1) = length (promises st) →
  results st1 = results st → trace st `prefix_of` trace st1 →
  shrinks st1 st' → shrinks st st'.
Proof.
  intros Hn Hp Hr Ht [H1 H2 H3 H4 H5]. split.
  - by rewrite <-Hn.
  - intros p nd nd' e. rewrite <-Hn. apply H2.
  - congruence.
  - congruence.
  - by etrans.
Qed.

Lemma in_tree_ext st st1 r n : nodes st1 = nodes st → in_tree st1 r n ↔ in_tree st r n.
Proof.
  intros Hn. split; induction 1; try apply in_tree_self; eapply in_tree_step; eauto;
    congruence.
Qed.

Lemma invoke_spec fuel st c nd l a s :
  inv st → nodes st !! c = Some nd → Some l ∈ _listeners nd →
  2 * length (nodes st) ≤ fuel + c →
  ∃ st', invoke fuel c l a s st = Some (tt, st') ∧ inv st' ∧ invoked c l a s st st'.
Proof.
  intros Hinv Hc Hl Hfuel. unfold invoke, bind at 1, log at 1.
  set (st0 := with_trace _ st). destruct l as [k|m p].
  - exists st0. split; [done|]. split; [by eapply (inv_gen_ext _ st)|].
    split; simpl; try done.
    + split; simpl; try done; [apply nodes_shrink_refl| |by apply prefix_app_r].
      intros; simplify_eq; done.
    + intros nd0 Hnd0. simplify_eq. eauto.
    + exists []. split_and!; done.
  - destruct (inv_listener _ _ Hinv c nd m p Hc Hl) as [-> Hp].
    rewrite (bind_eq _ _ _ _ _ (resolve_eq p a st0 Hp)).
    set (st1 := resolve_state p a st0).
    assert (nodes st1 = nodes st) as Hnodes
      by (unfold st1; by rewrite resolve_state_nodes).
    assert (length (promises st1) = length (promises st)) as Hlen
      by (unfold st1; by rewrite resolve_state_length).
    destruct (unlisten_self fuel st1 c nd (LNext c p)) as (st' & Hrun & Hinv' & Hun).
    { by eapply (inv_gen_ext _ st). }
    { by rewrite Hnodes. }
    { rewrite Hnodes. intros m ndm Hm Hndm Hin.
      destruct (inv_listener _ _ Hinv m ndm c p Hndm Hin) as [? _]. done. }
    { by rewrite Hnodes. }
    exists st'. split; [done|]. split; [done|].
    apply unlistened_unfold in Hun as [Hs Hself Hls Hfr Hps Hms (dis & Ht & Hd & He)].
    split.
    + eapply shrinks_ext;
        [exact Hnodes|exact Hlen|unfold st1; by rewrite resolve_state_results| |done].
      unfold st1. rewrite resolve_state_trace. by apply prefix_app_r.
    + rewrite <-Hnodes. done.
    + intros m Hm. rewrite Hls by done. by rewrite Hnodes.
    + intros m Hm Hn. rewrite Hfr; [by rewrite Hnodes|done|].
      by rewrite in_tree_ext.
    + rewrite Hps. apply resolve_state_with_trace.
    + rewrite Hms. apply resolve_state_with_trace.
    + exists dis. split_and!; [|done..].
      rewrite Ht. unfold st1. rewrite resolve_state_trace. simpl.
      by rewrite <-(assoc_L (++)).
Qed.

(** ** The first loop of [_notifyListeners] *)

(** A listener entry after the loop has passed it. *)
Definition called (e : option listener) : option listener :=
  match e with
  | Some (LNext _ _) => None
  | _ => e
  end.

Definition call_states (ls : list listener) (a : V) (st : state) : state :=
  foldl (λ st l, call_state l a st) st ls.

Record listeners_done (c : node_id) (a : V) (st st' : state) : Prop := {
  ld_shrinks : shrinks st st';
  ld_self : ∀ nd, nodes st !! c = Some nd →
    ∃ nd', nodes st' !! c = Some nd' ∧
           _listeners nd' = called <$> _listeners nd ∧
           _children nd' = _children nd;
  ld_listeners : ∀ m, m ≠ c → _listeners <$> nodes st' !! m = _listeners <$> nodes st !! m;
  ld_frame : ∀ m, m ≠ c → ¬ in_tree st m c → nodes st' !! m = nodes st !! m;
  ld_promises : ∀ nd, nodes st !! c = Some nd →
    promises st' = promises (call_states (JsSet.elements (_listeners nd)) a st);
  ld_microtasks : ∀ nd, nodes st !! c = Some nd →
    microtasks st' = microtasks (call_states (JsSet.elements (_listeners nd)) a st);
  ld_trace : ∀ nd, nodes st !! c = Some nd →
    ∃ dis, trace st' = trace st ++
             ((λ l, ECall c l a (_sender nd)) <$> JsSet.elements (_listeners nd)) ++ dis ∧
           Forall is_disconnect dis ∧ (dis ≠ [] → empty_at st' c)
}.

Lemma call_state_ext l a st1 st2 :
  promises st1 = promises st2 → microtasks st1 = microtasks st2 →
  promises (call_state l a st1) = promises (call_state l a st2) ∧
  microtasks (call_state l a st1) = microtasks (call_state l a st2).
Proof.
  intros Hp Hm. destruct l as [k|m p]; simpl; [done|].
  unfold resolve_state. rewrite Hp. destruct (promises st2 !! p) as [cell|]; [|done].
  destruct (p_value cell); [done|]. simpl. by rewrite Hm.
Qed.

Lemma elements_app {A} (s1 s2 : JsSet.t A) :
  JsSet.elements (s1 ++ s2) = JsSet.elements s1 ++ JsSet.elements s2.
Proof. unfold JsSet.elements. apply omap_app. Qed.

Lemma elements_take_S {A} (s : JsSet.t A) (j : nat) (e : option A) :
  s !! j = Some e →
  JsSet.elements (firstn (S j) s) =
  JsSet.elements (firstn j s) ++ match e with Some x => [x] | None => [] end.
Proof.
  intros Hj. rewrite (take_S_r _ _ _ Hj), elements_app. by destruct e.
Qed.

Lemma NoDup_elements_lookup {A} (s : JsSet.t A) (j k : nat) (x : A) :
  NoDup (JsSet.elements s) → s !! j = Some (Some x) → s !! k = Some (Some x) → j = k.
Proof.
  revert j k. induction s as [|e s IH]; intros j k Hnd Hj Hk; [done|].
  assert (Hnotin : ∀ i, e = Some x → s !! i = Some (Some x) → False).
  { intros i -> Hi. unfold JsSet.elements in Hnd. simpl in Hnd.
    apply NoDup_cons in Hnd as [Hx _]. apply Hx.
    apply JsSetFacts.elem_of_elements. by eapply list_elem_of_lookup_2. }
  assert (NoDup (JsSet.elements s)) as Hnd'.
  { unfold JsSet.elements in *. destruct e; simpl in Hnd; [|done].
    by apply NoDup_cons in Hnd as [_ ?]. }
  destruct j as [|j], k as [|k]; simpl in *; simplify_eq; try done.
  - by destruct (Hnotin k).
  - by destruct (Hnotin j).
  - f_equal. by eapply IH.
Qed.

Lemma called_not_next (s : JsSet.t listener) m p : Some (LNext m p) ∉ called <$> s.
Proof.
  intros (e & He & _)%list_elem_of_fmap. by destruct e as [[]|].
Qed.

Lemma after_call_step (ls : JsSet.t listener) (j : nat) l :
  NoDup (JsSet.elements ((called <$> firstn j ls) ++ drop j ls)) →
  ls !! j = Some (Some l) →
  after_call l ((called <$> firstn j ls) ++ drop j ls) =
  (called <$> firstn (S j) ls) ++ drop (S j) ls.
Proof.
  intros Hnd Hj. rewrite (take_S_r _ _ _ Hj), fmap_app, <-(assoc_L (++)). simpl.
  rewrite (drop_S _ _ _ Hj) in Hnd |- *.
  destruct l as [k|m p]; simpl; [done|].
  unfold JsSet.delete. rewrite fmap_app, fmap_cons.
  rewrite decide_True by done.
  fold (JsSet.delete (LNext m p) (called <$> firstn j ls)).
  fold (JsSet.delete (LNext m p) (drop (S j) ls)).
  rewrite !JsSetFacts.delete_absent; [done| |apply called_not_next].
  intros Hin. rewrite elements_app in Hnd. apply NoDup_app in Hnd as (_ & _ & Hnd).
  unfold JsSet.elements in Hnd. simpl in Hnd. apply NoDup_cons in Hnd as [Hx _].
  apply Hx. by apply JsSetFacts.elem_of_elements.
Qed.

Lemma shrinks_length st st' : shrinks st st' → length (nodes st') = length (nodes st).
Proof. intros [H _ _ _ _]. symmetry. by eapply Forall2_length. Qed.

Lemma call_states_snoc ls l a st :
  call_states (ls ++ [l]) a st = call_state l a (call_states ls a st).
Proof. unfold call_states. by rewrite foldl_app. Qed.

Lemma empty_at_listener st c nd l :
  nodes st !! c = Some nd → Some l ∈ _listeners nd → ¬ empty_at st c.
Proof.
  intros Hc Hl (nd' & Hc' & He). simplify_eq.
  apply is_empty_true_iff in He as [He _]. by apply (He l).
Qed.

(** The position-indexed invariant of the first loop. *)
Definition listeners_inv (c : node_id) (a : V) (st : state) (nd : node)
    (j : nat) (st1 : state) : Prop :=
  inv st1 ∧ shrinks st st1 ∧
  (∃ nd1, nodes st1 !! c = Some nd1 ∧ _sender nd1 = _sender nd ∧
          _children nd1 = _children nd ∧
          _listeners nd1 = (called <$> firstn j (_listeners nd)) ++ drop j (_listeners nd)) ∧
  (∀ m, m ≠ c → _listeners <$> nodes st1 !! m = _listeners <$> nodes st !! m) ∧
  (∀ m, m ≠ c → ¬ in_tree st m c → nodes st1 !! m = nodes st !! m) ∧
  promises st1 = promises (call_states (JsSet.elements (firstn j (_listeners nd))) a st) ∧
  microtasks st1 = microtasks (call_states (JsSet.elements (firstn j (_listeners nd))) a st) ∧
  ∃ dis, trace st1 = trace st ++
           ((λ l, ECall c l a (_sender nd)) <$> JsSet.elements (firstn j (_listeners nd))) ++ dis ∧
         Forall is_disconnect dis ∧ (dis ≠ [] → empty_at st1 c).

Lemma listeners_inv_step fuel c a st nd j st1 nd1 e :
  2 * length (nodes st) ≤ fuel + c →
  listeners_inv c a st nd j st1 →
  nodes st1 !! c = Some nd1 → _listeners nd1 !! j = Some e →
  match e with
  | Some l => ∃ st2, (nd <- get_node c;; invoke fuel c l a (_sender nd)) st1 = Some (tt, st2) ∧
                     listeners_inv c a st nd (S j) st2
  | None => listeners_inv c a st nd (S j) st1
  end.
Proof.
  intros Hfuel (Hinv1 & Hsh & (nd1' & Hc1 & Hs1 & Hch1 & Hls1) & Hl & Hf & Hp & Hm &
                dis & Ht & Hd & He) Hc Hj.
  simplify_eq. rename nd1' into nd1.
  assert (length (_listeners nd1) = length (_listeners nd)) as Hlen.
  { rewrite Hls1, length_app, length_fmap, length_take, length_drop. lia. }
  assert (j < length (_listeners nd)) as Hjlt by (rewrite <-Hlen; by eapply lookup_lt_Some).
  assert (_listeners nd !! j = Some e) as Hj0.
  { rewrite Hls1, lookup_app_r in Hj; rewrite length_fmap, length_take in *; [|lia].
    rewrite lookup_drop in Hj. rewrite <-Hj. f_equal. lia. }
  destruct e as [l|].
  - assert (Some l ∈ _listeners nd1) as Hin by (by eapply list_elem_of_lookup_2).
    assert (dis = []) as ->.
    { destruct dis; [done|]. destruct (empty_at_listener st1 c nd1 l); auto. }
    rewrite (bind_eq _ _ _ _ _ (get_node_eq _ _ _ Hc1)).
    destruct (invoke_spec fuel st1 c nd1 l a (_sender nd1) Hinv1 Hc1 Hin)
      as (st2 & Hrun & Hinv2 & [Hs2 Hself2 Hl2 Hf2 Hp2 Hm2 (dis2 & Ht2 & Hd2 & He2)]).
    { rewrite (shrinks_length _ _ Hsh). done. }
    exists st2. split; [done|]. split; [done|]. split; [by eapply shrinks_trans|].
    split_and!.
    + destruct (Hself2 _ Hc1) as (nd2 & Hc2 & Hls2 & Hch2).
      destruct (nodes_shrink_lookup_l _ _ _ _ (sh_nodes _ _ Hs2) Hc1)
        as (nd2' & ? & (_ & _ & Hsnd & _) & _).
      simplify_eq. exists nd2. split_and!; [done|congruence|congruence|].
      rewrite Hls2, Hls1. apply after_call_step; [|done].
      rewrite <-Hls1. exact (inv_nodup_listeners _ _ Hinv1 c nd1 Hc1).
    + intros m Hmc. by rewrite Hl2, Hl.
    + intros m Hmc Hnt. rewrite Hf2, Hf; [done..|].
      by rewrite <-(in_tree_shrinks _ _ _ _ (sh_nodes _ _ Hsh)).
    + rewrite Hp2, (elements_take_S _ _ _ Hj0), call_states_snoc.
      by apply call_state_ext.
    + rewrite Hm2, (elements_take_S _ _ _ Hj0), call_states_snoc.
      by apply call_state_ext.
    + exists dis2. split_and!; [|done..].
      rewrite Ht2, Ht, (elements_take_S _ _ _ Hj0), fmap_app, Hs1.
      rewrite (right_id_L [] (++)), <-!(assoc_L (++)). done.
  - split; [done|]. split; [done|]. split_and!; try done.
    + exists nd1. split_and!; [done..|].
      rewrite Hls1, (take_S_r _ _ _ Hj0), fmap_app, <-(assoc_L (++)).
      by rewrite (drop_S _ _ _ Hj0).
    + by rewrite Hp, (elements_take_S _ _ _ Hj0), (right_id_L [] (++)).
    + by rewrite Hm, (elements_take_S _ _ _ Hj0), (right_id_L [] (++)).
    + exists dis. rewrite (elements_take_S _ _ _ Hj0), (right_id_L [] (++)). done.
Qed.

Lemma listeners_phase fuel st c nd a :
  inv st → nodes st !! c = Some nd → 2 * length (nodes st) ≤ fuel + c →
  ∃ st', for_of _listeners c (λ l, nd <- get_node c;; invoke fuel c l a (_sender nd)) st
           = Some (tt, st') ∧
         inv st' ∧ listeners_done c a st st'.
Proof.
  intros Hinv Hc Hfuel.
  destruct (for_of_rule _listeners c
              (λ l, nd <- get_node c;; invoke fuel c l a (_sender nd))
              (listeners_inv c a st nd) st nd Hc) as (st' & Hrun & HI).
  { split; [done|]. split; [apply shrinks_refl|]. split_and!; try done.
    - exists nd. split_and!; done.
    - exists []. simpl. by rewrite (right_id_L [] (++)). }
  { intros j st1 HI. pose proof HI as (_ & _ & (nd1 & Hc1 & _ & _ & Hls1) & _).
    exists nd1. split; [done|]. split.
    { rewrite Hls1, length_app, length_fmap, length_take, length_drop. lia. }
    intros e He. by eapply listeners_inv_step. }
  exists st'. split; [done|].
  destruct HI as (Hinv' & Hsh & (nd' & Hc' & Hs' & Hch' & Hls') & Hl & Hf & Hp & Hm & Ht).
  rewrite firstn_all in *. rewrite drop_all, (right_id_L [] (++)) in Hls'.
  split; [done|]. split; try done.
  - intros nd0 ?. simplify_eq. eauto.
  - intros nd0 ?. by simplify_eq.
  - intros nd0 ?. by simplify_eq.
  - intros nd0 ?. by simplify_eq.
Qed.

(** ** The deliveries of one firing

    Following the spec's words (section 4.1, fire and notify): every listener
    of the node in insertion order, then every child in insertion order, each
    child's subtree before the next sibling; a filter node stops on a
    rejected value, a map node passes the transformed value on.  The
    traversal reads the tree as it stands when the firing starts. *)
Definition notify_spec (fire : node_id → V → list event) (c : node_id) (nd : node)
    (a : V) : list event :=
  ((λ l, ECall c l a (_sender nd)) <$> JsSet.elements (_listeners nd)) ++
  concat ((λ x, fire x a) <$> JsSet.elements (_children nd)).

Fixpoint fire_spec (depth : nat) (ns : list node) (c : node_id) (v : V) : list event :=
  match depth with
  | O => []
  | S depth =>
      match ns !! c with
      | None => []
      | Some nd =>
          match variant_of nd with
          | SingleEventSource => notify_spec (fire_spec depth ns) c nd v
          | FilterEvent pred =>
              EPred c v :: (if pred v then notify_spec (fire_spec depth ns) c nd v else [])
          | MapEvent transform =>
              ETransform c v :: notify_spec (fire_spec depth ns) c nd (transform v)
          end
      end
  end.

#[global] Instance is_disconnect_dec (e : event) : Decision (is_disconnect e).
Proof. destruct e; simpl; apply _. Defined.

(** The trace without the [_disconnect] calls. *)
Definition deliveries (tr : list event) : list event :=
  base.filter (λ e, ¬ is_disconnect e) tr.

(** ** The tree *)

Lemma child_in_tree X st c nd x :
  inv_gen X st → nodes st !! c = Some nd → Some x ∈ _children nd →
  in_tree st c x ∧ c < x ∧ x < length (nodes st).
Proof.
  intros Hinv Hc Hx. destruct (inv_child _ _ Hinv c nd x Hc Hx) as (ndx & Hndx & Hp & _).
  split_and!.
  - eapply in_tree_step; [done..|apply in_tree_self].
  - by eapply lookup_lt_parent.
  - by eapply lookup_lt_Some.
Qed.

Lemma in_tree_linear st a b m :
  in_tree st a m → in_tree st b m → in_tree st a b ∨ in_tree st b a.
Proof.
  induction 1 as [|m nd p Hm Hp Ha IH]; intros Hb; [by right|].
  apply in_tree_inv in Hb as [->|(nd' & p' & Hm' & Hp' & Hb)].
  - left. by eapply in_tree_step.
  - simplify_eq. by apply IH.
Qed.

Lemma in_tree_antisym X st a b :
  inv_gen X st → in_tree st a b → in_tree st b a → a = b.
Proof.
  intros Hinv H1 H2. apply (in_tree_le _ _ _ _ Hinv) in H1, H2. lia.
Qed.

Lemma sibling_not_in_tree X st c x y ndx ndy :
  inv_gen X st →
  nodes st !! x = Some ndx → parent_of ndx = Some c →
  nodes st !! y = Some ndy → parent_of ndy = Some c →
  x ≠ y → ¬ in_tree st x y.
Proof.
  intros Hinv Hx Hpx Hy Hpy Hne Hin.
  apply in_tree_inv in Hin as [->|(nd' & p' & Hy' & Hp' & Hin)]; [done|].
  simplify_eq. apply (in_tree_le _ _ _ _ Hinv) in Hin.
  destruct (lookup_lt_parent _ _ _ _ _ Hinv Hx Hpx). lia.
Qed.

Lemma sibling_subtree_apart X st c x y ndx ndy m :
  inv_gen X st →
  nodes st !! x = Some ndx → parent_of ndx = Some c →
  nodes st !! y = Some ndy → parent_of ndy = Some c →
  x ≠ y → in_tree st y m → ¬ in_tree st x m ∧ ¬ in_tree st m x.
Proof.
  intros Hinv Hx Hpx Hy Hpy Hne Hym. split.
  - intros Hxm. destruct (in_tree_linear _ _ _ _ Hxm Hym) as [H|H].
    + by eapply (sibling_not_in_tree _ st c x y).
    + by eapply (sibling_not_in_tree _ st c y x).
  - intros Hmx. eapply (sibling_not_in_tree _ st c y x); [done..|].
    by eapply in_tree_trans.
Qed.

(** ** The traversal depends on the subtree only *)

Lemma fire_spec_ext X depth : ∀ st st' x a,
  inv_gen X st →
  (∀ m, in_tree st x m → nodes st' !! m = nodes st !! m) →
  fire_spec depth (nodes st') x a = fire_spec depth (nodes st) x a.
Proof.
  induction depth as [|depth IH]; intros st st' x a Hinv Hsame; [done|].
  simpl. rewrite (Hsame x (in_tree_self _ _)).
  destruct (nodes st !! x) as [nd|] eqn:Hx; [|done].
  assert (∀ b, notify_spec (fire_spec depth (nodes st')) x nd b =
               notify_spec (fire_spec depth (nodes st)) x nd b) as Hn.
  { intros b. unfold notify_spec. f_equal. f_equal. apply list_fmap_ext.
    intros i y Hy. apply (IH st); [done|]. intros m Hm. apply Hsame.
    eapply in_tree_trans; [|done].
    eapply (child_in_tree _ st x nd y); [done..|].
    apply JsSetFacts.elem_of_elements. by eapply list_elem_of_lookup_2. }
  destruct (variant_of nd); by rewrite ?Hn.
Qed.

Lemma fire_spec_depth X st : inv_gen X st → ∀ d d' x a,
  length (nodes st) ≤ d + x → length (nodes st) ≤ d' + x →
  fire_spec d (nodes st) x a = fire_spec d' (nodes st) x a.
Proof.
  intros Hinv. induction d as [|d IH]; intros d' x a Hd Hd'.
  - destruct d'; [done|]. simpl. by rewrite lookup_ge_None_2 by lia.
  - destruct d' as [|d'].
    + simpl. by rewrite lookup_ge_None_2 by lia.
    + simpl. destruct (nodes st !! x) as [nd|] eqn:Hx; [|done].
      assert (∀ b, notify_spec (fire_spec d (nodes st)) x nd b =
                   notify_spec (fire_spec d' (nodes st)) x nd b) as Hn.
      { intros b. unfold notify_spec. f_equal. f_equal. apply list_fmap_ext.
        intros i y Hy.
        destruct (child_in_tree _ st x nd y Hinv Hx) as (_ & ? & ?).
        { apply JsSetFacts.elem_of_elements. by eapply list_elem_of_lookup_2. }
        apply IH; lia. }
      destruct (variant_of nd); by rewrite ?Hn.
Qed.

(** ** What a firing changes *)

Record fired (c : node_id) (st st' : state) : Prop := {
  fd_shrinks : shrinks st st';
  fd_listeners : ∀ m, ¬ in_tree st c m →
    _listeners <$> nodes st' !! m = _listeners <$> nodes st !! m;
  fd_frame : ∀ m, ¬ in_tree st c m → ¬ in_tree st m c → nodes st' !! m = nodes st !! m;
  fd_promises : Forall2 cell_step (promises st) (promises st');
  fd_tasks : tasks_step st st'
}.

Definition fire_post (x : node_id) (a : V) (st st' : state) : Prop :=
  inv st' ∧ fired x st st' ∧
  ∃ delta, trace st' = trace st ++ delta ∧
           deliveries delta = fire_spec (length (nodes st)) (nodes st) x a.

(** ** The second loop of [_notifyListeners] *)

Record children_done (c : node_id) (a : V) (st st' : state) : Prop := {
  cd_shrinks : shrinks st st';
  cd_listeners : ∀ m, ¬ (in_tree st c m ∧ m ≠ c) →
    _listeners <$> nodes st' !! m = _listeners <$> nodes st !! m;
  cd_frame : ∀ m, ¬ in_tree st c m → ¬ in_tree st m c → nodes st' !! m = nodes st !! m;
  cd_promises : Forall2 cell_step (promises st) (promises st');
  cd_tasks : tasks_step st st';
  cd_trace : ∀ nd, nodes st !! c = Some nd →
    ∃ blocks, trace st' = trace st ++ concat blocks ∧
      Forall2 (λ x b, deliveries b = fire_spec (length (nodes st)) (nodes st) x a)
              (JsSet.elements (_children nd)) blocks
}.

Definition children_inv (c : node_id) (a : V) (st : state) (nd : node)
    (j : nat) (st1 : state) : Prop :=
  inv st1 ∧ shrinks st st1 ∧
  (∃ nd1, nodes st1 !! c = Some nd1 ∧
          ∀ k, j ≤ k → _children nd1 !! k = _children nd !! k) ∧
  (∀ k x m, j ≤ k → _children nd !! k = Some (Some x) → in_tree st x m →
            nodes st1 !! m = nodes st !! m) ∧
  (∀ m, ¬ (in_tree st c m ∧ m ≠ c) →
        _listeners <$> nodes st1 !! m = _listeners <$> nodes st !! m) ∧
  (∀ m, ¬ in_tree st c m → ¬ in_tree st m c → nodes st1 !! m = nodes st !! m) ∧
  Forall2 cell_step (promises st) (promises st1) ∧
  tasks_step st st1 ∧
  ∃ blocks, trace st1 = trace st ++ concat blocks ∧
    Forall2 (λ x b, deliveries b = fire_spec (length (nodes st)) (nodes st) x a)
            (JsSet.elements (firstn j (_children nd))) blocks.

Lemma shrink_lookup_eq {A} (s s' : JsSet.t A) (k : nat) :
  JsSetFacts.shrink s s' →
  (∀ y, s !! k = Some (Some y) → s' !! k = Some (Some y)) →
  s' !! k = s !! k.
Proof.
  intros Hs Hk. destruct (s !! k) as [e|] eqn:He.
  - destruct (Forall2_lookup_l _ _ _ _ _ Hs He) as (e' & He' & [->| ->]); [done|].
    destruct e as [y|]; [|done]. by rewrite (Hk y eq_refl) in He'.
  - apply lookup_ge_None_1 in He. apply lookup_ge_None_2.
    by rewrite (JsSetFacts.shrink_length _ _ Hs).
Qed.

Lemma shrink_not_elem_of {A} (s s' : JsSet.t A) (k : nat) (y : A) :
  JsSetFacts.shrink s s' → NoDup (JsSet.elements s) →
  s !! k = Some (Some y) → s' !! k = Some None → Some y ∉ s'.
Proof.
  intros Hs Hnd Hk Hk' (i & Hi)%list_elem_of_lookup.
  destruct (JsSetFacts.shrink_lookup _ _ _ _ Hs Hi) as (e & He & [<-|?]); [|done].
  assert (i = k) as -> by (by eapply NoDup_elements_lookup). congruence.
Qed.

Lemma children_inv_step (trig : node_id → V → M unit) c a st nd j st1 nd1 e :
  inv st → nodes st !! c = Some nd →
  (∀ st1 x, inv st1 → length (nodes st1) = length (nodes st) → c < x →
            x < length (nodes st) →
            ∃ st2, trig x a st1 = Some (tt, st2) ∧ fire_post x a st1 st2) →
  children_inv c a st nd j st1 →
  nodes st1 !! c = Some nd1 → _children nd1 !! j = Some e →
  match e with
  | Some x => ∃ st2, trig x a st1 = Some (tt, st2) ∧ children_inv c a st nd (S j) st2
  | None => children_inv c a st nd (S j) st1
  end.
Proof.
  intros Hinv Hc Htrig (Hinv1 & Hsh & (nd1' & Hc1 & Hch1) & Hsub & Hl & Hf & Hp & Hm &
                        blocks & Ht & Hb) Hc1' Hj.
  simplify_eq. rename nd1' into nd1.
  assert (_children nd !! j = Some e) as Hj0 by (by rewrite <-Hch1).
  pose proof (λ r n, in_tree_shrinks st st1 r n (sh_nodes _ _ Hsh)) as Htree.
  destruct e as [x|].
  - assert (Some x ∈ _children nd1) as Hin by (by eapply list_elem_of_lookup_2).
    destruct (inv_child _ _ Hinv1 c nd1 x Hc1 Hin) as (ndx & Hx & Hpx & Hnex).
    destruct (child_in_tree _ _ _ _ _ Hinv1 Hc1 Hin) as (Hcx & Hlt & Hlen).
    destruct (Htrig st1 x Hinv1) as (st2 & Hrun & Hinv2 & Hfd & delta & Ht2 & Hdel);
      [by apply shrinks_length|done|by rewrite <-(shrinks_length _ _ Hsh)|].
    destruct Hfd as [Hs2 Hl2 Hf2 Hp2 Hm2].
    exists st2. split; [done|]. split; [done|]. split; [by eapply shrinks_trans|].
    assert (Hapart : ∀ k y m, S j ≤ k → _children nd !! k = Some (Some y) →
              in_tree st y m → ¬ in_tree st1 x m ∧ ¬ in_tree st1 m x).
    { intros k y m Hk Hy Hym.
      assert (Some y ∈ _children nd1) as Hyin.
      { apply (list_elem_of_lookup_2 _ k). rewrite Hch1 by lia. done. }
      destruct (inv_child _ _ Hinv1 c nd1 y Hc1 Hyin) as (ndy & Hndy & Hpy & _).
      eapply (sibling_subtree_apart _ st1 c x y); [done..| |by apply Htree].
      intros ->. assert (j = k); [|lia].
      eapply (NoDup_elements_lookup (_children nd)); [|done..].
      exact (inv_nodup_children _ _ Hinv c nd Hc). }
    split_and!.
    + destruct (nodes_shrink_lookup_l _ _ _ _ (sh_nodes _ _ Hs2) Hc1)
        as (nd2 & Hc2 & _ & _ & Hshc).
      exists nd2. split; [done|]. intros k Hk. rewrite <-Hch1 by lia.
      apply shrink_lookup_eq; [done|]. intros y Hy.
      destruct (Forall2_lookup_l _ _ _ _ _ Hshc Hy) as (e' & He' & [->| ->]); [done|].
      exfalso.
      assert (Some y ∈ _children nd1) as Hyin by (by eapply list_elem_of_lookup_2).
      destruct (inv_child _ _ Hinv1 c nd1 y Hc1 Hyin) as (ndy & Hndy & Hpy & [Hney|[]]).
      assert (empty_at st2 y) as (ndy' & Hndy' & Hey).
      { eapply (sh_removed _ _ Hs2 c nd1 nd2 y); [done..|].
        eapply shrink_not_elem_of; [done| |done..].
        exact (inv_nodup_children _ _ Hinv1 c nd1 Hc1). }
      destruct (Hapart k y y) as [Hn1 Hn2]; [done|by rewrite <-Hch1 by lia|apply in_tree_self|].
      rewrite (Hf2 y Hn1 Hn2) in Hndy'. congruence.
    + intros k y m Hk Hy Hym. destruct (Hapart k y m Hk Hy Hym) as [Hn1 Hn2].
      rewrite (Hf2 m Hn1 Hn2). eapply Hsub; [|done..]. lia.
    + intros m Hmc. rewrite Hl2, Hl; [done..|].
      intros Hxm. apply Hmc. apply Htree in Hxm, Hcx. split.
      * by eapply in_tree_trans.
      * intros ->. apply (in_tree_le _ _ _ _ Hinv) in Hxm. lia.
    + intros m Hn1 Hn2. rewrite Hf2, Hf; [done..| |].
      * intros Hxm. apply Hn1. apply Htree in Hxm, Hcx. by eapply in_tree_trans.
      * intros Hmx. apply in_tree_inv in Hmx as [->|(ndx' & p' & Hx' & Hp' & Hmx)].
        { apply Hn1. by apply Htree. }
        simplify_eq. apply Hn2. by apply Htree.
    + by eapply promises_step_trans.
    + by eapply tasks_step_trans.
    + exists (blocks ++ [delta]). split.
      * rewrite Ht2, Ht, concat_app. simpl. by rewrite (right_id_L [] (++)), (assoc_L (++)).
      * rewrite (elements_take_S _ _ _ Hj0). apply Forall2_app; [done|].
        constructor; [|constructor]. rewrite Hdel, (shrinks_length _ _ Hsh).
        apply (fire_spec_ext _ _ st st1 x a Hinv). intros m Hxm.
        eapply (Hsub j x m); [lia|done..].
  - split; [done|]. split; [done|]. split_and!; try done.
    + exists nd1. split; [done|]. intros k Hk. apply Hch1. lia.
    + intros k x m Hk. apply Hsub. lia.
    + exists blocks. by rewrite (elements_take_S _ _ _ Hj0), (right_id_L [] (++)).
Qed.

Lemma children_phase (trig : node_id → V → M unit) st c nd a :
  inv st → nodes st !! c = Some nd →
  (∀ st1 x, inv st1 → length (nodes st1) = length (nodes st) → c < x →
            x < length (nodes st) →
            ∃ st2, trig x a st1 = Some (tt, st2) ∧ fire_post x a st1 st2) →
  ∃ st', for_of _children c (λ x, trig x a) st = Some (tt, st') ∧
         inv st' ∧ children_done c a st st'.
Proof.
  intros Hinv Hc Htrig.
  destruct (for_of_rule _children c (λ x, trig x a)
              (children_inv c a st nd) st nd Hc) as (st' & Hrun & HI).
  { split; [done|]. split; [apply shrinks_refl|]. split_and!; try done.
    - by exists nd.
    - apply promises_step_refl.
    - apply tasks_step_refl.
    - exists []. simpl. rewrite (right_id_L [] (++)). split; [done|]. constructor. }
  { intros j st1 HI.
    pose proof HI as (_ & Hsh & (nd1 & Hc1 & _) & _).
    destruct (nodes_shrink_lookup_l _ _ _ _ (sh_nodes _ _ Hsh) Hc)
      as (nd1' & ? & _ & _ & Hshc). simplify_eq.
    exists nd1. split; [done|]. split; [by apply JsSetFacts.shrink_length|].
    intros e He. by eapply children_inv_step. }
  exists st'. split; [done|].
  destruct HI as (Hinv' & Hsh & _ & _ & Hl & Hf & Hp & Hm & Ht).
  rewrite firstn_all in Ht.
  split; [done|]. split; try done.
  intros nd0 ?. by simplify_eq.
Qed.

(** ** [_notifyListeners] *)

Definition notified (c : node_id) (a : V) (st st' : state) : Prop :=
  ∃ mid, inv mid ∧ listeners_done c a st mid ∧ children_done c a mid st'.

Lemma notify_rule fuel (trig : node_id → V → M unit) st c nd a :
  inv st → nodes st !! c = Some nd → 2 * length (nodes st) ≤ fuel + c →
  (∀ st1 x, inv st1 → length (nodes st1) = length (nodes st) → c < x →
            x < length (nodes st) →
            ∃ st2, trig x a st1 = Some (tt, st2) ∧ fire_post x a st1 st2) →
  ∃ st', _notifyListeners_with (invoke fuel) trig c a st = Some (tt, st') ∧
         inv st' ∧ notified c a st st'.
Proof.
  intros Hinv Hc Hfuel Htrig. unfold _notifyListeners_with.
  destruct (listeners_phase fuel st c nd a Hinv Hc Hfuel) as (mid & Hrun1 & Hinv1 & Hld).
  rewrite (bind_eq _ _ _ _ _ Hrun1).
  destruct (ld_self _ _ _ _ Hld nd Hc) as (nd1 & Hc1 & _).
  destruct (children_phase trig mid c nd1 a Hinv1 Hc1) as (st' & Hrun2 & Hinv2 & Hcd).
  { intros st1 x Hinv' Hlen. rewrite (shrinks_length _ _ (ld_shrinks _ _ _ _ Hld)).
    apply Htrig; [done|]. by rewrite Hlen, (shrinks_length _ _ (ld_shrinks _ _ _ _ Hld)). }
  exists st'. split; [done|]. split; [done|]. by exists mid.
Qed.

Lemma deliveries_app (t1 t2 : list event) :
  deliveries (t1 ++ t2) = deliveries t1 ++ deliveries t2.
Proof. apply filter_app. Qed.

Lemma deliveries_disconnect (dis : list event) :
  Forall is_disconnect dis → deliveries dis = [].
Proof.
  induction 1 as [|e dis He _ IH]; [done|].
  unfold deliveries. rewrite filter_cons_False by (intros Hn; by apply Hn). done.
Qed.

Lemma deliveries_id (tr : list event) :
  Forall (λ e, ¬ is_disconnect e) tr → deliveries tr = tr.
Proof.
  induction 1 as [|e tr He _ IH]; [done|].
  unfold deliveries. rewrite filter_cons_True by done. f_equal. done.
Qed.

Lemma deliveries_calls c a s (ls : list listener) :
  deliveries ((λ l, ECall c l a s) <$> ls) = (λ l, ECall c l a s) <$> ls.
Proof. apply deliveries_id, Forall_fmap, Forall_forall. intros l _ []. Qed.

Lemma deliveries_concat (blocks : list (list event)) :
  deliveries (concat blocks) = concat (deliveries <$> blocks).
Proof.
  induction blocks as [|b blocks IH]; [done|].
  simpl. by rewrite deliveries_app, IH.
Qed.

Lemma call_state_steps l a st :
  Forall2 cell_step (promises st) (promises (call_state l a st)) ∧
  tasks_step st (call_state l a st).
Proof.
  destruct l as [k|m p]; simpl.
  - split; [apply promises_step_refl|apply tasks_step_refl].
  - split; [apply resolve_state_promises|apply resolve_state_tasks].
Qed.

Lemma call_states_steps ls a st :
  Forall2 cell_step (promises st) (promises (call_states ls a st)) ∧
  tasks_step st (call_states ls a st).
Proof.
  induction ls as [|l ls IH] using rev_ind.
  - split; [apply promises_step_refl|apply tasks_step_refl].
  - rewrite call_states_snoc. destruct IH as [IH1 IH2].
    destruct (call_state_steps l a (call_states ls a st)) as [H1 H2]. split.
    + by eapply promises_step_trans.
    + by eapply tasks_step_trans.
Qed.

Lemma tasks_step_ext st st1 st2 :
  microtasks st2 = microtasks st1 → tasks_step st st1 → tasks_step st st2.
Proof. intros Hm (new & H & Hf). exists new. by rewrite Hm. Qed.

Lemma notify_spec_depth X st c nd a d d' :
  inv_gen X st → nodes st !! c = Some nd →
  length (nodes st) ≤ S (d + c) → length (nodes st) ≤ S (d' + c) →
  notify_spec (fire_spec d (nodes st)) c nd a = notify_spec (fire_spec d' (nodes st)) c nd a.
Proof.
  intros Hinv Hc Hd Hd'. unfold notify_spec. f_equal. f_equal. apply list_fmap_ext.
  intros i y Hy.
  destruct (child_in_tree _ st c nd y Hinv Hc) as (_ & ? & ?).
  { apply JsSetFacts.elem_of_elements. by eapply list_elem_of_lookup_2. }
  apply (fire_spec_depth _ _ Hinv); lia.
Qed.

Lemma notified_fired st c nd a st' :
  inv st → nodes st !! c = Some nd → notified c a st st' →
  fired c st st' ∧
  ∃ delta, trace st' = trace st ++ delta ∧
           deliveries delta = notify_spec (fire_spec (length (nodes st)) (nodes st)) c nd a.
Proof.
  intros Hinv Hc (mid & Hinv1 & Hld & Hcd).
  destruct Hld as [Hs1 Hself1 Hl1 Hf1 Hp1 Hm1 Ht1].
  destruct Hcd as [Hs2 Hl2 Hf2 Hp2 Hm2 Ht2].
  destruct (Hself1 nd Hc) as (nd1 & Hc1 & Hls1 & Hch1).
  pose proof (λ r n, in_tree_shrinks st mid r n (sh_nodes _ _ Hs1)) as Htree.
  destruct (call_states_steps (JsSet.elements (_listeners nd)) a st) as [Hcp Hct].
  rewrite <-(Hp1 nd Hc) in Hcp.
  split; [split|].
  - by eapply shrinks_trans.
  - intros m Hm. assert (m ≠ c) by (intros ->; apply Hm, in_tree_self).
    rewrite Hl2, Hl1; [done..|]. intros [Hm' _]. by apply Hm, Htree.
  - intros m Hn1 Hn2. assert (m ≠ c) by (intros ->; apply Hn1, in_tree_self).
    rewrite Hf2, Hf1; [done..| |]; by rewrite <-Htree.
  - by eapply promises_step_trans.
  - eapply tasks_step_trans; [done| |done].
    eapply tasks_step_ext; [|done]. by rewrite (Hm1 nd Hc).
  - destruct (Ht1 nd Hc) as (dis & Htr1 & Hdis & _).
    destruct (Ht2 nd1 Hc1) as (blocks & Htr2 & Hblocks).
    exists (((λ l, ECall c l a (_sender nd)) <$> JsSet.elements (_listeners nd)) ++
            dis ++ concat blocks).
    split; [by rewrite Htr2, Htr1, <-!(assoc_L (++))|].
    rewrite !deliveries_app, deliveries_calls, (deliveries_disconnect dis) by done.
    unfold notify_spec. f_equal. simpl. rewrite deliveries_concat. f_equal.
    rewrite Hch1 in Hblocks. clear -Hblocks Hinv Hinv1 Hs1 Hf1 Hc Htree.
    assert (Hsub : ∀ x, x ∈ JsSet.elements (_children nd) →
              fire_spec (length (nodes mid)) (nodes mid) x a =
              fire_spec (length (nodes st)) (nodes st) x a).
    { intros x Hx. apply JsSetFacts.elem_of_elements in Hx.
      destruct (child_in_tree _ st c nd x Hinv Hc Hx) as (Hcx & Hlt & _).
      rewrite (shrinks_length _ _ Hs1). apply (fire_spec_ext _ _ st mid x a Hinv).
      intros m Hxm. pose proof (in_tree_le _ _ _ _ Hinv Hxm).
      apply Hf1; [lia|]. intros Hmc. apply (in_tree_le _ _ _ _ Hinv) in Hmc. lia. }
    induction Hblocks as [|x b xs bs Hb _ IH]; [done|]. simpl. f_equal.
    + rewrite Hb. apply Hsub. left.
    + apply IH. intros y Hy. apply Hsub. by right.
Qed.

Lemma fired_ext c st st0 st' :
  nodes st0 = nodes st → promises st0 = promises st → microtasks st0 = microtasks st →
  results st0 = results st → trace st `prefix_of` trace st0 →
  fired c st0 st' → fired c st st'.
Proof.
  intros Hn Hp Hm Hr Ht [H1 H2 H3 H4 H5]. split.
  - eapply shrinks_ext; [done|by rewrite Hp|done..].
  - intros m Hm'. rewrite H2; [by rewrite Hn|]. by rewrite in_tree_ext.
  - intros m Hm1 Hm2. rewrite H3; [by rewrite Hn|by rewrite in_tree_ext..].
  - by rewrite <-Hp.
  - destruct H5 as (new & H5 & Hf). exists new. by rewrite <-Hp, <-Hm.
Qed.

Lemma fired_refl_trace c st tr : fired c st (with_trace (trace st ++ tr) st).
Proof.
  split.
  - split; simpl; try done; [apply nodes_shrink_refl| |by apply prefix_app_r].
    intros; simplify_eq; done.
  - done.
  - done.
  - apply promises_step_refl.
  - exists []. simpl. by rewrite (right_id_L [] (++)).
Qed.

(** ** [_trigger] returns, and delivers what the traversal says *)
Theorem trigger_spec fuel : ∀ st c v,
  inv st → c < length (nodes st) → 3 * length (nodes st) ≤ fuel + c →
  ∃ st', _trigger fuel c v st = Some (tt, st') ∧ fire_post c v st st'.
Proof.
  induction fuel as [|fuel IH]; intros st c v Hinv Hc Hfuel; [lia|].
  destruct (lookup_lt_is_Some_2 _ _ Hc) as [nd Hnd].
  assert (Hrule : ∀ st0 a, nodes st0 = nodes st → promises st0 = promises st →
            ∃ st', _notifyListeners_with (invoke fuel) (_trigger fuel) c a st0 = Some (tt, st') ∧
                   inv st' ∧ notified c a st0 st').
  { intros st0 a Hn Hp. eapply notify_rule.
    - eapply (inv_gen_ext _ st); [done|by rewrite Hp|done].
    - by rewrite Hn.
    - rewrite Hn. lia.
    - intros st1 x Hinv1 Hlen Hcx Hx. apply IH; [done|lia|]. rewrite Hlen, Hn. lia. }
  assert (Hdepth : ∀ a, notify_spec (fire_spec (length (nodes st)) (nodes st)) c nd a =
            notify_spec (fire_spec (length (nodes st) - 1) (nodes st)) c nd a).
  { intros a. eapply notify_spec_depth; [done..|lia|lia]. }
  simpl. rewrite (bind_eq _ _ _ _ _ (get_node_eq _ _ _ Hnd)).
  unfold fire_post.
  replace (fire_spec (length (nodes st)) (nodes st) c v)
    with (fire_spec (S (length (nodes st) - 1)) (nodes st) c v) by (f_equal; lia).
  simpl. rewrite Hnd.
  destruct (variant_of nd) as [|pred|transform] eqn:Hvar.
  - destruct (Hrule st v) as (st' & Hrun & Hinv' & Hnot); [done..|].
    exists st'. split; [done|]. split; [done|].
    destruct (notified_fired st c nd v st' Hinv Hnd Hnot) as (Hfd & delta & Ht & Hd).
    split; [done|]. exists delta. split; [done|]. by rewrite Hd, Hdepth.
  - unfold bind at 1, log at 1. set (st0 := with_trace _ st).
    destruct (pred v) eqn:Hpred.
    + destruct (Hrule st0 v) as (st' & Hrun & Hinv' & Hnot); [done..|].
      exists st'. split; [done|]. split; [done|].
      destruct (notified_fired st0 c nd v st') as (Hfd & delta & Ht & Hd);
        [by eapply (inv_gen_ext _ st)|done|done|].
      split; [eapply fired_ext; [..|done]; try done; by apply prefix_app_r|].
      exists (EPred c v :: delta). split.
      * rewrite Ht. simpl. by rewrite <-(assoc_L (++)).
      * unfold deliveries in *. rewrite filter_cons_True by (by intros []).
        f_equal. rewrite Hd. simpl. by rewrite Hdepth.
    + exists st0. split; [done|]. split; [by eapply (inv_gen_ext _ st)|].
      split; [apply fired_refl_trace|]. exists [EPred c v]. done.
  - unfold bind at 1, log at 1. set (st0 := with_trace _ st).
    destruct (Hrule st0 (transform v)) as (st' & Hrun & Hinv' & Hnot); [done..|].
    exists st'. split; [done|]. split; [done|].
    destruct (notified_fired st0 c nd (transform v) st') as (Hfd & delta & Ht & Hd);
      [by eapply (inv_gen_ext _ st)|done|done|].
    split; [eapply fired_ext; [..|done]; try done; by apply prefix_app_r|].
    exists (ETransform c v :: delta). split.
    * rewrite Ht. simpl. by rewrite <-(assoc_L (++)).
    * unfold deliveries in *. rewrite filter_cons_True by (by intros []).
      f_equal. rewrite Hd. simpl. by rewrite Hdepth.
Qed.

(** ** The chain of [_connect] calls *)

Definition is_connect (e : event) : Prop :=
  match e with EConnect _ => True | _ => False end.

Definition registered (st : state) (n : node_id) (nd : node) : Prop :=
  ∀ p, parent_of nd = Some p → ∃ ndp, nodes st !! p = Some ndp ∧ Some n ∈ _children ndp.

Lemma add_child_inv Y st st2 n nd p ndp :
  inv_gen Y st → nodes st !! n = Some nd → parent_of nd = Some p →
  nodes st !! p = Some ndp → registered st p ndp →
  nodes st2 = <[p := with_children (JsSet.add n) ndp]> (nodes st) →
  length (promises st2) = length (promises st) →
  inv_gen (λ m, (Y m ∧ m ≠ p) ∨ m = n) st2.
Proof.
  intros Hinv Hn Hpar Hp Hreg Hnodes Hprom.
  assert (p < n) as Hlt by (by eapply lookup_lt_parent).
  assert (Hlook : ∀ m ndm, nodes st2 !! m = Some ndm →
    (m = p ∧ ndm = with_children (JsSet.add n) ndp) ∨ (m ≠ p ∧ nodes st !! m = Some ndm)).
  { intros m ndm. rewrite Hnodes. destruct (decide (m = p)) as [->|Hne].
    - rewrite list_lookup_insert_eq by (by eapply lookup_lt_Some). intros [= <-]. by left.
    - rewrite list_lookup_insert_ne by done. by right. }
  assert (Hback : ∀ m ndm, nodes st !! m = Some ndm →
    ∃ ndm', nodes st2 !! m = Some ndm' ∧ static_eq ndm ndm' ∧
            _listeners ndm' = _listeners ndm ∧
            (∀ x, Some x ∈ _children ndm → Some x ∈ _children ndm') ∧
            (is_empty ndm = false → is_empty ndm' = false)).
  { intros m ndm Hm. rewrite Hnodes. destruct (decide (m = p)) as [->|Hne].
    - rewrite list_lookup_insert_eq by (by eapply lookup_lt_Some). simplify_eq.
      eexists; split; [done|]. split_and!; try done.
      + intros x Hx. simpl. apply JsSetFacts.elem_of_add. by left.
      + intros _. apply is_empty_false_iff. right. exists n. simpl.
        apply JsSetFacts.elem_of_add. by right.
    - rewrite list_lookup_insert_ne by done. exists ndm. split_and!; done. }
  pose proof Hinv as [H1 H2 H3 H4 H5 H6 H7]. split.
  - intros m ndm [[-> ->]|[_ Hm]]%Hlook; [|by eapply H1]. by apply (H1 p ndp).
  - intros m ndm q Hm Hq.
    assert (∃ ndm0, nodes st !! m = Some ndm0 ∧ parent_of ndm0 = Some q ∧
                    _sender ndm0 = _sender ndm) as (ndm0 & Hm0 & Hq0 & Hs0).
    { apply Hlook in Hm as [[-> ->]|[_ Hm]]; eauto. }
    destruct (H2 m ndm0 q Hm0 Hq0) as (ndq & Hndq & ?).
    destruct (Hback _ _ Hndq) as (ndq' & ? & (_&_&Hs&_) & _).
    exists ndq'. split; [done|]. congruence.
  - intros m ndm [[-> ->]|[_ Hm]]%Hlook; [|by eapply H3]. by apply (H3 p ndp).
  - intros m ndm [[-> ->]|[_ Hm]]%Hlook; [|by eapply H4].
    simpl. apply JsSetFacts.NoDup_add. by apply (H4 p ndp).
  - rewrite Hprom. intros m ndm q x [[-> ->]|[_ Hm]]%Hlook; [|by eapply H5].
    by apply (H5 p ndp).
  - intros m ndm c Hm Hc.
    assert ((m = p ∧ c = n) ∨ ∃ ndm0, nodes st !! m = Some ndm0 ∧ Some c ∈ _children ndm0)
      as [[-> ->]|(ndm0 & Hm0 & Hc0)].
    { apply Hlook in Hm as [[-> ->]|[_ Hm]]; [|eauto]. simpl in Hc.
      apply JsSetFacts.elem_of_add in Hc as [?| ->]; eauto. }
    + destruct (Hback _ _ Hn) as (nd' & Hn' & (Hcn & _) & _).
      exists nd'. split; [done|]. split; [|right; by right].
      unfold parent_of in *. by rewrite Hcn.
    + destruct (H6 m ndm0 c Hm0 Hc0) as (ndc & Hndc & Hpc & Hne).
      destruct (Hback _ _ Hndc) as (ndc' & Hndc' & (Hcc & _) & _ & _ & Hnec).
      exists ndc'. split; [done|]. split; [unfold parent_of in *; by rewrite Hcc|].
      destruct Hne as [?|HY]; [left; auto|].
      destruct (decide (c = p)) as [->|?]; [|right; left; done].
      left. simplify_eq. rewrite Hnodes, list_lookup_insert_eq in Hndc'
        by (by eapply lookup_lt_Some). simplify_eq.
      apply is_empty_false_iff. right. exists n. simpl.
      apply JsSetFacts.elem_of_add. by right.
  - intros m ndm q Hm Hq Hne.
    assert (∃ ndq, nodes st !! q = Some ndq ∧ Some m ∈ _children ndq)
      as (ndq & Hndq & Hin).
    { apply Hlook in Hm as [[-> ->]|[_ Hm]]; [by apply Hreg|]. by eapply H7. }
    destruct (Hback _ _ Hndq) as (ndq' & ? & _ & _ & Hch & _).
    exists ndq'. split; [done|]. by apply Hch.
Qed.

Lemma add_listener_inv Y st st2 n nd l :
  inv_gen Y st → (∀ m, Y m → m = n) →
  nodes st !! n = Some nd → registered st n nd →
  (∀ m p, l = LNext m p → m = n ∧ p < length (promises st)) →
  nodes st2 = <[n := with_listeners (JsSet.add l) nd]> (nodes st) →
  length (promises st2) = length (promises st) →
  inv st2.
Proof.
  intros Hinv HY Hn Hreg Hl Hnodes Hprom.
  assert (Hlook : ∀ m ndm, nodes st2 !! m = Some ndm →
    (m = n ∧ ndm = with_listeners (JsSet.add l) nd) ∨ (m ≠ n ∧ nodes st !! m = Some ndm)).
  { intros m ndm. rewrite Hnodes. destruct (decide (m = n)) as [->|Hne].
    - rewrite list_lookup_insert_eq by (by eapply lookup_lt_Some). intros [= <-]. by left.
    - rewrite list_lookup_insert_ne by done. by right. }
  assert (Hnew : is_empty (with_listeners (JsSet.add l) nd) = false).
  { apply is_empty_false_iff. left. exists l. simpl. apply JsSetFacts.elem_of_add. by right. }
  assert (Hback : ∀ m ndm, nodes st !! m = Some ndm →
    ∃ ndm', nodes st2 !! m = Some ndm' ∧ static_eq ndm ndm' ∧
            _children ndm' = _children ndm ∧
            (is_empty ndm = false ∨ m = n → is_empty ndm' = false)).
  { intros m ndm Hm. rewrite Hnodes. destruct (decide (m = n)) as [->|Hne].
    - rewrite list_lookup_insert_eq by (by eapply lookup_lt_Some). simplify_eq.
      eexists; split; [done|]. split_and!; done.
    - rewrite list_lookup_insert_ne by done. exists ndm. split_and!; try done.
      intros [?|?]; done. }
  pose proof Hinv as [H1 H2 H3 H4 H5 H6 H7]. split.
  - intros m ndm [[-> ->]|[_ Hm]]%Hlook; [|by eapply H1]. by apply (H1 n nd).
  - intros m ndm q Hm Hq.
    assert (∃ ndm0, nodes st !! m = Some ndm0 ∧ parent_of ndm0 = Some q ∧
                    _sender ndm0 = _sender ndm) as (ndm0 & Hm0 & Hq0 & Hs0).
    { apply Hlook in Hm as [[-> ->]|[_ Hm]]; eauto. }
    destruct (H2 m ndm0 q Hm0 Hq0) as (ndq & Hndq & ?).
    destruct (Hback _ _ Hndq) as (ndq' & ? & (_&_&Hs&_) & _).
    exists ndq'. split; [done|]. congruence.
  - intros m ndm [[-> ->]|[_ Hm]]%Hlook; [|by eapply H3].
    simpl. apply JsSetFacts.NoDup_add. by apply (H3 n nd).
  - intros m ndm [[-> ->]|[_ Hm]]%Hlook; [|by eapply H4]. by apply (H4 n nd).
  - rewrite Hprom. intros m ndm q x [[-> ->]|[_ Hm]]%Hlook; [|by eapply H5].
    simpl. intros [Hin|Heq]%JsSetFacts.elem_of_add; [by apply (H5 n nd)|].
    by apply Hl.
  - intros m ndm c Hm Hc.
    assert (∃ ndm0, nodes st !! m = Some ndm0 ∧ Some c ∈ _children ndm0)
      as (ndm0 & Hm0 & Hc0).
    { apply Hlook in Hm as [[-> ->]|[_ Hm]]; eauto. }
    destruct (H6 m ndm0 c Hm0 Hc0) as (ndc & Hndc & Hpc & Hne).
    destruct (Hback _ _ Hndc) as (ndc' & Hndc' & (Hcc & _) & _ & Hnec).
    exists ndc'. split; [done|]. split; [unfold parent_of in *; by rewrite Hcc|].
    left. apply Hnec. destruct Hne as [?|?%HY]; auto.
  - intros m ndm q Hm Hq Hne.
    assert (∃ ndq, nodes st !! q = Some ndq ∧ Some m ∈ _children ndq)
      as (ndq & Hndq & Hin).
    { apply Hlook in Hm as [[-> ->]|[_ Hm]]; [by apply Hreg|]. by eapply H7. }
    destruct (Hback _ _ Hndq) as (ndq' & ? & _ & Hch & _).
    exists ndq'. split; [done|]. by rewrite Hch.
Qed.

(** [attached n st st']: [st'] is [st] after [n._connect()] has run; [n] and
    then every ancestor that had no listener and no child has been added to
    its parent. *)
Record attached (n : node_id) (st st' : state) : Prop := {
  at_nodes : ∀ m nd, nodes st !! m = Some nd →
    ∃ nd', nodes st' !! m = Some nd' ∧ static_eq nd nd' ∧
           _listeners nd' = _listeners nd ∧
           (∀ x, Some x ∈ _children nd → Some x ∈ _children nd');
  at_length : length (nodes st') = length (nodes st);
  at_frame : ∀ m, ¬ (in_tree st m n ∧ m ≠ n) → nodes st' !! m = nodes st !! m;
  at_promises : promises st' = promises st;
  at_results : results st' = results st;
  at_microtasks : microtasks st' = microtasks st;
  at_trace : ∃ rest, trace st' = trace st ++ EConnect n :: rest ∧ Forall is_connect rest ∧
    ∀ nd, nodes st !! n = Some nd →
      match parent_of nd with
      | None => rest = []
      | Some p => ∀ ndp, nodes st !! p = Some ndp →
          if is_empty ndp then ∃ rest', rest = EConnect p :: rest' else rest = []
      end;
  at_registered : ∀ nd, nodes st !! n = Some nd → registered st' n nd
}.

Lemma hooks_ok_connect n nd :
  hooks_ok n nd →
  _connect nd = match parent_of nd with Some p => HAddChild p n | None => HExternal end.
Proof.
  intros H. destruct (parent_of nd) as [p|] eqn:Hp.
  - by destruct (hooks_ok_parent n nd p H Hp) as (_ & -> & _).
  - by destruct (hooks_ok_root n nd H Hp) as (_ & ->).
Qed.

Lemma call_connect_spec fuel : ∀ st n nd,
  inv st → nodes st !! n = Some nd → n < fuel →
  ∃ st', call_connect (call_hook fuel) n st = Some (tt, st') ∧
         inv_gen (λ m, m = n) st' ∧ attached n st st'.
Proof.
  induction fuel as [|fuel IH]; intros st n nd Hinv Hn Hfuel; [lia|].
  unfold call_connect. rewrite (bind_eq _ _ _ _ _ (get_node_eq _ _ _ Hn)).
  unfold bind at 1, log at 1. set (st0 := with_trace _ st).
  assert (inv st0) as Hinv0 by (by eapply (inv_gen_ext _ st)).
  rewrite (hooks_ok_connect n nd) by (by eapply inv_hooks).
  destruct (parent_of nd) as [p|] eqn:Hpar.
  - destruct (lookup_lt_parent _ _ _ _ _ Hinv Hn Hpar) as [Hlt [ndp Hp]].
    simpl. unfold addChild_with.
    rewrite (bind_eq _ _ _ _ _ (get_node_eq _ st0 _ Hp)).
    assert (∃ st1, when (is_empty ndp) (call_connect (call_hook fuel) p) st0 = Some (tt, st1) ∧
              inv_gen (λ m, m = p) st1 ∧ nodes st1 !! p = Some ndp ∧
              nodes st1 !! n = Some nd ∧ registered st1 p ndp ∧
              (∀ m ndm, nodes st !! m = Some ndm →
                 ∃ ndm', nodes st1 !! m = Some ndm' ∧ static_eq ndm ndm' ∧
                         _listeners ndm' = _listeners ndm ∧
                         (∀ x, Some x ∈ _children ndm → Some x ∈ _children ndm')) ∧
              length (nodes st1) = length (nodes st) ∧
              (∀ m, ¬ (in_tree st m p ∧ m ≠ p) → nodes st1 !! m = nodes st !! m) ∧
              promises st1 = promises st ∧ results st1 = results st ∧
              microtasks st1 = microtasks st ∧
              ∃ rest, trace st1 = trace st ++ EConnect n :: rest ∧ Forall is_connect rest ∧
                      if is_empty ndp then ∃ rest', rest = EConnect p :: rest' else rest = [])
      as (st1 & Hrun1 & Hinv1 & Hp1 & Hn1 & Hreg1 & Hnodes1 & Hlen1 & Hfr1 & Hpr1 & Hre1 &
          Hmi1 & rest & Htr1 & Hrest & Hchain).
    { destruct (is_empty ndp) eqn:Hemp; simpl.
      - destruct (IH st0 p ndp Hinv0 Hp) as (st1 & Hrun & Hinv1 & Hat); [lia|].
        destruct Hat as [A1 A2 A3 A4 A5 A6 (rest & A7 & A8 & _) A9].
        exists st1. split; [done|]. split; [done|]. split_and!; try done.
        + rewrite A3; [done|]. intros [_ ?]. done.
        + rewrite A3; [done|]. intros [Hin _].
          apply (in_tree_le _ _ _ _ Hinv0) in Hin. lia.
        + by apply A9.
        + intros m Hm. rewrite A3; [done|]. by rewrite in_tree_ext.
        + exists (EConnect p :: rest). split_and!; [|by constructor|by eexists].
          rewrite A7. simpl. by rewrite <-(assoc_L (++)).
      - exists st0. split; [done|]. split_and!; try done.
        + eapply inv_gen_mono; [|done]. done.
        + intros q Hq. by eapply (inv_registered _ _ Hinv).
        + intros m ndm Hm. exists ndm. split_and!; done.
        + exists []. done. }
    rewrite (bind_eq _ _ _ _ _ Hrun1).
    rewrite (update_node_eq _ _ _ _ Hp1). eexists. split; [done|].
    set (st2 := with_nodes _ st1).
    assert (p < length (nodes st1)) as Hplt by (by eapply lookup_lt_Some).
    assert (Hlook2 : ∀ m, m ≠ p → nodes st2 !! m = nodes st1 !! m).
    { intros m Hm. subst st2. simpl. by rewrite list_lookup_insert_ne. }
    assert (nodes st2 !! p = Some (with_children (JsSet.add n) ndp)) as Hp2.
    { subst st2. simpl. by rewrite list_lookup_insert_eq. }
    split.
    + eapply inv_gen_mono; [|by eapply (add_child_inv _ st1 st2 n nd p ndp)].
      intros m [[-> ?]|?]; done.
    + split; try done.
      * intros m ndm Hm. destruct (Hnodes1 m ndm Hm) as (ndm' & Hm' & Hst & Hls & Hch).
        destruct (decide (m = p)) as [->|Hne].
        -- simplify_eq. eexists. split; [done|]. split_and!; try done.
           intros x Hx. simpl. apply JsSetFacts.elem_of_add. left. by apply Hch.
        -- exists ndm'. rewrite Hlook2 by done. done.
      * subst st2. simpl. by rewrite length_insert.
      * intros m Hm. assert (m ≠ p).
        { intros ->. apply Hm. split; [|lia]. eapply in_tree_step; [done..|apply in_tree_self]. }
        rewrite Hlook2 by done. apply Hfr1. intros [Hin _]. apply Hm.
        split; [by eapply in_tree_step|].
        apply (in_tree_le _ _ _ _ Hinv) in Hin. lia.
      * exists rest. split_and!; [done..|]. intros nd0 Hnd0. simplify_eq.
        rewrite Hpar. intros ndp0 Hndp0. by simplify_eq.
      * intros nd0 Hnd0 q Hq. simplify_eq. eexists. split; [done|]. simpl.
        apply JsSetFacts.elem_of_add. by right.
  - simpl. exists st0. split; [done|]. split.
    + eapply inv_gen_mono; [|done]. done.
    + split; try done.
      * intros m ndm Hm. exists ndm. split_and!; done.
      * exists []. split_and!; [done..|]. intros nd0 Hnd0. simplify_eq. by rewrite Hpar.
      * intros nd0 Hnd0 q Hq. simplify_eq.
Qed.

(** ** [listen] *)

Record listened (n : node_id) (l : listener) (st st' : state) : Prop := {
  ln_self : ∀ nd, nodes st !! n = Some nd →
    nodes st' !! n = Some (with_listeners (JsSet.add l) nd);
  ln_nodes : ∀ m nd, nodes st !! m = Some nd → m ≠ n →
    ∃ nd', nodes st' !! m = Some nd' ∧ static_eq nd nd' ∧
           _listeners nd' = _listeners nd ∧
           (∀ x, Some x ∈ _children nd → Some x ∈ _children nd');
  ln_length : length (nodes st') = length (nodes st);
  ln_frame : ∀ m, m ≠ n → ¬ in_tree st m n → nodes st' !! m = nodes st !! m;
  ln_promises : promises st' = promises st;
  ln_results : results st' = results st;
  ln_microtasks : microtasks st' = microtasks st;
  ln_trace : ∀ nd, nodes st !! n = Some nd →
    if is_empty nd
    then registered st' n nd ∧
         ∃ rest, trace st' = trace st ++ EConnect n :: rest ∧ Forall is_connect rest ∧
           match parent_of nd with
           | None => rest = []
           | Some p => ∀ ndp, nodes st !! p = Some ndp →
               if is_empty ndp then ∃ rest', rest = EConnect p :: rest' else rest = []
           end
    else st' = with_nodes (<[n := with_listeners (JsSet.add l) nd]> (nodes st)) st
}.

Lemma listen_spec fuel st n nd l :
  inv st → nodes st !! n = Some nd →
  (∀ m p, l = LNext m p → m = n ∧ p < length (promises st)) →
  n < fuel →
  ∃ st', listen fuel n l st = Some (tt, st') ∧ inv st' ∧ listened n l st st'.
Proof.
  intros Hinv Hn Hl Hfuel. unfold listen, listen_with.
  rewrite (bind_eq _ _ _ _ _ (get_node_eq _ _ _ Hn)).
  assert (n < length (nodes st)) as Hlt by (by eapply lookup_lt_Some).
  destruct (is_empty nd) eqn:Hemp; simpl.
  - destruct (call_connect_spec fuel st n nd Hinv Hn Hfuel) as (st1 & Hrun & Hinv1 & Hat).
    destruct Hat as [A1 A2 A3 A4 A5 A6 (rest & A7 & A8 & A9) A10].
    rewrite (bind_eq _ _ _ _ _ Hrun).
    assert (nodes st1 !! n = Some nd) as Hn1.
    { rewrite A3; [done|]. intros [_ ?]. done. }
    rewrite (update_node_eq _ _ _ _ Hn1). eexists. split; [done|].
    set (st2 := with_nodes _ st1).
    assert (Hlook2 : ∀ m, m ≠ n → nodes st2 !! m = nodes st1 !! m).
    { intros m Hm. subst st2. simpl. by rewrite list_lookup_insert_ne. }
    assert (nodes st2 !! n = Some (with_listeners (JsSet.add l) nd)) as Hn2.
    { subst st2. simpl. rewrite list_lookup_insert_eq; [done|]. by rewrite A2. }
    split.
    + eapply (add_listener_inv _ st1 st2 n nd l Hinv1); try done.
      * by apply A10.
      * intros m p Hm. rewrite A4. by apply Hl.
    + split; try done.
      * intros nd0 ?. by simplify_eq.
      * intros m ndm Hm Hne. rewrite Hlook2 by done. by apply A1.
      * subst st2. simpl. by rewrite length_insert.
      * intros m Hne Hm. rewrite Hlook2 by done. apply A3. intros [? _]. done.
      * intros nd0 ?. simplify_eq. rewrite Hemp. split.
        -- intros q Hq. destruct (A10 nd Hn q Hq) as (ndq & Hndq & Hin).
           exists ndq. split; [|done]. rewrite Hlook2; [done|].
           intros ->. destruct (lookup_lt_parent _ _ _ _ _ Hinv Hn Hq). lia.
        -- exists rest. split_and!; [done..|]. by apply A9.
  - unfold bind at 1; simpl.
    rewrite (update_node_eq _ _ _ _ Hn). eexists. split; [done|].
    set (st2 := with_nodes _ st).
    assert (Hlook2 : ∀ m, m ≠ n → nodes st2 !! m = nodes st !! m).
    { intros m Hm. subst st2. simpl. by rewrite list_lookup_insert_ne. }
    split.
    + eapply (add_listener_inv _ st st2 n nd l Hinv); try done.
      intros q Hq. by eapply (inv_registered _ _ Hinv).
    + split; try done.
      * intros nd0 ?. simplify_eq. subst st2. simpl. by rewrite list_lookup_insert_eq.
      * intros m ndm Hm Hne. rewrite Hlook2 by done. exists ndm. split_and!; done.
      * subst st2. simpl. by rewrite length_insert.
      * intros m Hne _. by rewrite Hlook2.
      * intros nd0 ?. simplify_eq. by rewrite Hemp.
Qed.

(** ** Constructors *)

Lemma new_node_inv st st' nd' :
  inv st →
  nodes st' = nodes st ++ [nd'] → length (promises st') = length (promises st) →
  _listeners nd' = [] → _children nd' = [] →
  hooks_ok (length (nodes st)) nd' →
  (∀ p, parent_of nd' = Some p → ∃ ndp, nodes st !! p = Some ndp ∧ _sender ndp = _sender nd') →
  inv st'.
Proof.
  intros Hinv Hnodes Hprom Hls Hcs Hhooks Hsender.
  assert (Hlook : ∀ m ndm, nodes st' !! m = Some ndm →
    (m = length (nodes st) ∧ ndm = nd') ∨ nodes st !! m = Some ndm).
  { intros m ndm. rewrite Hnodes. intros [?|[? Hm]]%lookup_app_Some; [by right|left].
    apply list_lookup_singleton_Some in Hm as [? ->]. split; [lia|done]. }
  assert (Hback : ∀ m ndm, nodes st !! m = Some ndm → nodes st' !! m = Some ndm).
  { intros m ndm Hm. rewrite Hnodes. by apply lookup_app_l_Some. }
  pose proof Hinv as [H1 H2 H3 H4 H5 H6 H7]. split.
  - intros m ndm [[-> ->]|Hm]%Hlook; [done|by eapply H1].
  - intros m ndm q [[-> ->]|Hm]%Hlook Hq.
    + destruct (Hsender q Hq) as (ndq & ? & ?). eauto.
    + destruct (H2 m ndm q Hm Hq) as (ndq & ? & ?). eauto.
  - intros m ndm [[-> ->]|Hm]%Hlook; [|by eapply H3]. rewrite Hls. constructor.
  - intros m ndm [[-> ->]|Hm]%Hlook; [|by eapply H4]. rewrite Hcs. constructor.
  - rewrite Hprom. intros m ndm q x [[-> ->]|Hm]%Hlook; [|by eapply H5].
    rewrite Hls. by intros ?%not_elem_of_nil.
  - intros m ndm c [[-> ->]|Hm]%Hlook Hc.
    + rewrite Hcs in Hc. by apply not_elem_of_nil in Hc.
    + destruct (H6 m ndm c Hm Hc) as (ndc & ? & ? & ?). eauto 10.
  - intros m ndm q [[-> ->]|Hm]%Hlook Hq Hne.
    + exfalso. apply is_empty_false_iff in Hne as [[l Hl]|[c Hc]].
      * rewrite Hls in Hl. by apply not_elem_of_nil in Hl.
      * rewrite Hcs in Hc. by apply not_elem_of_nil in Hc.
    + destruct (H7 m ndm q Hm Hq Hne) as (ndq & ? & ?). eauto.
Qed.

Lemma singleEvent_spec st (sender : Sender) :
  inv st →
  ∃ st', singleEvent sender st = Some (length (nodes st), st') ∧ inv st' ∧
    st' = with_nodes (nodes st ++
            [Node JsSet.empty JsSet.empty HExternal HExternal sender SingleEventSource]) st.
Proof.
  intros Hinv. eexists. split; [done|]. split; [|done].
  eapply new_node_inv; try done.
Qed.

Lemma filter_spec st this nd (pred : V → bool) :
  inv st → nodes st !! this = Some nd →
  ∃ st', filter this pred st = Some (length (nodes st), st') ∧ inv st' ∧
    st' = with_nodes (nodes st ++
            [Node JsSet.empty JsSet.empty (HAddChild this (length (nodes st)))
                  (HRemoveChild this (length (nodes st))) (_sender nd) (FilterEvent pred)]) st.
Proof.
  intros Hinv Hn. unfold filter. rewrite (bind_eq _ _ _ _ _ (get_node_eq _ _ _ Hn)).
  eexists. split; [done|]. split; [|done].
  eapply new_node_inv; try done.
  - exists this. split; [by eapply lookup_lt_Some|done].
  - intros p [= <-]. eauto.
Qed.

Lemma map_spec st this nd (transform : V → V) :
  inv st → nodes st !! this = Some nd →
  ∃ st', map this transform st = Some (length (nodes st), st') ∧ inv st' ∧
    st' = with_nodes (nodes st ++
            [Node JsSet.empty JsSet.empty (HAddChild this (length (nodes st)))
                  (HRemoveChild this (length (nodes st))) (_sender nd) (MapEvent transform)]) st.
Proof.
  intros Hinv Hn. unfold map. rewrite (bind_eq _ _ _ _ _ (get_node_eq _ _ _ Hn)).
  eexists. split; [done|]. split; [|done].
  eapply new_node_inv; try done.
  - exists this. split; [by eapply lookup_lt_Some|done].
  - intros p [= <-]. eauto.
Qed.

Lemma init_inv : inv init.
Proof. split; intros n nd; simpl; by rewrite lookup_nil. Qed.

End Invariants.

(** * What a firing delivers *)

Section Delivery.

Context {V Sender : Type}.

Local Abbreviation state := (@state V Sender).
Local Abbreviation node := (@node V Sender).
Local Abbreviation event := (@event V Sender).
Local Abbreviation M := (M state).

Implicit Types (st : state) (nd : node) (n m p c this : node_id) (l : listener).

(** The calls that [n] itself makes while it fires: its predicate or
    transform, and its listeners. *)
Definition at_node (n : node_id) (e : event) : Prop :=
  match e with
  | ECall m _ _ _ | EPred m _ | ETransform m _ => m = n
  | _ => False
  end.

Definition is_call_at (n : node_id) (e : event) : Prop :=
  match e with
  | ECall m _ _ _ => m = n
  | _ => False
  end.

#[global] Instance at_node_dec n (e : event) : Decision (at_node n e).
Proof. destruct e; simpl; apply _. Defined.

#[global] Instance is_call_at_dec n (e : event) : Decision (is_call_at n e).
Proof. destruct e; simpl; apply _. Defined.

Lemma fire_spec_S d (ns : list node) c (v : V) :
  fire_spec (S d) ns c v =
  match ns !! c with
  | None => []
  | Some nd =>
      match variant_of nd with
      | SingleEventSource => notify_spec (fire_spec d ns) c nd v
      | FilterEvent pred =>
          EPred c v :: (if pred v then notify_spec (fire_spec d ns) c nd v else [])
      | MapEvent transform =>
          ETransform c v :: notify_spec (fire_spec d ns) c nd (transform v)
      end
  end.
Proof. done. Qed.

(** Every delivery of a firing of [x] is made by a node of the subtree of [x],
    to one of its listeners, with its own sender. *)
Definition delivered_in (st : state) (x : node_id) (e : event) : Prop :=
  match e with
  | ECall n l _ s =>
      in_tree st x n ∧ ∃ nd, nodes st !! n = Some nd ∧ s = _sender nd ∧ Some l ∈ _listeners nd
  | EPred n _ | ETransform n _ => in_tree st x n
  | _ => False
  end.

Lemma delivered_in_mono st x y e :
  in_tree st x y → delivered_in st y e → delivered_in st x e.
Proof.
  intros Hxy. destruct e; simpl; try done.
  - intros [? ?]. split; [by eapply in_tree_trans|done].
  - by eapply in_tree_trans.
  - by eapply in_tree_trans.
Qed.

Lemma fire_spec_within X st : inv_gen X st → ∀ d x v,
  Forall (delivered_in st x) (fire_spec d (nodes st) x v).
Proof.
  intros Hinv. induction d as [|d IH]; intros x v; [constructor|].
  simpl. destruct (nodes st !! x) as [nd|] eqn:Hx; [|constructor].
  assert (∀ a, Forall (delivered_in st x) (notify_spec (fire_spec d (nodes st)) x nd a)) as Hn.
  { intros a. unfold notify_spec. apply Forall_app. split.
    - apply Forall_fmap, Forall_forall. intros l Hl. simpl. split; [apply in_tree_self|].
      exists nd. split_and!; [done..|]. by apply JsSetFacts.elem_of_elements.
    - apply Forall_concat, Forall_fmap, Forall_forall. intros y Hy. simpl.
      eapply Forall_impl; [apply IH|]. intros e. apply delivered_in_mono.
      eapply (child_in_tree _ st x nd y); [done..|].
      by apply JsSetFacts.elem_of_elements. }
  destruct (variant_of nd) as [|pred|transform]; [done| |].
  - constructor; [apply in_tree_self|]. destruct (pred v); [done|constructor].
  - constructor; [apply in_tree_self|]. done.
Qed.

Lemma in_tree_sender X st r n ndr nd :
  inv_gen X st → in_tree st r n → nodes st !! r = Some ndr → nodes st !! n = Some nd →
  _sender nd = _sender ndr.
Proof.
  intros Hinv Hin Hr. revert nd. induction Hin as [|n nd' p Hn Hp _ IH]; intros nd Hnd.
  - congruence.
  - assert (nd = nd') as -> by congruence.
    destruct (inv_sender _ _ Hinv n nd' p Hnd Hp) as (ndp & Hndp & <-).
    by apply IH.
Qed.

(** The events of [at_node n] in a list of deliveries. *)
Lemma filter_at_node_nil st x n tr :
  Forall (delivered_in st x) tr → ¬ in_tree st x n → base.filter (at_node n) tr = [].
Proof.
  intros Htr Hn. induction Htr as [|e tr He _ IH]; [done|].
  rewrite filter_cons_False; [done|].
  intros Hat. apply Hn. destruct e; simpl in *; try done; subst.
  - by destruct He.
  - done.
  - done.
Qed.

Lemma filter_at_node_calls n a s (ls : list listener) :
  base.filter (at_node n) ((λ l, ECall n l a s : event) <$> ls) = (λ l, ECall n l a s) <$> ls.
Proof.
  induction ls as [|l ls IH]; [done|]. rewrite fmap_cons, filter_cons_True by done.
  by rewrite IH.
Qed.

Lemma filter_at_node_calls_other n m a s (ls : list listener) :
  m ≠ n → base.filter (at_node n) ((λ l, ECall m l a s : event) <$> ls) = [].
Proof.
  intros Hne. induction ls as [|l ls IH]; [done|].
  rewrite fmap_cons, filter_cons_False by done. done.
Qed.

Lemma filter_concat_nil {A B} (P : B → Prop) `{∀ x, Decision (P x)}
    (f : A → list B) (xs : list A) :
  (∀ x, x ∈ xs → base.filter P (f x) = []) →
  base.filter P (concat (f <$> xs)) = [].
Proof.
  induction xs as [|x xs IH]; intros Hxs; [done|].
  rewrite fmap_cons, concat_cons, filter_app, Hxs by left. rewrite (left_id_L [] (++)).
  apply IH. intros y Hy. apply Hxs. by right.
Qed.

(** A node's own calls when it is notified: its listeners; the children
    contribute nothing at this node. *)
Lemma filter_at_node_notify X st d n nd a :
  inv_gen X st → nodes st !! n = Some nd →
  base.filter (at_node n) (notify_spec (fire_spec d (nodes st)) n nd a) =
  (λ l, ECall n l a (_sender nd)) <$> JsSet.elements (_listeners nd).
Proof.
  intros Hinv Hn. unfold notify_spec.
  rewrite filter_app, filter_at_node_calls, filter_concat_nil.
  - by rewrite (right_id_L [] (++)).
  - intros y Hy%JsSetFacts.elem_of_elements.
    destruct (child_in_tree _ st n nd y Hinv Hn Hy) as (_ & Hlt & _).
    eapply filter_at_node_nil; [by eapply fire_spec_within|].
    intros Hin%(in_tree_le _ _ _ _ Hinv). lia.
Qed.

(** What a node itself does when it is fired. *)
Definition own_deliveries (n : node_id) (nd : node) (v : V) : list event :=
  match variant_of nd with
  | SingleEventSource => (λ l, ECall n l v (_sender nd)) <$> JsSet.elements (_listeners nd)
  | FilterEvent pred =>
      EPred n v ::
      (if pred v then (λ l, ECall n l v (_sender nd)) <$> JsSet.elements (_listeners nd)
       else [])
  | MapEvent transform =>
      ETransform n v ::
      ((λ l, ECall n l (transform v) (_sender nd)) <$> JsSet.elements (_listeners nd))
  end.

Lemma filter_at_node_fire X st d n nd v :
  inv_gen X st → nodes st !! n = Some nd →
  base.filter (at_node n) (fire_spec (S d) (nodes st) n v) = own_deliveries n nd v.
Proof.
  intros Hinv Hn. simpl. rewrite Hn. unfold own_deliveries.
  destruct (variant_of nd) as [|pred|transform].
  - by eapply filter_at_node_notify.
  - rewrite filter_cons_True by done. f_equal.
    destruct (pred v); [by eapply filter_at_node_notify|done].
  - rewrite filter_cons_True by done. f_equal. by eapply filter_at_node_notify.
Qed.

(** What a registered child does when its parent is notified. *)
Lemma filter_at_node_parent X st d p ndp n nd a :
  inv_gen X st → nodes st !! p = Some ndp → nodes st !! n = Some nd →
  parent_of nd = Some p →
  base.filter (at_node n) (notify_spec (fire_spec (S d) (nodes st)) p ndp a) =
  if decide (Some n ∈ _children ndp) then own_deliveries n nd a else [].
Proof.
  intros Hinv Hp Hn Hpar.
  destruct (lookup_lt_parent _ _ _ _ _ Hinv Hn Hpar) as [Hlt _].
  unfold notify_spec. rewrite filter_app, filter_at_node_calls_other by lia.
  rewrite (left_id_L [] (++)).
  pose proof (inv_nodup_children _ _ Hinv p ndp Hp) as Hnd.
  assert (Hof : ∀ y, y ∈ JsSet.elements (_children ndp) → y ≠ n →
            base.filter (at_node n) (fire_spec (S d) (nodes st) y a) = []).
  { intros y Hy%JsSetFacts.elem_of_elements Hne.
    destruct (inv_child _ _ Hinv p ndp y Hp Hy) as (ndy & Hndy & Hpy & _).
    eapply filter_at_node_nil; [by eapply fire_spec_within|].
    by eapply (sibling_not_in_tree _ st p y n). }
  destruct (decide (Some n ∈ _children ndp)) as [Hin|Hout].
  - apply JsSetFacts.elem_of_elements in Hin.
    induction Hnd as [|y ys Hy Hys IH]; [by apply not_elem_of_nil in Hin|].
    rewrite fmap_cons, concat_cons, filter_app.
    destruct (decide (y = n)) as [->|Hne].
    + rewrite (filter_at_node_fire _ st d n nd a Hinv Hn), filter_concat_nil.
      * by rewrite (right_id_L [] (++)).
      * intros z Hz. apply Hof; [by right|]. intros ->. done.
    + rewrite Hof; [|by left|done]. rewrite (left_id_L [] (++)). apply IH.
      * intros z Hz. apply Hof. by right.
      * apply elem_of_cons in Hin as [->|?]; done.
  - apply filter_concat_nil. intros y Hy. apply Hof; [done|]. intros ->.
    by apply Hout, JsSetFacts.elem_of_elements.
Qed.

(** The hooks are no deliveries: selecting deliveries from the trace or from
    the trace without the [_disconnect] calls is the same. *)
Lemma filter_deliveries (P : event → Prop) `{∀ e, Decision (P e)} (tr : list event) :
  (∀ e, P e → ¬ is_disconnect e) →
  base.filter P (deliveries tr) = base.filter P tr.
Proof.
  intros HP. unfold deliveries. induction tr as [|e tr IH]; [done|].
  destruct (decide (is_disconnect e)) as [Hd|Hd].
  - rewrite (filter_cons_False (λ e, ¬ is_disconnect e)) by (intros Hn; by apply Hn).
    rewrite (filter_cons_False P) by (intros HPe; by apply (HP e)). done.
  - rewrite (filter_cons_True (λ e, ¬ is_disconnect e)) by done.
    destruct (decide (P e)).
    + rewrite !(filter_cons_True P) by done. by rewrite IH.
    + rewrite !(filter_cons_False P) by done. done.
Qed.

Lemma at_node_not_disconnect n (e : event) : at_node n e → ¬ is_disconnect e.
Proof. destruct e; simpl; tauto. Qed.

(** ** [_notifyListeners] from the outside *)
Theorem notifyListeners_spec fuel st c nd a :
  inv st → nodes st !! c = Some nd → 3 * length (nodes st) ≤ fuel →
  ∃ st', _notifyListeners fuel c a st = Some (tt, st') ∧ inv st' ∧ notified c a st st'.
Proof.
  intros Hinv Hc Hfuel. unfold _notifyListeners.
  eapply notify_rule; [done|done|lia|].
  intros st1 x Hinv1 Hlen Hcx Hx. apply trigger_spec; [done|lia|lia].
Qed.

Lemma Forall2_impl_elem {A B} (P Q : A → B → Prop) (xs : list A) (ys : list B) :
  Forall2 P xs ys → (∀ x y, x ∈ xs → P x y → Q x y) → Forall2 Q xs ys.
Proof.
  induction 1 as [|x y xs ys Hxy _ IH]; intros HPQ; constructor.
  - apply HPQ; [left|done].
  - apply IH. intros x' y' Hx'. apply HPQ. by right.
Qed.

(** The shape of the trace of one [_notifyListeners]: the listeners, then the
    hooks a self-removing listener may have set off, then one block per
    child. *)
Lemma notified_trace st c nd a st' :
  inv st → nodes st !! c = Some nd → notified c a st st' →
  ∃ dis blocks,
    trace st' = trace st ++
      ((λ l, ECall c l a (_sender nd)) <$> JsSet.elements (_listeners nd)) ++
      dis ++ concat blocks ∧
    Forall is_disconnect dis ∧
    Forall2 (λ x b, deliveries b = fire_spec (length (nodes st)) (nodes st) x a)
            (JsSet.elements (_children nd)) blocks.
Proof.
  intros Hinv Hc (mid & Hinv1 & Hld & Hcd).
  destruct Hld as [Hs1 Hself1 Hl1 Hf1 Hp1 Hm1 Ht1].
  destruct Hcd as [Hs2 Hl2 Hf2 Hp2 Hm2 Ht2].
  destruct (Hself1 nd Hc) as (nd1 & Hc1 & Hls1 & Hch1).
  destruct (Ht1 nd Hc) as (dis & Htr1 & Hdis & _).
  destruct (Ht2 nd1 Hc1) as (blocks & Htr2 & Hblocks).
  exists dis, blocks. split; [by rewrite Htr2, Htr1, <-!(assoc_L (++))|].
  split; [done|]. rewrite Hch1 in Hblocks.
  eapply Forall2_impl_elem; [done|]. simpl. intros x b Hx Hb.
  apply JsSetFacts.elem_of_elements in Hx. rewrite Hb.
  destruct (child_in_tree _ st c nd x Hinv Hc Hx) as (Hcx & Hlt & _).
  rewrite (shrinks_length _ _ Hs1). apply (fire_spec_ext _ _ st mid x a Hinv).
  intros m Hxm. pose proof (in_tree_le _ _ _ _ Hinv Hxm).
  apply Hf1; [lia|]. intros Hmc. apply (in_tree_le _ _ _ _ Hinv) in Hmc. lia.
Qed.

(** The calls made at [y] while the parent [p] of [x] is notified are those of
    the block of [x], when [y] lies in the subtree of the child [x]. *)
Lemma filter_at_node_block X st d p ndp x y a :
  inv_gen X st → nodes st !! p = Some ndp → Some x ∈ _children ndp → in_tree st x y →
  base.filter (at_node y) (notify_spec (fire_spec d (nodes st)) p ndp a) =
  base.filter (at_node y) (fire_spec d (nodes st) x a).
Proof.
  intros Hinv Hp Hx Hxy.
  destruct (child_in_tree _ st p ndp x Hinv Hp Hx) as (Hpx & Hlt & _).
  destruct (inv_child _ _ Hinv p ndp x Hp Hx) as (ndx & Hndx & Hparx & _).
  pose proof (in_tree_le _ _ _ _ Hinv Hxy).
  unfold notify_spec. rewrite filter_app, filter_at_node_calls_other by lia.
  rewrite (left_id_L [] (++)).
  pose proof (inv_nodup_children _ _ Hinv p ndp Hp) as Hnd.
  assert (Hof : ∀ z, z ∈ JsSet.elements (_children ndp) → z ≠ x →
            base.filter (at_node y) (fire_spec d (nodes st) z a) = []).
  { intros z Hz%JsSetFacts.elem_of_elements Hne.
    destruct (inv_child _ _ Hinv p ndp z Hp Hz) as (ndz & Hndz & Hpz & _).
    eapply filter_at_node_nil; [by eapply fire_spec_within|].
    by eapply (sibling_subtree_apart _ st p z x). }
  apply JsSetFacts.elem_of_elements in Hx.
  induction Hnd as [|z zs Hz Hzs IH]; [by apply not_elem_of_nil in Hx|].
  rewrite fmap_cons, concat_cons, filter_app.
  destruct (decide (z = x)) as [->|Hne].
  - rewrite filter_concat_nil; [by rewrite (right_id_L [] (++))|].
    intros w Hw. apply Hof; [by right|]. intros ->. done.
  - rewrite Hof; [|by left|done]. rewrite (left_id_L [] (++)). apply IH.
    + apply elem_of_cons in Hx as [->|?]; done.
    + intros w Hw. apply Hof. by right.
Qed.

Lemma filter_filter_sub {A} (P Q : A → Prop) `{∀ x, Decision (P x)} `{∀ x, Decision (Q x)}
    (xs : list A) :
  (∀ x, P x → Q x) → base.filter P (base.filter Q xs) = base.filter P xs.
Proof.
  intros HPQ. induction xs as [|x xs IH]; [done|].
  destruct (decide (Q x)) as [HQ|HQ].
  - rewrite (filter_cons_True Q) by done. destruct (decide (P x)).
    + rewrite !(filter_cons_True P) by done. by rewrite IH.
    + rewrite !(filter_cons_False P) by done. done.
  - rewrite (filter_cons_False Q) by done.
    rewrite (filter_cons_False P) by (intros HP; by apply HQ, HPQ). done.
Qed.

Lemma is_call_at_at_node n (e : event) : is_call_at n e → at_node n e.
Proof. by destruct e. Qed.

Lemma filter_is_call_at_calls n a s (ls : list listener) :
  base.filter (is_call_at n) ((λ l, ECall n l a s : event) <$> ls) = (λ l, ECall n l a s) <$> ls.
Proof.
  induction ls as [|l ls IH]; [done|]. rewrite fmap_cons, filter_cons_True by done.
  by rewrite IH.
Qed.

(** A child is among the children of its parent exactly while it has a
    listener or a child of its own. *)
Lemma registered_iff st n nd p ndp :
  inv st → nodes st !! n = Some nd → parent_of nd = Some p → nodes st !! p = Some ndp →
  Some n ∈ _children ndp ↔ is_empty nd = false.
Proof.
  intros Hinv Hn Hpar Hp. split.
  - intros Hin. destruct (inv_child _ _ Hinv p ndp n Hp Hin) as (nd' & ? & _ & [?|[]]).
    by simplify_eq.
  - intros Hne. destruct (inv_registered _ _ Hinv n nd p Hn Hpar Hne) as (ndp' & ? & ?).
    by simplify_eq.
Qed.

(** ** [next] *)

Definition is_call_to (l : listener) (e : event) : Prop :=
  match e with
  | ECall _ l' _ _ => l' = l
  | _ => False
  end.

#[global] Instance is_call_to_dec l (e : event) : Decision (is_call_to l e).
Proof. destruct e; simpl; apply _. Defined.

Lemma is_call_to_not_disconnect l (e : event) : is_call_to l e → ¬ is_disconnect e.
Proof. destruct e; simpl; tauto. Qed.

(** No call to a listener that is registered nowhere in the subtree. *)
Lemma filter_call_to_nil st x l (tr : list event) :
  Forall (delivered_in st x) tr →
  (∀ n nd, in_tree st x n → nodes st !! n = Some nd → Some l ∉ _listeners nd) →
  base.filter (is_call_to l) tr = [].
Proof.
  intros Htr Habs. induction Htr as [|e tr He _ IH]; [done|].
  rewrite filter_cons_False; [done|].
  intros Hcall. destruct e; simpl in *; try done; subst.
  destruct He as (Hin & nd & Hn & _ & Hl). by apply (Habs _ _ Hin Hn).
Qed.

(** One call to a listener that is registered on the notified node. *)
Lemma filter_call_to_calls n a s l (ls : list listener) :
  NoDup ls → l ∈ ls →
  base.filter (is_call_to l) ((λ l', ECall n l' a s : event) <$> ls) = [ECall n l a s].
Proof.
  intros Hnd Hl. induction Hnd as [|l' ls Hl' Hnd IH]; [by apply not_elem_of_nil in Hl|].
  rewrite fmap_cons. destruct (decide (l' = l)) as [->|Hne].
  - rewrite filter_cons_True by done. f_equal.
    clear IH Hl Hnd. induction ls as [|l'' ls IH]; [done|].
    rewrite fmap_cons, filter_cons_False.
    + apply IH. intros Hin. apply Hl'. by right.
    + simpl. intros ->. apply Hl'. left.
  - rewrite filter_cons_False by done. apply IH.
    apply elem_of_cons in Hl as [->|?]; done.
Qed.

(** The promises that the closures of [next()] among [ls] fulfil. *)
Definition next_promises (ls : list listener) : list promise_id :=
  omap (λ l, match l with LNext _ p => Some p | LExt _ => None end) ls.

Definition fulfil (a : V) (cell : @promise V) : @promise V :=
  match p_value cell with
  | None => Promise (Some a) []
  | Some _ => cell
  end.

Lemma fulfil_idemp a (cell : @promise V) : fulfil a (fulfil a cell) = fulfil a cell.
Proof. unfold fulfil. by destruct (p_value cell) eqn:E; simpl; rewrite ?E. Qed.

Lemma resolve_state_lookup q a st p :
  promises (resolve_state q a st) !! p =
  (if decide (p = q) then fulfil a else id) <$> promises st !! p.
Proof.
  unfold resolve_state. destruct (promises st !! q) as [cell|] eqn:Hq.
  - destruct (p_value cell) eqn:Hv; simpl.
    + destruct (decide (p = q)) as [->|]; [|by rewrite option_fmap_id].
      rewrite Hq. simpl. unfold fulfil. by rewrite Hv.
    + destruct (decide (p = q)) as [->|].
      * rewrite list_lookup_insert_eq by (by eapply lookup_lt_Some).
        rewrite Hq. simpl. unfold fulfil. by rewrite Hv.
      * rewrite list_lookup_insert_ne by done. by rewrite option_fmap_id.
  - destruct (decide (p = q)) as [->|]; [|by rewrite option_fmap_id].
    by rewrite Hq.
Qed.

Lemma call_states_lookup ls a st p :
  promises (call_states ls a st) !! p =
  (if decide (p ∈ next_promises ls) then fulfil a else id) <$> promises st !! p.
Proof.
  induction ls as [|l ls IH] using rev_ind.
  - destruct (decide (p ∈ next_promises [])) as [Hin|_];
      [by apply not_elem_of_nil in Hin|].
    unfold call_states. simpl. by rewrite option_fmap_id.
  - rewrite call_states_snoc. unfold next_promises in *. rewrite omap_app.
    destruct l as [k|m q]; simpl.
    + rewrite (right_id_L [] (++)). done.
    + rewrite resolve_state_lookup, IH.
      destruct (promises st !! p) as [cell|]; [|done]. simpl. f_equal.
      destruct (decide (p = q)) as [->|Hne].
      * rewrite (decide_True (P := q ∈ _ ++ [q])) by (apply elem_of_app; right; left).
        destruct (decide (q ∈ _)); [apply fulfil_idemp|done].
      * destruct (decide (p ∈ omap _ ls)) as [Hin|Hout].
        -- rewrite decide_True by (apply elem_of_app; by left). done.
        -- rewrite decide_False; [done|].
           intros [?|?%list_elem_of_singleton]%elem_of_app; done.
Qed.

Lemma elem_of_next_promises ls m p : LNext m p ∈ ls → p ∈ next_promises ls.
Proof. intros Hin. apply list_elem_of_omap. by exists (LNext m p). Qed.

Record nexted (this : node_id) (st st1 : state) : Prop := {
  nx_promises : promises st1 = promises st ++ [Promise None []];
  nx_self : ∀ nd, nodes st !! this = Some nd →
    nodes st1 !! this =
      Some (with_listeners (JsSet.add (LNext this (length (promises st)))) nd);
  nx_length : length (nodes st1) = length (nodes st);
  nx_results : results st1 = results st;
  nx_microtasks : microtasks st1 = microtasks st;
  nx_trace : trace st `prefix_of` trace st1
}.

Lemma next_spec fuel st this nd :
  inv st → nodes st !! this = Some nd → this < fuel →
  ∃ st1, next fuel this st = Some (length (promises st), st1) ∧ inv st1 ∧
         nexted this st st1.
Proof.
  intros Hinv Hthis Hfuel. unfold next, bind at 1, new_promise at 1.
  set (st0 := with_promises _ st).
  assert (inv st0) as Hinv0.
  { destruct Hinv as [H1 H2 H3 H4 H5 H6 H7]. split; try done.
    intros n ndn m p Hn Hl. destruct (H5 n ndn m p Hn Hl) as [-> ?].
    split; [done|]. simpl. rewrite length_app. simpl. lia. }
  destruct (listen_spec fuel st0 this nd (LNext this (length (promises st))) Hinv0 Hthis)
    as (st1 & Hrun & Hinv1 & Hln); [|done|].
  { intros m p [= <- <-]. split; [done|]. simpl. rewrite length_app. simpl. lia. }
  rewrite (bind_eq _ _ _ _ _ Hrun). exists st1. split; [done|]. split; [done|].
  destruct Hln as [L1 L2 L3 L4 L5 L6 L7 L8]. split; try done.
  specialize (L8 nd Hthis). destruct (is_empty nd).
  - destruct L8 as (_ & rest & -> & _). by apply prefix_app_r.
  - by rewrite L8.
Qed.

Lemma notify_spec_within X st d x nd a :
  inv_gen X st → nodes st !! x = Some nd →
  Forall (delivered_in st x) (notify_spec (fire_spec d (nodes st)) x nd a).
Proof.
  intros Hinv Hx. unfold notify_spec. apply Forall_app. split.
  - apply Forall_fmap, Forall_forall. intros l Hl. simpl. split; [apply in_tree_self|].
    exists nd. split_and!; [done..|]. by apply JsSetFacts.elem_of_elements.
  - apply Forall_concat, Forall_fmap, Forall_forall. intros y Hy. simpl.
    eapply Forall_impl; [by eapply fire_spec_within|]. intros e. apply delivered_in_mono.
    eapply (child_in_tree _ st x nd y); [done..|].
    by apply JsSetFacts.elem_of_elements.
Qed.

(** The host fires the node with each value in turn, without returning to the
    event loop in between. *)
Definition fire_all (fuel : nat) (this : node_id) (vs : list V) : M unit :=
  foldr (λ v k, _notifyListeners fuel this v;; k) (ret tt) vs.

(** Once the closure of [next()] is registered nowhere, no firing calls it,
    and the promise keeps its value. *)
Lemma fire_all_after fuel this l p (cell : @promise V) : ∀ vs st,
  inv st → this < length (nodes st) → 3 * length (nodes st) ≤ fuel →
  (∀ n nd, nodes st !! n = Some nd → Some l ∉ _listeners nd) →
  promises st !! p = Some cell → p_value cell ≠ None →
  ∃ st', fire_all fuel this vs st = Some (tt, st') ∧ inv st' ∧
         promises st' !! p = Some cell ∧
         ∃ delta, trace st' = trace st ++ delta ∧ base.filter (is_call_to l) delta = [].
Proof.
  induction vs as [|v vs IH]; intros st Hinv Hthis Hfuel Habs Hp Hv.
  - exists st. split_and!; [done..|]. exists []. by rewrite (right_id_L [] (++)).
  - destruct (lookup_lt_is_Some_2 _ _ Hthis) as [nd Hnd].
    destruct (notifyListeners_spec fuel st this nd v Hinv Hnd Hfuel)
      as (st1 & Hrun & Hinv1 & Hnot).
    destruct (notified_fired st this nd v st1 Hinv Hnd Hnot)
      as ([Hsh _ _ Hps _] & delta & Ht & Hd).
    pose proof (shrinks_length _ _ Hsh) as Hlen.
    destruct (IH st1) as (st' & Hrun' & Hinv' & Hp' & delta' & Ht' & Hd');
      [done|lia|lia| | |done|].
    + intros n nd1 Hn1 Hin.
      destruct (nodes_shrink_lookup_r _ _ _ _ (sh_nodes _ _ Hsh) Hn1)
        as (nd0 & Hn0 & _ & Hls & _).
      eapply Habs; [done|]. by eapply JsSetFacts.shrink_elem_of.
    + destruct (Forall2_lookup_l _ _ _ _ _ Hps Hp) as (cell' & Hc' & [->|(? & _)]); done.
    + exists st'. simpl. rewrite (bind_eq _ _ _ _ _ Hrun). split_and!; [done..|].
      exists (delta ++ delta'). split; [by rewrite Ht', Ht, (assoc_L (++))|].
      rewrite filter_app, Hd', (right_id_L [] (++)).
      rewrite <-(filter_deliveries (is_call_to l)) by apply is_call_to_not_disconnect.
      rewrite Hd. eapply filter_call_to_nil; [by eapply notify_spec_within|].
      intros n ndn _ Hn. by eapply Habs.
Qed.

(** ** [take] *)

(** The continuations a fulfilment of [q] with [a] queues. *)
Definition reactions_of (st : state) (a : V) (q : promise_id) : list (take_frame * V) :=
  match promises st !! q with
  | Some cell =>
      match p_value cell with
      | None => (λ fr, (fr, a)) <$> p_reactions cell
      | Some _ => []
      end
  | None => []
  end.

Lemma resolve_state_microtasks q a st :
  microtasks (resolve_state q a st) = microtasks st ++ reactions_of st a q.
Proof.
  unfold resolve_state, reactions_of. destruct (promises st !! q) as [cell|].
  - destruct (p_value cell); [by rewrite (right_id_L [] (++))|done].
  - by rewrite (right_id_L [] (++)).
Qed.

Lemma call_states_microtasks ls a st :
  NoDup (next_promises ls) →
  microtasks (call_states ls a st) =
  microtasks st ++ concat (reactions_of st a <$> next_promises ls).
Proof.
  induction ls as [|l ls IH] using rev_ind; intros Hnd.
  - unfold call_states. simpl. by rewrite (right_id_L [] (++)).
  - rewrite call_states_snoc. unfold next_promises in *. rewrite omap_app in Hnd |- *.
    destruct l as [k|m q]; simpl in *.
    + rewrite (right_id_L [] (++)) in Hnd |- *. by apply IH.
    + apply NoDup_app in Hnd as (Hnd & Hq & _).
      rewrite resolve_state_microtasks, IH by done.
      rewrite fmap_app, concat_app, <-(assoc_L (++)). do 2 f_equal. simpl.
      rewrite (right_id_L [] (++)). unfold reactions_of at 1.
      rewrite call_states_lookup. unfold next_promises.
      rewrite decide_False by (intros Hin; apply (Hq q Hin); left).
      unfold reactions_of. by destruct (promises st !! q).
Qed.

Lemma NoDup_next_promises this ls :
  (∀ m q, LNext m q ∈ ls → m = this) → NoDup ls → NoDup (next_promises ls).
Proof.
  intros Hthis Hnd. induction Hnd as [|l ls Hl Hnd IH]; [constructor|].
  unfold next_promises in *. destruct l as [k|m q]; simpl.
  - apply IH. intros m q Hin. apply (Hthis m q). by right.
  - constructor.
    + intros (l' & Hl' & Heq)%list_elem_of_omap. destruct l' as [|m' q']; [done|].
      simplify_eq. assert (m' = this) as -> by (eapply Hthis; right; done).
      assert (m = this) as -> by (eapply Hthis; left). done.
    + apply IH. intros m' q' Hin. apply (Hthis m' q'). by right.
Qed.

Lemma concat_single {A B} `{EqDecision A} (f : A → list B) (xs : list A) (x : A) :
  NoDup xs → x ∈ xs → (∀ y, y ∈ xs → y ≠ x → f y = []) →
  concat (f <$> xs) = f x.
Proof.
  intros Hnd Hx Hf. induction Hnd as [|y ys Hy Hnd IH]; [by apply not_elem_of_nil in Hx|].
  rewrite fmap_cons, concat_cons. destruct (decide (y = x)) as [->|Hne].
  - assert (concat (f <$> ys) = []) as ->; [|by rewrite (right_id_L [] (++))].
    clear IH Hx. induction ys as [|z zs IHz]; [done|].
    rewrite fmap_cons, concat_cons, Hf; [|by right; left|intros ->; apply Hy; left].
    apply IHz.
    + intros Hin. apply Hy. by right.
    + by apply NoDup_cons in Hnd as [_ ?].
    + intros w Hw. apply Hf. apply elem_of_cons in Hw as [->|?]; [left|right; by right].
  - rewrite Hf; [|left|done]. rewrite (left_id_L [] (++)). apply IH.
    + apply elem_of_cons in Hx as [->|?]; done.
    + intros w Hw. apply Hf. by right.
Qed.

(** No continuation of [take] is waiting and none is queued. *)
Definition quiet (st : state) : Prop :=
  microtasks st = [] ∧
  ∀ q cell, promises st !! q = Some cell → p_reactions cell = [].

(** The one continuation [fr] waits for [p], whose listener is on [this]. *)
Record awaiting (this : node_id) (p : promise_id) (fr : @take_frame V) (st : state) : Prop := {
  aw_tasks : microtasks st = [];
  aw_cell : promises st !! p = Some (Promise None [fr]);
  aw_others : ∀ q cell, q ≠ p → promises st !! q = Some cell → p_reactions cell = [];
  aw_listener : ∃ nd, nodes st !! this = Some nd ∧ Some (LNext this p) ∈ _listeners nd
}.

Lemma notify_awaiting fuel st this p fr v :
  inv st → awaiting this p fr st → 3 * length (nodes st) ≤ fuel →
  ∃ st', _notifyListeners fuel this v st = Some (tt, st') ∧ inv st' ∧
         length (nodes st') = length (nodes st) ∧
         length (promises st') = length (promises st) ∧
         results st' = results st ∧
         microtasks st' = [(fr, v)] ∧
         ∀ q cell, promises st' !! q = Some cell → p_reactions cell = [].
Proof.
  intros Hinv [Htasks Hcell Hothers (nd & Hthis & Hl)] Hfuel.
  destruct (notifyListeners_spec fuel st this nd v Hinv Hthis Hfuel)
    as (st' & Hrun & Hinv' & mid & Hinvm & Hld & Hcd).
  exists st'. split; [done|]. split; [done|].
  pose proof (ld_promises _ _ _ _ Hld nd Hthis) as Hpm.
  pose proof (ld_microtasks _ _ _ _ Hld nd Hthis) as Hmm.
  set (els := JsSet.elements (_listeners nd)) in *.
  assert (NoDup (next_promises els)) as Hnd.
  { eapply (NoDup_next_promises this);
      [|exact (inv_nodup_listeners _ _ Hinv this nd Hthis)].
    intros m q Hin%JsSetFacts.elem_of_elements.
    by destruct (inv_listener _ _ Hinv this nd m q Hthis Hin). }
  assert (p ∈ next_promises els) as Hpin.
  { eapply elem_of_next_promises. by apply JsSetFacts.elem_of_elements. }
  assert (microtasks mid = [(fr, v)]) as Hmid.
  { rewrite Hmm, call_states_microtasks, Htasks by done. simpl.
    rewrite (concat_single _ _ p Hnd Hpin).
    - unfold reactions_of. by rewrite Hcell.
    - intros q _ Hq. unfold reactions_of.
      destruct (promises st !! q) as [cell|] eqn:Hc; [|done].
      destruct (p_value cell); [done|]. by rewrite (Hothers q cell Hq Hc). }
  assert (Hquiet : ∀ q cell, promises mid !! q = Some cell → p_reactions cell = []).
  { intros q cell. rewrite Hpm, call_states_lookup.
    destruct (promises st !! q) as [cell0|] eqn:Hc; [|done]. simpl. intros [= <-].
    destruct (decide (q = p)) as [->|Hq].
    - rewrite decide_True by done. simplify_eq. done.
    - pose proof (Hothers q cell0 Hq Hc) as Hr.
      destruct (decide (q ∈ next_promises els)); [|done].
      unfold fulfil. by destruct (p_value cell0). }
  split_and!.
  - rewrite (shrinks_length _ _ (cd_shrinks _ _ _ _ Hcd)).
    by rewrite (shrinks_length _ _ (ld_shrinks _ _ _ _ Hld)).
  - rewrite (sh_promises _ _ (cd_shrinks _ _ _ _ Hcd)).
    by rewrite (sh_promises _ _ (ld_shrinks _ _ _ _ Hld)).
  - rewrite (sh_results _ _ (cd_shrinks _ _ _ _ Hcd)).
    by rewrite (sh_results _ _ (ld_shrinks _ _ _ _ Hld)).
  - destruct (cd_tasks _ _ _ _ Hcd) as (new & Hnew & Hall).
    destruct new as [|x new]; [by rewrite Hnew, (right_id_L [] (++))|].
    apply Forall_cons in Hall as [(q & cell & Hq & _ & Hx) _].
    rewrite (Hquiet q cell Hq) in Hx. by apply not_elem_of_nil in Hx.
  - intros q cell' Hq'.
    destruct (Forall2_lookup_r _ _ _ _ _ (cd_promises _ _ _ _ Hcd) Hq')
      as (cell & Hq & [->|(_ & _ & ?)]); [by eapply Hquiet|done].
Qed.

Lemma take_loop_await fuel st (fr : @take_frame V) nd :
  inv st → quiet st → nodes st !! tf_this fr = Some nd → tf_this fr < fuel →
  (tf_i fr < tf_count fr)%Z →
  ∃ st1, take_loop fuel fr st = Some (tt, st1) ∧ inv st1 ∧
         awaiting (tf_this fr) (length (promises st)) fr st1 ∧
         length (nodes st1) = length (nodes st) ∧
         length (promises st1) = S (length (promises st)) ∧
         results st1 = results st.
Proof.
  intros Hinv [Hq1 Hq2] Hthis Hfuel Hlt. unfold take_loop.
  rewrite (proj2 (Z.ltb_lt _ _) Hlt).
  destruct (next_spec fuel st (tf_this fr) nd Hinv Hthis Hfuel) as (st0 & Hnext & Hinv0 & Hnx).
  destruct Hnx as [N1 N2 N3 N4 N5 N6]. specialize (N2 nd Hthis).
  rewrite (bind_eq _ _ _ _ _ Hnext).
  assert (promises st0 !! length (promises st) = Some (Promise None [])) as Hp.
  { rewrite N1, lookup_app_r; [|done]. by rewrite Nat.sub_diag. }
  unfold await. rewrite Hp. simpl. eexists. split; [done|].
  set (st1 := with_promises _ st0).
  assert (promises st1 = promises st ++ [Promise None [fr]]) as Hps.
  { subst st1. simpl. rewrite N1, insert_app_r_alt; [|done]. by rewrite Nat.sub_diag. }
  split_and!.
  - eapply (inv_gen_ext _ st0); [done| |done]. subst st1. simpl. by rewrite length_insert.
  - split.
    + subst st1. simpl. by rewrite N5.
    + rewrite Hps, lookup_app_r; [|done]. by rewrite Nat.sub_diag.
    + intros q cell Hq. rewrite Hps. intros [?|[? Hc]]%lookup_app_Some; [by eapply Hq2|].
      apply list_lookup_singleton_Some in Hc as [? _]. lia.
    + eexists. split; [exact N2|]. simpl. apply JsSetFacts.elem_of_add. by right.
  - done.
  - rewrite Hps, length_app. simpl. lia.
  - done.
Qed.

Lemma drain_nil steps fuel st : microtasks st = [] → drain steps fuel st = Some (tt, st).
Proof. intros Hq. destruct steps; simpl; by rewrite Hq. Qed.

Lemma drain_one steps fuel st (fr : @take_frame V) v :
  microtasks st = [(fr, v)] →
  drain (S steps) fuel st = (resume fuel fr v;; drain steps fuel) (with_microtasks [] st).
Proof. intros Hq. simpl. rewrite Hq. unfold bind, run_microtask. by rewrite Hq. Qed.

(** The host fires the node with each value in turn and returns to the event
    loop after each firing. *)
Definition rounds (fuel steps : nat) (this : node_id) (vs : list V) : M unit :=
  foldr (λ v k, _notifyListeners fuel this v;; drain steps fuel;; k) (ret tt) vs.

Lemma rounds_spec fuel steps this r : ∀ vs arr i count p st,
  vs ≠ [] →
  i = Z.of_nat (length arr) → count = Z.of_nat (length arr + length vs) →
  inv st → awaiting this p (TakeFrame this arr i count r) st →
  results st !! r = Some None →
  3 * length (nodes st) ≤ fuel →
  ∃ st', rounds fuel (S steps) this vs st = Some (tt, st') ∧
         results st' !! r = Some (Some (arr ++ vs)) ∧
         S (length (promises st')) = length (promises st) + length vs.
Proof.
  induction vs as [|v vs IH]; intros arr i count p st Hne -> -> Hinv Haw Hres Hfuel; [done|].
  pose proof (aw_listener _ _ _ _ Haw) as (nd & Hthis & _).
  destruct (notify_awaiting fuel st this p _ v Hinv Haw Hfuel)
    as (st1 & Hrun1 & Hinv1 & Hlen1 & Hpl1 & Hres1 & Hq1 & Hreact1).
  cbn [rounds foldr]. fold (rounds fuel (S steps) this vs).
  rewrite (bind_eq _ _ _ _ _ Hrun1). unfold bind at 1.
  rewrite (drain_one _ _ _ _ _ Hq1). unfold bind at 1. unfold resume. cbn [tf_this tf_array tf_i tf_count tf_result].
  set (st1' := with_microtasks [] st1).
  set (fr' := TakeFrame this (arr ++ [v]) _ _ r).
  assert (inv st1') as Hinv1' by (by eapply (inv_gen_ext _ st1)).
  assert (quiet st1') as Hquiet1' by (by split).
  destruct vs as [|v' vs].
  - unfold take_loop. subst fr'. simpl.
    rewrite (proj2 (Z.ltb_ge _ _)) by lia.
    unfold resolve_result. simpl. rewrite Hres1, Hres. simpl.
    rewrite drain_nil by done. eexists. split; [done|]. simpl. split.
    + apply list_lookup_insert_eq. by eapply lookup_lt_Some.
    + lia.
  - assert (nodes st1' !! this = Some nd ∨ ∃ nd', nodes st1' !! this = Some nd') as Hthis'.
    { right. apply lookup_lt_is_Some_2. simpl. rewrite Hlen1. by eapply lookup_lt_Some. }
    assert (∃ nd', nodes st1' !! tf_this fr' = Some nd') as [nd' Hnd'].
    { destruct Hthis' as [?|?]; eauto. }
    destruct (take_loop_await fuel st1' fr' nd' Hinv1' Hquiet1' Hnd')
      as (st2 & Hrun2 & Hinv2 & Haw2 & Hlen2 & Hpl2 & Hres2).
    { simpl. apply lookup_lt_Some in Hthis. lia. }
    { subst fr'. simpl. lia. }
    rewrite Hrun2, (drain_nil _ _ _ (aw_tasks _ _ _ _ Haw2)).
    destruct (IH (arr ++ [v]) _ _ (length (promises st1')) st2 ltac:(done)
                eq_refl eq_refl Hinv2) as (st' & Hrun' & Hres' & Hpl').
    + subst fr'. simpl in Haw2.
      replace (Z.of_nat (length (arr ++ [v]))) with (Z.of_nat (length arr) + 1)%Z
        by (rewrite length_app; simpl; lia).
      replace (Z.of_nat (length (arr ++ [v]) + length (v' :: vs)))
        with (Z.of_nat (length arr + length (v :: v' :: vs)))
        by (rewrite length_app; simpl; lia).
      exact Haw2.
    + rewrite Hres2. simpl. by rewrite Hres1.
    + rewrite Hlen2. simpl. by rewrite Hlen1.
    + exists st'. split; [done|]. split.
      * by rewrite <-(assoc_L (++)) in Hres'.
      * rewrite Hpl2 in Hpl'. simpl in *. lia.
Qed.

End Delivery.

(** * The claims *)

Section Claims.

Context {V Sender : Type}.

Local Abbreviation state := (@state V Sender).
Local Abbreviation node := (@node V Sender).
Local Abbreviation event := (@event V Sender).
Local Abbreviation M := (M state).

Implicit Types (st : state) (nd : node) (this n : node_id) (l : listener).

(** C4.  When a node with the listeners [L1 .. LN], in insertion order, is
    notified with [v], the trace grows by the calls [L1(v, sender)], ...,
    [LN(v, sender)] in that order, then by the disconnect hooks a listener of
    [next()] may have set off, and only then by one block per child, in
    insertion order; the deliveries inside the block of a child are the
    depth-first traversal of that child's whole subtree. *)
Theorem C4_delivery_order (fuel : nat) st this nd (Ls : list listener) (v : V) :
  inv st → nodes st !! this = Some nd → JsSet.elements (_listeners nd) = Ls →
  3 * length (nodes st) ≤ fuel →
  ∃ st' dis blocks,
    _notifyListeners fuel this v st = Some (tt, st') ∧
    trace st' = trace st ++ ((λ l, ECall this l v (_sender nd)) <$> Ls) ++
                dis ++ concat blocks ∧
    Forall is_disconnect dis ∧
    Forall2 (λ x b, deliveries b = fire_spec (length (nodes st)) (nodes st) x v)
            (JsSet.elements (_children nd)) blocks.
Proof.
  intros Hinv Hthis <- Hfuel.
  destruct (notifyListeners_spec fuel st this nd v Hinv Hthis Hfuel)
    as (st' & Hrun & _ & Hnot).
  destruct (notified_trace st this nd v st' Hinv Hthis Hnot) as (dis & blocks & ? & ? & ?).
  by exists st', dis, blocks.
Qed.

(** The calls made at [n] during one [_notifyListeners] of its parent. *)
Lemma parent_notified_at (fuel : nat) st p ndp n nd (v : V) :
  inv st → nodes st !! p = Some ndp → nodes st !! n = Some nd → parent_of nd = Some p →
  3 * length (nodes st) ≤ fuel →
  ∃ st' delta,
    _notifyListeners fuel p v st = Some (tt, st') ∧ inv st' ∧
    trace st' = trace st ++ delta ∧
    deliveries delta = notify_spec (fire_spec (length (nodes st)) (nodes st)) p ndp v ∧
    base.filter (at_node n) delta =
      if is_empty nd then [] else own_deliveries n nd v.
Proof.
  intros Hinv Hp Hn Hpar Hfuel.
  destruct (notifyListeners_spec fuel st p ndp v Hinv Hp Hfuel) as (st' & Hrun & Hinv' & Hnot).
  destruct (notified_fired st p ndp v st' Hinv Hp Hnot) as (_ & delta & Ht & Hd).
  exists st', delta. split_and!; [done..|].
  rewrite <-(filter_deliveries (at_node n)) by apply at_node_not_disconnect.
  rewrite Hd.
  assert (length (nodes st) = S (length (nodes st) - 1)) as ->.
  { apply lookup_lt_Some in Hp. lia. }
  rewrite (filter_at_node_parent _ st _ p ndp n nd v Hinv Hp Hn Hpar).
  pose proof (registered_iff st n nd p ndp Hinv Hn Hpar Hp) as Hreg.
  destruct (decide (Some n ∈ _children ndp)) as [Hin|Hout].
  - by rewrite (proj1 Hreg Hin).
  - destruct (is_empty nd); [done|]. destruct Hout. by apply Hreg.
Qed.

(** C5, amended.  Let [F] be built by [filter(pred)] on [P], and let [P] be
    notified with [v].  If [F] has neither listener nor child, it is not
    registered with [P] and [pred] is not evaluated.  Otherwise [pred v] is
    evaluated exactly once, and the listeners of [F] are called with [v], and
    the children of [F] are fired with [v], if and only if [pred v] holds. *)
Theorem C5_filter (fuel : nat) st P ndP F ndF (pred : V → bool) (v : V) :
  inv st → nodes st !! P = Some ndP → nodes st !! F = Some ndF →
  parent_of ndF = Some P → variant_of ndF = FilterEvent pred →
  3 * length (nodes st) ≤ fuel →
  ∃ st' delta,
    _notifyListeners fuel P v st = Some (tt, st') ∧
    trace st' = trace st ++ delta ∧
    base.filter (at_node F) delta =
      (if is_empty ndF then []
       else EPred F v ::
            (if pred v
             then (λ l, ECall F l v (_sender ndF)) <$> JsSet.elements (_listeners ndF)
             else [])) ∧
    ∀ y ndy, Some y ∈ _children ndF → nodes st !! y = Some ndy →
      base.filter (at_node y) delta = if pred v then own_deliveries y ndy v else [].
Proof.
  intros Hinv HP HF Hpar Hvar Hfuel.
  destruct (parent_notified_at fuel st P ndP F ndF v Hinv HP HF Hpar Hfuel)
    as (st' & delta & Hrun & _ & Ht & Hd & Hat).
  exists st', delta. split_and!; [done..| |].
  - rewrite Hat. unfold own_deliveries. by rewrite Hvar.
  - intros y ndy Hy Hndy.
    destruct (child_in_tree _ st F ndF y Hinv HF Hy) as (HFy & Hlt & Hlen).
    destruct (lookup_lt_parent _ _ _ _ _ Hinv HF Hpar) as [HPF _].
    destruct (inv_child _ _ Hinv F ndF y HF Hy) as (ndy' & ? & Hpary & _).
    assert (ndy' = ndy) as -> by congruence.
    assert (Some F ∈ _children ndP) as HFin.
    { eapply registered_iff; [done..|]. apply is_empty_false_iff. right. by exists y. }
    rewrite <-(filter_deliveries (at_node y)) by apply at_node_not_disconnect.
    rewrite Hd.
    rewrite (filter_at_node_block _ st _ P ndP F y v Hinv HP HFin HFy).
    assert (length (nodes st) = S (S (length (nodes st) - 2))) as -> by lia.
    rewrite fire_spec_S, HF, Hvar.
    rewrite filter_cons_False by (simpl; lia).
    destruct (pred v); [|done].
    rewrite (filter_at_node_parent _ st _ F ndF y ndy v Hinv HF Hndy Hpary).
    by rewrite decide_True.
Qed.

(** C6.  Let [N] be built by [map(transform)] on [P].  When [P] is notified
    with [v], the calls to the listeners of [N] are exactly one call per
    listener, in insertion order, each with [transform v]. *)
Theorem C6_map (fuel : nat) st P ndP N ndN (transform : V → V) (v : V) :
  inv st → nodes st !! P = Some ndP → nodes st !! N = Some ndN →
  parent_of ndN = Some P → variant_of ndN = MapEvent transform →
  3 * length (nodes st) ≤ fuel →
  ∃ st' delta,
    _notifyListeners fuel P v st = Some (tt, st') ∧
    trace st' = trace st ++ delta ∧
    base.filter (is_call_at N) delta =
      (λ l, ECall N l (transform v) (_sender ndN)) <$> JsSet.elements (_listeners ndN).
Proof.
  intros Hinv HP HN Hpar Hvar Hfuel.
  destruct (parent_notified_at fuel st P ndP N ndN v Hinv HP HN Hpar Hfuel)
    as (st' & delta & Hrun & _ & Ht & _ & Hat).
  exists st', delta. split_and!; [done..|].
  rewrite <-(filter_filter_sub (is_call_at N) (at_node N)) by apply is_call_at_at_node.
  rewrite Hat. destruct (is_empty ndN) eqn:Hemp.
  - apply is_empty_true_iff in Hemp as [Hemp _].
    destruct (JsSet.elements (_listeners ndN)) as [|l ls] eqn:E; [done|].
    destruct (Hemp l). apply JsSetFacts.elem_of_elements. rewrite E. left.
  - unfold own_deliveries. rewrite Hvar.
    rewrite filter_cons_False by (simpl; tauto). apply filter_is_call_at_calls.
Qed.

(** C7.  In the tree of [r], every node carries the sender of [r]: [filter]
    and [map] copy it into the node they build.  When [r] fires, every call
    to a listener is made by a node of that tree, and its second argument is
    that sender, which is the calling node's own. *)
Theorem C7_sender (fuel : nat) st r ndr (v : V) :
  inv st → nodes st !! r = Some ndr → 3 * length (nodes st) ≤ fuel →
  (∀ n nd, in_tree st r n → nodes st !! n = Some nd → _sender nd = _sender ndr) ∧
  (∀ n nd (derive : M node_id),
     nodes st !! n = Some nd →
     (∃ pred, derive = filter n pred) ∨ (∃ transform, derive = map n transform) →
     ∃ st1, derive st = Some (length (nodes st), st1) ∧
            _sender <$> nodes st1 !! length (nodes st) = Some (_sender nd)) ∧
  ∃ st' delta,
    _trigger fuel r v st = Some (tt, st') ∧
    trace st' = trace st ++ delta ∧
    ∀ n l a s, ECall n l a s ∈ delta →
      in_tree st r n ∧ s = _sender ndr ∧
      ∃ nd, nodes st !! n = Some nd ∧ s = _sender nd.
Proof.
  intros Hinv Hr Hfuel. split_and!.
  - intros n nd Hin Hn. by eapply in_tree_sender.
  - intros n nd derive Hn [[pred ->]|[transform ->]].
    + destruct (filter_spec st n nd pred Hinv Hn) as (st1 & Hrun & _ & ->).
      eexists. split; [done|]. simpl. by rewrite lookup_app_r, Nat.sub_diag by lia.
    + destruct (map_spec st n nd transform Hinv Hn) as (st1 & Hrun & _ & ->).
      eexists. split; [done|]. simpl. by rewrite lookup_app_r, Nat.sub_diag by lia.
  - destruct (trigger_spec fuel st r v Hinv) as (st' & Hrun & _ & _ & delta & Ht & Hd);
      [by eapply lookup_lt_Some|lia|].
    exists st', delta. split_and!; [done..|]. intros n l a s Hin.
    assert (ECall n l a s ∈ deliveries delta) as Hin'.
    { unfold deliveries. apply list_elem_of_filter. split; [by intros []|done]. }
    rewrite Hd in Hin'.
    pose proof (fire_spec_within _ st Hinv (length (nodes st)) r v) as Hall.
    rewrite Forall_forall in Hall. destruct (Hall _ Hin') as (Htree & nd & Hn & -> & _).
    split_and!; [done| |by exists nd]. by eapply in_tree_sender.
Qed.

(** C8.  [next()] returns a pending promise.  The first firing of the node
    afterwards, with [v], fulfils the promise with [v]; it calls the one-shot
    listener once, and the listener is registered on no node when the firing
    returns.  However often the node fires after that, the listener is not
    called again and the promise keeps the value [v]. *)
Theorem C8_next (fuel : nat) st this nd (v : V) (vs : list V) :
  inv st → nodes st !! this = Some nd → 3 * length (nodes st) ≤ fuel →
  ∃ st1 st2 st3 delta delta',
    let p := length (promises st) in
    next fuel this st = Some (p, st1) ∧
    promises st1 !! p = Some (Promise None []) ∧
    _notifyListeners fuel this v st1 = Some (tt, st2) ∧
    promises st2 !! p = Some (Promise (Some v) []) ∧
    trace st2 = trace st1 ++ delta ∧
    base.filter (is_call_to (LNext this p)) delta =
      [ECall this (LNext this p) v (_sender nd)] ∧
    (∀ n ndn, nodes st2 !! n = Some ndn → Some (LNext this p) ∉ _listeners ndn) ∧
    fire_all fuel this vs st2 = Some (tt, st3) ∧
    promises st3 !! p = Some (Promise (Some v) []) ∧
    trace st3 = trace st2 ++ delta' ∧
    base.filter (is_call_to (LNext this p)) delta' = [].
Proof.
  intros Hinv Hthis Hfuel.
  assert (this < length (nodes st)) as Hlt by (by eapply lookup_lt_Some).
  destruct (next_spec fuel st this nd Hinv Hthis) as (st1 & Hnext & Hinv1 & Hnx); [lia|].
  destruct Hnx as [N1 N2 N3 N4 N5 N6]. specialize (N2 nd Hthis).
  set (p := length (promises st)) in *. set (l := LNext this p) in *.
  set (nd1 := with_listeners (JsSet.add l) nd) in *.
  assert (promises st1 !! p = Some (Promise None [])) as Hp1.
  { rewrite N1, lookup_app_r; [|done]. unfold p. by rewrite Nat.sub_diag. }
  assert (Some l ∈ _listeners nd1) as Hl1.
  { simpl. apply JsSetFacts.elem_of_add. by right. }
  destruct (notifyListeners_spec fuel st1 this nd1 v Hinv1 N2) as (st2 & Hrun & Hinv2 & Hnot);
    [lia|].
  destruct (notified_fired st1 this nd1 v st2 Hinv1 N2 Hnot) as (Hfd & delta & Ht & Hd).
  destruct Hnot as (mid & Hinvm & Hld & Hcd).
  assert (promises st2 !! p = Some (Promise (Some v) [])) as Hp2.
  { assert (promises mid !! p = Some (Promise (Some v) [])) as Hpm.
    { rewrite (ld_promises _ _ _ _ Hld nd1 N2), call_states_lookup, Hp1.
      rewrite decide_True; [done|]. eapply elem_of_next_promises.
      by apply JsSetFacts.elem_of_elements. }
    destruct (Forall2_lookup_l _ _ _ _ _ (cd_promises _ _ _ _ Hcd) Hpm)
      as (cell' & Hc' & [->|(? & _)]); done. }
  assert (Habs2 : ∀ n ndn, nodes st2 !! n = Some ndn → Some l ∉ _listeners ndn).
  { intros n ndn Hn Hin. destruct (inv_listener _ _ Hinv2 n ndn this p Hn Hin) as [<- _].
    destruct (ld_self _ _ _ _ Hld nd1 N2) as (ndm & Hm & Hlsm & _).
    pose proof (cd_listeners _ _ _ _ Hcd this) as Hsame.
    rewrite Hn, Hm in Hsame. simpl in Hsame.
    assert (_listeners ndn = _listeners ndm) as Heq.
    { assert (Some (_listeners ndn) = Some (_listeners ndm)) as [= ?]; [|done].
      apply Hsame. intros [_ ?]. done. }
    rewrite Heq, Hlsm in Hin. by apply called_not_next in Hin. }
  destruct (fire_all_after fuel this l p (Promise (Some v) []) vs st2)
    as (st3 & Hrun3 & _ & Hp3 & delta' & Ht3 & Hd3); [done| | |done|done|done|].
  { rewrite (shrinks_length _ _ (fd_shrinks _ _ _ Hfd)). lia. }
  { rewrite (shrinks_length _ _ (fd_shrinks _ _ _ Hfd)). lia. }
  exists st1, st2, st3, delta, delta'. simpl. split_and!; try done.
  rewrite <-(filter_deliveries (is_call_to l)) by apply is_call_to_not_disconnect.
  rewrite Hd. unfold notify_spec. rewrite filter_app.
  rewrite (filter_call_to_calls this v (_sender nd1) l).
  - rewrite filter_concat_nil; [done|].
    intros y Hy%JsSetFacts.elem_of_elements.
    destruct (child_in_tree _ st1 this nd1 y Hinv1 N2 Hy) as (_ & Hty & _).
    eapply filter_call_to_nil; [by eapply fire_spec_within|].
    intros n ndn Htree Hn Hin.
    destruct (inv_listener _ _ Hinv1 n ndn this p Hn Hin) as [<- _].
    apply (in_tree_le _ _ _ _ Hinv1) in Htree. lia.
  - exact (inv_nodup_listeners _ _ Hinv1 this nd1 N2).
  - by apply JsSetFacts.elem_of_elements.
Qed.

(** [take] with a count that is not positive: the loop body never runs. *)
Lemma take_not_positive (fuel : nat) this (count : Z) st :
  (count ≤ 0)%Z →
  take fuel this count st =
  Some (length (results st), with_results (results st ++ [Some []]) st).
Proof.
  intros Hle. unfold take, take_loop, bind, new_result, resolve_result, ret. simpl.
  assert ((0 <? count)%Z = false) as -> by lia. simpl.
  rewrite lookup_app_r; [|lia]. rewrite Nat.sub_diag. cbn.
  do 2 f_equal. unfold with_results; simpl. f_equal.
  rewrite insert_app_r_alt; [|lia]. by rewrite Nat.sub_diag.
Qed.

(** C9.  Let no other [take] be pending.  [take(n)] on a node that then fires
    [n] times, the host returning to the event loop after each firing,
    fulfils its promise with the [n] fired values in order, and it has called
    [next()] exactly [n] times, each call after the previous promise was
    fulfilled: the promise of [take] is pending until the last firing.
    [take(0)] returns a promise already fulfilled with the empty array, and
    changes nothing else: no listener is added and no hook is called. *)
Theorem C9_take (fuel steps : nat) st this nd (vs : list V) :
  inv st → quiet st → nodes st !! this = Some nd → 3 * length (nodes st) ≤ fuel →
  ∃ st1 st2,
    let r := length (results st) in
    take fuel this (Z.of_nat (length vs)) st = Some (r, st1) ∧
    (if vs is [] then st1 = with_results (results st ++ [Some []]) st
     else results st1 !! r = Some None) ∧
    rounds fuel (S steps) this vs st1 = Some (tt, st2) ∧
    results st2 !! r = Some (Some vs) ∧
    length (promises st2) = length (promises st) + length vs.
Proof.
  intros Hinv Hquiet Hthis Hfuel.
  destruct vs as [|v vs].
  - eexists _, _. simpl. rewrite take_not_positive by done. split_and!; try done.
    simpl. rewrite lookup_app_r; [|done]. by rewrite Nat.sub_diag.
  - unfold take, bind at 1, new_result at 1.
    set (st0 := with_results _ st). set (fr := TakeFrame this [] 0 _ _).
    destruct (take_loop_await fuel st0 fr nd) as (st1 & Hrun & Hinv1 & Haw & Hlen & Hpl & Hres);
      [by eapply (inv_gen_ext _ st)|done|done| |subst fr; simpl; lia|].
    { simpl. apply lookup_lt_Some in Hthis. lia. }
    rewrite (bind_eq _ _ _ _ _ Hrun).
    assert (results st1 !! length (results st) = Some None) as Hr.
    { rewrite Hres. simpl. rewrite lookup_app_r; [|done]. by rewrite Nat.sub_diag. }
    destruct (rounds_spec fuel steps this (length (results st)) (v :: vs) [] 0%Z
                (Z.of_nat (length (v :: vs))) (length (promises st)) st1)
      as (st2 & Hrun2 & Hres2 & Hpl2); try done.
    { rewrite Hlen. done. }
    exists st1, st2. simpl in *. split_and!; try done. lia.
Qed.

(** C10.  For every negative [count], [take(count)] returns a promise that is
    already fulfilled with the empty array, exactly as [take(0)] does: no node
    is read or written, no promise of [next()] is created, no hook and no
    listener is called, and the call does not fail. *)
Theorem C10_take_negative (fuel : nat) this (count : Z) st :
  (count < 0)%Z →
  take fuel this count st =
    Some (length (results st), with_results (results st ++ [Some []]) st) ∧
  take fuel this count st = take fuel this 0 st.
Proof.
  intros Hneg. rewrite !take_not_positive by lia. done.
Qed.

End Claims.

(** * Concrete runs

    Event arguments are integers and senders are numbers. *)

Definition positive (x : Z) : bool := (0 <? x)%Z.

Definition double (x : Z) : Z := (x * 2)%Z.

(** [[ev, trigger] = singleEvent(7); f = ev.filter(positive); f.listen(l0)] *)
Definition filtered_listener : M (@state Z nat) unit :=
  ev <- singleEvent 7;;
  f <- filter ev positive;;
  listen 4 f (LExt 0).

(** The combined listener-and-child count of a node. *)
Definition observers (st : @state Z nat) (n : node_id) : option nat :=
  nd ← nodes st !! n; Some (JsSet.size (_listeners nd) + JsSet.size (_children nd)).

(** C1.  The code breaks the claim: [ev.unlisten(l0)] reaches [l0] on the
    filtered child, the child leaves [ev], and [ev]'s count goes from one to
    zero once, yet [ev._disconnect] is called twice: once from
    [removeChild(f)] inside the cascade and once more when the cascade
    returns. *)
Theorem C1_disconnect_twice :
  ∃ st1 st2,
    filtered_listener init = Some (tt, st1) ∧
    observers st1 0 = Some 1 ∧
    unlisten 4 0 (LExt 0) st1 = Some (tt, st2) ∧
    observers st2 0 = Some 0 ∧
    trace st2 = trace st1 ++ [EDisconnect 1; EDisconnect 0; EDisconnect 0].
Proof. do 2 eexists. split_and!; vm_compute; reflexivity. Qed.

(** C2.  The code breaks the claim: on a node without listener or child,
    [unlisten] of a listener that was never added leaves every set as it is
    and raises nothing, but it calls the disconnect hook. *)
Theorem C2_unlisten_absent_disconnects :
  ∃ st1,
    singleEvent (V := Z) 7 init = Some (0, st1) ∧
    trace st1 = [] ∧
    unlisten 2 0 (LExt 0) st1 = Some (tt, with_trace [EDisconnect 0] st1).
Proof. eexists. split_and!; vm_compute; reflexivity. Qed.

(** C3, as stated, fails: after [ev.filter(positive)] on a source without
    listener or child, the new node is not among the children of [ev], and
    the connect hook of [ev] has not been called. *)
Lemma C3_counterexample :
  ∃ st1,
    (ev <- singleEvent 7;; filter ev positive) init = Some (1, st1) ∧
    (_children <$> nodes st1 !! 0) = Some [] ∧
    trace st1 = [].
Proof. eexists. split_and!; vm_compute; reflexivity. Qed.

Lemma C10_witness :
  (-1 < 0)%Z ∧
  take 0 0 (-1) (@init Z nat) = Some (0, with_results [Some []] init) ∧
  take 0 0 (-1) (@init Z nat) = take 0 0 0 init.
Proof. split; [lia|]. apply (C10_take_negative 0 0 (-1) init). lia. Defined.

(** ** A small tree

    [[ev, trigger] = singleEvent(7); f = ev.filter(positive);
      m = ev.map(double); f.listen(l0); m.listen(l1); ev.listen(l2);
      ev.listen(l3)] *)
Definition tree_script : M (@state Z nat) unit :=
  ev <- singleEvent 7;;
  f <- filter ev positive;;
  m <- map ev double;;
  listen 9 f (LExt 0);;
  listen 9 m (LExt 1);;
  listen 9 ev (LExt 2);;
  listen 9 ev (LExt 3).

Definition tree_root : @node Z nat :=
  Node [Some (LExt 2); Some (LExt 3)] [Some 1; Some 2] HExternal HExternal 7
       SingleEventSource.

Definition tree_filter : @node Z nat :=
  Node [Some (LExt 0)] [] (HAddChild 0 1) (HRemoveChild 0 1) 7 (FilterEvent positive).

Definition tree_map : @node Z nat :=
  Node [Some (LExt 1)] [] (HAddChild 0 2) (HRemoveChild 0 2) 7 (MapEvent double).

Definition tree_state : @state Z nat :=
  State [tree_root; tree_filter; tree_map] [] [] []
        [EConnect 1; EConnect 0; EConnect 2].

Lemma tree_state_reached : tree_script init = Some (tt, tree_state).
Proof. vm_compute. reflexivity. Qed.

Lemma tree_state_inv : inv tree_state.
Proof.
  destruct (singleEvent_spec (V := Z) init 7 init_inv) as (st1 & _ & I1 & ->).
  destruct (filter_spec _ 0 _ positive I1 eq_refl) as (st2 & _ & I2 & ->).
  destruct (map_spec _ 0 _ double I2 eq_refl) as (st3 & _ & I3 & ->).
  destruct (listen_spec 9 _ 1 _ (LExt 0) I3 eq_refl) as (st4 & H4 & I4 & _);
    [done|simpl; lia|].
  vm_compute in H4. injection H4 as <-.
  destruct (listen_spec 9 _ 2 _ (LExt 1) I4 eq_refl) as (st5 & H5 & I5 & _);
    [done|simpl; lia|].
  vm_compute in H5. injection H5 as <-.
  destruct (listen_spec 9 _ 0 _ (LExt 2) I5 eq_refl) as (st6 & H6 & I6 & _);
    [done|simpl; lia|].
  vm_compute in H6. injection H6 as <-.
  destruct (listen_spec 9 _ 0 _ (LExt 3) I6 eq_refl) as (st7 & H7 & I7 & _);
    [done|simpl; lia|].
  vm_compute in H7. injection H7 as <-.
  exact I7.
Qed.

Lemma tree_state_quiet : quiet tree_state.
Proof. split; [done|]. intros q cell Hq. simpl in Hq. by destruct q. Qed.

Lemma C4_witness :
  inv tree_state ∧ nodes tree_state !! 0 = Some tree_root ∧
  JsSet.elements (_listeners tree_root) = [LExt 2; LExt 3] ∧
  3 * length (nodes tree_state) ≤ 9 ∧
  ∃ st' dis blocks,
    _notifyListeners 9 0 5%Z tree_state = Some (tt, st') ∧
    trace st' = trace tree_state ++
                ((λ l, ECall 0 l 5%Z 7) <$> [LExt 2; LExt 3]) ++ dis ++ concat blocks ∧
    Forall is_disconnect dis ∧
    Forall2 (λ x b, deliveries b = fire_spec 3 (nodes tree_state) x 5%Z) [1; 2] blocks.
Proof.
  assert (3 * length (nodes tree_state) ≤ 9) as Hfuel by (simpl; lia).
  split_and!; [exact tree_state_inv|reflexivity|reflexivity|exact Hfuel|].
  exact (C4_delivery_order 9 tree_state 0 tree_root [LExt 2; LExt 3] 5%Z
           tree_state_inv eq_refl eq_refl Hfuel).
Defined.

(** C5, as stated, fails: a filtered node without listener or child is not
    among the children of its parent, so that a firing of the parent does not
    evaluate the predicate at all. *)
Lemma C5_counterexample :
  ∃ st1 st2,
    (ev <- singleEvent 7;; filter ev positive) init = Some (1, st1) ∧
    _notifyListeners 6 0 5%Z st1 = Some (tt, st2) ∧
    trace st1 = [] ∧ trace st2 = [].
Proof. do 2 eexists. split_and!; vm_compute; reflexivity. Qed.

Lemma C5_witness :
  inv tree_state ∧ nodes tree_state !! 0 = Some tree_root ∧
  nodes tree_state !! 1 = Some tree_filter ∧ parent_of tree_filter = Some 0 ∧
  variant_of tree_filter = FilterEvent positive ∧
  3 * length (nodes tree_state) ≤ 9 ∧
  ∃ st' delta,
    _notifyListeners 9 0 5%Z tree_state = Some (tt, st') ∧
    trace st' = trace tree_state ++ delta ∧
    base.filter (at_node 1) delta =
      (if is_empty tree_filter then []
       else EPred 1 5%Z ::
            (if positive 5
             then (λ l, ECall 1 l 5%Z (_sender tree_filter)) <$>
                  JsSet.elements (_listeners tree_filter)
             else [])) ∧
    ∀ y ndy, Some y ∈ _children tree_filter → nodes tree_state !! y = Some ndy →
      base.filter (at_node y) delta = if positive 5 then own_deliveries y ndy 5%Z else [].
Proof.
  assert (3 * length (nodes tree_state) ≤ 9) as Hfuel by (simpl; lia).
  split_and!; [exact tree_state_inv|reflexivity..|exact Hfuel|].
  exact (C5_filter 9 tree_state 0 tree_root 1 tree_filter positive 5%Z
           tree_state_inv eq_refl eq_refl eq_refl eq_refl Hfuel).
Defined.

Lemma C6_witness :
  inv tree_state ∧ nodes tree_state !! 0 = Some tree_root ∧
  nodes tree_state !! 2 = Some tree_map ∧ parent_of tree_map = Some 0 ∧
  variant_of tree_map = MapEvent double ∧
  3 * length (nodes tree_state) ≤ 9 ∧
  ∃ st' delta,
    _notifyListeners 9 0 5%Z tree_state = Some (tt, st') ∧
    trace st' = trace tree_state ++ delta ∧
    base.filter (is_call_at 2) delta =
      (λ l, ECall 2 l (double 5) (_sender tree_map)) <$> JsSet.elements (_listeners tree_map).
Proof.
  assert (3 * length (nodes tree_state) ≤ 9) as Hfuel by (simpl; lia).
  split_and!; [exact tree_state_inv|reflexivity..|exact Hfuel|].
  exact (C6_map 9 tree_state 0 tree_root 2 tree_map double 5%Z
           tree_state_inv eq_refl eq_refl eq_refl eq_refl Hfuel).
Defined.

Lemma C7_witness :
  inv tree_state ∧ nodes tree_state !! 0 = Some tree_root ∧
  3 * length (nodes tree_state) ≤ 9 ∧
  ∃ st' delta,
    _trigger 9 0 5%Z tree_state = Some (tt, st') ∧
    trace st' = trace tree_state ++ delta ∧
    ∀ n l a s, ECall n l a s ∈ delta →
      in_tree tree_state 0 n ∧ s = 7 ∧
      ∃ nd, nodes tree_state !! n = Some nd ∧ s = _sender nd.
Proof.
  assert (3 * length (nodes tree_state) ≤ 9) as Hfuel by (simpl; lia).
  split_and!; [exact tree_state_inv|reflexivity|exact Hfuel|].
  exact (proj2 (proj2 (C7_sender 9 tree_state 0 tree_root 5%Z
                         tree_state_inv eq_refl Hfuel))).
Defined.

Lemma C8_witness :
  inv tree_state ∧ nodes tree_state !! 0 = Some tree_root ∧
  3 * length (nodes tree_state) ≤ 9 ∧
  ∃ st1 st2 st3 delta delta',
    next 9 0 tree_state = Some (0, st1) ∧
    promises st1 !! 0 = Some (Promise None []) ∧
    _notifyListeners 9 0 5%Z st1 = Some (tt, st2) ∧
    promises st2 !! 0 = Some (Promise (Some 5%Z) []) ∧
    trace st2 = trace st1 ++ delta ∧
    base.filter (is_call_to (LNext 0 0)) delta = [ECall 0 (LNext 0 0) 5%Z 7] ∧
    (∀ n ndn, nodes st2 !! n = Some ndn → Some (LNext 0 0) ∉ _listeners ndn) ∧
    fire_all 9 0 [6; 7]%Z st2 = Some (tt, st3) ∧
    promises st3 !! 0 = Some (Promise (Some 5%Z) []) ∧
    trace st3 = trace st2 ++ delta' ∧
    base.filter (is_call_to (LNext 0 0)) delta' = [].
Proof.
  assert (3 * length (nodes tree_state) ≤ 9) as Hfuel by (simpl; lia).
  split_and!; [exact tree_state_inv|reflexivity|exact Hfuel|].
  exact (C8_next 9 tree_state 0 tree_root 5%Z [6; 7]%Z tree_state_inv eq_refl Hfuel).
Defined.

Lemma C9_witness :
  inv tree_state ∧ quiet tree_state ∧ nodes tree_state !! 0 = Some tree_root ∧
  3 * length (nodes tree_state) ≤ 9 ∧
  ∃ st1 st2,
    take 9 0 3 tree_state = Some (0, st1) ∧
    results st1 !! 0 = Some None ∧
    rounds 9 1 0 [1; 2; 3]%Z st1 = Some (tt, st2) ∧
    results st2 !! 0 = Some (Some [1; 2; 3]%Z) ∧
    length (promises st2) = 3.
Proof.
  assert (3 * length (nodes tree_state) ≤ 9) as Hfuel by (simpl; lia).
  split_and!; [exact tree_state_inv|exact tree_state_quiet|reflexivity|exact Hfuel|].
  exact (C9_take 9 0 tree_state 0 tree_root [1; 2; 3]%Z
           tree_state_inv tree_state_quiet eq_refl Hfuel).
Defined.

(** * Further properties of the interface *)

Section Interface.

Import JsSetFacts.

Context {V Sender : Type}.

Local Abbreviation state := (@state V Sender).
Local Abbreviation node := (@node V Sender).
Local Abbreviation event := (@event V Sender).
Local Abbreviation M := (M state).

Implicit Types (st : state) (nd : node) (n m p c this : node_id) (l : listener).

(** ** A loop over a set without live entry *)
Lemma for_of_dead {K} (set : node → JsSet.t K) this (body : K → M unit) st nd :
  nodes st !! this = Some nd → (∀ x, Some x ∉ set nd) →
  for_of set this body st = Some (tt, st).
Proof.
  intros Hn Hdead.
  destruct (for_of_rule set this body (λ _ st1, st1 = st) st nd Hn eq_refl)
    as (st' & Hrun & ->); [|done].
  intros j st1 ->. exists nd. split; [done|]. split; [done|].
  intros [x|] Hx; [|done]. destruct (Hdead x). by eapply list_elem_of_lookup_2.
Qed.

(** ** The nodes whose [_connect] runs when [n] gets its first observer:
    [n], then its parent if the parent has neither listener nor child, and so
    on towards the source. *)
Fixpoint connect_chain (d : nat) (ns : list node) (n : node_id) : list node_id :=
  match d with
  | O => []
  | S d =>
      n :: match ns !! n with
           | Some nd =>
               match parent_of nd with
               | Some p =>
                   match ns !! p with
                   | Some ndp => if is_empty ndp then connect_chain d ns p else []
                   | None => []
                   end
               | None => []
               end
           | None => []
           end
  end.

Lemma connect_chain_depth X st : inv_gen X st → ∀ d d' n,
  n < d → n < d' → connect_chain d (nodes st) n = connect_chain d' (nodes st) n.
Proof.
  intros Hinv. induction d as [|d IH]; intros d' n Hd Hd'; [lia|].
  destruct d' as [|d']; [lia|]. simpl. f_equal.
  destruct (nodes st !! n) as [nd|] eqn:Hn; [|done].
  destruct (parent_of nd) as [p|] eqn:Hp; [|done].
  destruct (lookup_lt_parent _ _ _ _ _ Hinv Hn Hp) as [Hlt [ndp Hndp]].
  rewrite Hndp. destruct (is_empty ndp); [|done]. apply IH; lia.
Qed.

Lemma call_connect_trace fuel : ∀ st n nd st',
  inv st → nodes st !! n = Some nd → n < fuel →
  call_connect (call_hook fuel) n st = Some (tt, st') →
  trace st' = trace st ++ (EConnect <$> connect_chain (S n) (nodes st) n).
Proof.
  induction fuel as [|fuel IH]; intros st n nd st' Hinv Hn Hfuel Hrun; [lia|].
  unfold call_connect in Hrun. rewrite (bind_eq _ _ _ _ _ (get_node_eq _ _ _ Hn)) in Hrun.
  unfold bind at 1, log at 1 in Hrun. set (st0 := with_trace _ st) in Hrun.
  assert (inv st0) as Hinv0 by (by eapply (inv_gen_ext _ st)).
  rewrite (hooks_ok_connect n nd) in Hrun by (by eapply inv_hooks).
  cbn [connect_chain]. rewrite Hn.
  destruct (parent_of nd) as [p|] eqn:Hpar.
  - destruct (lookup_lt_parent _ _ _ _ _ Hinv Hn Hpar) as [Hlt [ndp Hp]].
    rewrite Hp. simpl in Hrun. unfold addChild_with in Hrun.
    rewrite (bind_eq _ _ _ _ _ (get_node_eq _ st0 _ Hp)) in Hrun.
    destruct (is_empty ndp) eqn:Hemp; simpl in Hrun.
    + destruct (call_connect_spec fuel st0 p ndp Hinv0 Hp) as (st1 & Hrun1 & _ & _); [lia|].
      rewrite (bind_eq _ _ _ _ _ Hrun1) in Hrun.
      pose proof (IH st0 p ndp st1 Hinv0 Hp ltac:(lia) Hrun1) as Ht1.
      unfold update_node in Hrun. destruct (nodes st1 !! p); [|done].
      simpl in Hrun. injection Hrun as <-.
      change (trace st1 = trace st ++ (EConnect <$> n :: connect_chain n (nodes st) p)).
      rewrite Ht1. change (trace st0) with (trace st ++ [EConnect n]).
      change (nodes st0) with (nodes st). rewrite <-(assoc_L (++)).
      by rewrite (connect_chain_depth _ st Hinv n (S p) p) by lia.
    + unfold bind at 1 in Hrun. simpl in Hrun.
      unfold update_node in Hrun. simpl in Hrun. rewrite Hp in Hrun.
      simpl in Hrun. by injection Hrun as <-.
  - simpl in Hrun. by injection Hrun as <-.
Qed.

Lemma listen_trace fuel st n nd l st' :
  inv st → nodes st !! n = Some nd → n < fuel →
  listen fuel n l st = Some (tt, st') →
  trace st' = trace st ++
    (if is_empty nd then EConnect <$> connect_chain (S n) (nodes st) n else []).
Proof.
  intros Hinv Hn Hfuel Hrun. unfold listen, listen_with in Hrun.
  rewrite (bind_eq _ _ _ _ _ (get_node_eq _ _ _ Hn)) in Hrun.
  destruct (is_empty nd) eqn:Hemp; simpl in Hrun.
  - destruct (call_connect_spec fuel st n nd Hinv Hn Hfuel) as (st1 & Hrun1 & _ & _).
    rewrite (bind_eq _ _ _ _ _ Hrun1) in Hrun.
    unfold update_node in Hrun. destruct (nodes st1 !! n); [|done].
    simpl in Hrun. injection Hrun as <-.
    exact (call_connect_trace fuel st n nd st1 Hinv Hn Hfuel Hrun1).
  - unfold bind at 1 in Hrun. simpl in Hrun. unfold update_node in Hrun.
    rewrite Hn in Hrun. simpl in Hrun. injection Hrun as <-.
    simpl. by rewrite (right_id_L [] (++)).
Qed.

(** ** [unlisten] in general

    [unlisten] deletes the listener from the receiver, visits the children
    one after the other, and calls [_disconnect] when the receiver is left
    without listener and child.  A child that is left without observer
    removes itself from the receiver while the receiver iterates. *)

(** Below a node without observer, no node has one. *)
Lemma descendants_empty X st z ndz m ndm :
  inv_gen X st → nodes st !! z = Some ndz → is_empty ndz = true →
  in_tree st z m → nodes st !! m = Some ndm → is_empty ndm = true.
Proof.
  intros Hinv Hz Hez Hin. revert ndm.
  induction Hin as [|m nd p Hm Hp Hin IH]; intros ndm Hndm; [congruence|].
  assert (nd = ndm) as -> by congruence.
  destruct (is_empty ndm) eqn:E; [done|].
  destruct (inv_registered _ _ Hinv m ndm p Hndm Hp E) as (ndp & Hndp & Hc).
  specialize (IH ndp Hndp). apply is_empty_true_iff in IH as [_ IH]. by destruct (IH m).
Qed.

(** A proper descendant of [r] lies below a node built on [r]. *)
Lemma in_tree_child st r m :
  in_tree st r m → m ≠ r →
  ∃ z ndz, nodes st !! z = Some ndz ∧ parent_of ndz = Some r ∧ in_tree st z m.
Proof.
  induction 1 as [|m nd p Hm Hp Hin IH]; intros Hne; [done|].
  destruct (decide (p = r)) as [->|Hpr].
  - exists m, nd. split_and!; [done..|apply in_tree_self].
  - destruct (IH Hpr) as (z & ndz & ? & ? & ?). exists z, ndz. split_and!; [done..|].
    by eapply in_tree_step.
Qed.

Lemma detached_refl n st : detached n st st.
Proof.
  split; try done.
  - apply shrinks_refl.
  - exists []. by rewrite (right_id_L [] (++)).
Qed.

(** [unlistened_tree n l st st']: [st'] is [st] after [n.unlisten(l)]. *)
Record unlistened_tree (n : node_id) (l : listener) (st st' : state) : Prop := {
  ut_shrinks : shrinks st st';
  ut_in : ∀ m nd, in_tree st n m → nodes st !! m = Some nd →
    ∃ nd', nodes st' !! m = Some nd' ∧ _listeners nd' = JsSet.delete l (_listeners nd);
  ut_out : ∀ m, ¬ in_tree st n m →
    _listeners <$> nodes st' !! m = _listeners <$> nodes st !! m;
  ut_frame : ∀ m, ¬ in_tree st n m → ¬ in_tree st m n → nodes st' !! m = nodes st !! m;
  ut_promises : promises st' = promises st;
  ut_microtasks : microtasks st' = microtasks st;
  ut_trace : ∃ dis, trace st' = trace st ++ dis ∧ Forall is_disconnect dis
}.

(** The loop over the children, after [j] entries: the subtrees of the
    children not yet visited are as before, those of the visited children
    have lost [l]. *)
Definition unlisten_inv (n : node_id) (l : listener) (st : state) (nd : node)
    (j : nat) (st1 : state) : Prop :=
  inv st1 ∧ shrinks st st1 ∧
  (∃ nd1, nodes st1 !! n = Some nd1 ∧
          ∀ k, j ≤ k → _children nd1 !! k = _children nd !! k) ∧
  (∀ z ndz m, nodes st !! z = Some ndz → parent_of ndz = Some n →
     (∀ k, k < j → _children nd !! k ≠ Some (Some z)) → in_tree st z m →
     nodes st1 !! m = nodes st !! m) ∧
  (∀ k x m ndm, k < j → _children nd !! k = Some (Some x) → in_tree st x m →
     nodes st !! m = Some ndm →
     ∃ nd', nodes st1 !! m = Some nd' ∧ _listeners nd' = JsSet.delete l (_listeners ndm)) ∧
  (∀ m, ¬ (in_tree st n m ∧ m ≠ n) →
        _listeners <$> nodes st1 !! m = _listeners <$> nodes st !! m) ∧
  (∀ m, ¬ in_tree st n m → ¬ in_tree st m n → nodes st1 !! m = nodes st !! m) ∧
  promises st1 = promises st ∧ microtasks st1 = microtasks st ∧
  ∃ dis, trace st1 = trace st ++ dis ∧ Forall is_disconnect dis.

Lemma unlisten_inv_step (unl : node_id → M unit) n l st nd j st1 nd1 e :
  inv st → nodes st !! n = Some nd →
  (∀ st1 x, inv st1 → length (nodes st1) = length (nodes st) → n < x →
            x < length (nodes st) →
            ∃ st2, unl x st1 = Some (tt, st2) ∧ inv st2 ∧ unlistened_tree x l st1 st2) →
  unlisten_inv n l st nd j st1 →
  nodes st1 !! n = Some nd1 → _children nd1 !! j = Some e →
  match e with
  | Some x => ∃ st2, unl x st1 = Some (tt, st2) ∧ unlisten_inv n l st nd (S j) st2
  | None => unlisten_inv n l st nd (S j) st1
  end.
Proof.
  intros Hinv Hn Hunl (Hinv1 & Hsh & (nd1' & Hn1 & Hch1) & Hsub & Hdone & Hl & Hf & Hp & Hm &
                       dis & Ht & Hd) Hn1' Hj.
  simplify_eq. rename nd1' into nd1.
  assert (_children nd !! j = Some e) as Hj0 by (by rewrite <-Hch1).
  pose proof (λ r n, in_tree_shrinks st st1 r n (sh_nodes _ _ Hsh)) as Htree.
  pose proof (inv_nodup_children _ _ Hinv n nd Hn) as Hnodup.
  destruct e as [x|].
  - assert (Some x ∈ _children nd1) as Hin by (by eapply list_elem_of_lookup_2).
    assert (Some x ∈ _children nd) as Hin0 by (by eapply list_elem_of_lookup_2).
    destruct (inv_child _ _ Hinv n nd x Hn Hin0) as (ndx0 & Hx0 & Hpx0 & _).
    destruct (child_in_tree _ _ _ _ _ Hinv1 Hn1 Hin) as (Hnx & Hlt & Hlen).
    destruct (Hunl st1 x Hinv1) as (st2 & Hrun & Hinv2 & Hut);
      [by apply shrinks_length|done|by rewrite <-(shrinks_length _ _ Hsh)|].
    destruct Hut as [Hs2 Hin2 Hout2 Hf2 Hp2 Hm2 (dis2 & Ht2 & Hd2)].
    exists st2. split; [done|]. split; [done|]. split; [by eapply shrinks_trans|].
    assert (Hapart : ∀ z ndz m, nodes st !! z = Some ndz → parent_of ndz = Some n →
              z ≠ x → in_tree st z m → ¬ in_tree st1 x m ∧ ¬ in_tree st1 m x).
    { intros z ndz m Hz Hpz Hzx Hzm. rewrite <-!Htree.
      eapply (sibling_subtree_apart _ st n x z); [done..|congruence|done]. }
    assert (Hfresh : ∀ k, k < j → _children nd !! k ≠ Some (Some x)).
    { intros k Hk Hkx. assert (k = j); [|lia].
      by eapply (NoDup_elements_lookup (_children nd)). }
    split_and!.
    + destruct (nodes_shrink_lookup_l _ _ _ _ (sh_nodes _ _ Hs2) Hn1)
        as (nd2 & Hn2 & _ & _ & Hshc).
      exists nd2. split; [done|]. intros k Hk. rewrite <-Hch1 by lia.
      apply shrink_lookup_eq; [done|]. intros y Hy.
      destruct (Forall2_lookup_l _ _ _ _ _ Hshc Hy) as (e' & He' & [->| ->]); [done|].
      exfalso.
      assert (Some y ∈ _children nd1) as Hyin by (by eapply list_elem_of_lookup_2).
      destruct (inv_child _ _ Hinv1 n nd1 y Hn1 Hyin) as (ndy & Hndy & Hpy & [Hney|[]]).
      assert (empty_at st2 y) as (ndy' & Hndy' & Hey).
      { eapply (sh_removed _ _ Hs2 n nd1 nd2 y); [done..|].
        eapply shrink_not_elem_of; [done| |done..].
        exact (inv_nodup_children _ _ Hinv1 n nd1 Hn1). }
      assert (Some y ∈ _children nd) as Hyin0.
      { apply (list_elem_of_lookup_2 _ k). rewrite <-Hch1 by lia. done. }
      destruct (inv_child _ _ Hinv n nd y Hn Hyin0) as (ndy0 & Hndy0 & Hpy0 & _).
      destruct (Hapart y ndy0 y) as [Hn1x Hn2x]; [done..| |apply in_tree_self|].
      { intros ->. assert (k = j); [|lia].
        eapply (NoDup_elements_lookup (_children nd)); [done| |done].
        rewrite <-Hch1 by lia. done. }
      rewrite (Hf2 y Hn1x Hn2x) in Hndy'. congruence.
    + intros z ndz m Hz Hpz Hk Hzm.
      destruct (Hapart z ndz m) as [Hn1x Hn2x]; [done..| |done|].
      { intros ->. apply (Hk j); [lia|done]. }
      rewrite (Hf2 m Hn1x Hn2x). eapply Hsub; [done..| |done].
      intros k Hkj. apply Hk. lia.
    + intros k x' m ndm Hk Hx' Hxm Hndm.
      destruct (decide (k = j)) as [->|Hkj].
      * assert (x' = x) as -> by congruence.
        apply Hin2; [by apply Htree|].
        rewrite (Hsub x ndx0 m); done.
      * assert (Some x' ∈ _children nd) as Hin' by (by eapply list_elem_of_lookup_2).
        destruct (inv_child _ _ Hinv n nd x' Hn Hin') as (ndx' & Hndx' & Hpx' & _).
        destruct (Hapart x' ndx' m) as [Hn1x Hn2x]; [done..| |done|].
        { intros ->. apply Hkj. by eapply (NoDup_elements_lookup (_children nd)). }
        rewrite (Hf2 m Hn1x Hn2x). eapply (Hdone k x'); [lia|done..].
    + intros m Hmn. rewrite Hout2, Hl; [done..|].
      intros Hxm. apply Hmn. apply Htree in Hxm, Hnx. split.
      * by eapply in_tree_trans.
      * intros ->. apply (in_tree_le _ _ _ _ Hinv) in Hxm. lia.
    + intros m Hn1x Hn2x. rewrite Hf2, Hf; [done..| |].
      * intros Hxm. apply Hn1x. apply Htree in Hxm, Hnx. by eapply in_tree_trans.
      * intros Hmx. apply in_tree_inv in Hmx as [->|(ndx' & p' & Hx' & Hp' & Hmx)].
        { apply Hn1x. by apply Htree. }
        assert (ndx' = ndx0 ∨ parent_of ndx' = Some n) as Hpar.
        { destruct (nodes_shrink_lookup_r _ _ _ _ (sh_nodes _ _ Hsh) Hx')
            as (nd0 & Hnd0 & Hns). right.
          rewrite (node_shrinks_parent _ _ Hns). congruence. }
        destruct Hpar as [->|Hpar]; [|].
        -- assert (p' = n) as -> by congruence. apply Hn2x. by apply Htree.
        -- assert (p' = n) as -> by congruence. apply Hn2x. by apply Htree.
    + congruence.
    + congruence.
    + exists (dis ++ dis2). rewrite Ht2, Ht, (assoc_L (++)). split; [done|].
      by apply Forall_app.
  - split; [done|]. split; [done|]. split_and!; try done.
    + exists nd1. split; [done|]. intros k Hk. apply Hch1. lia.
    + intros z ndz m Hz Hpz Hk. eapply Hsub; [done..|]. intros k Hkj. apply Hk. lia.
    + intros k x m ndm Hk Hx. eapply Hdone; [|done].
      destruct (decide (k = j)) as [->|]; [congruence|lia].
    + eauto.
Qed.

(** [n.unlisten(l)] returns, given twice as much fuel as there are nodes,
    restores the invariant, and has deleted [l] from the subtree of [n]. *)
Lemma unlisten_spec fuel : ∀ st n nd l,
  inv st → nodes st !! n = Some nd → 2 * length (nodes st) ≤ fuel + n →
  ∃ st', unlisten fuel n l st = Some (tt, st') ∧ inv st' ∧ unlistened_tree n l st st'.
Proof.
  induction fuel as [|fuel IH]; intros st n nd l Hinv Hn Hfuel.
  { apply lookup_lt_Some in Hn. lia. }
  assert (n < length (nodes st)) as Hlt by (by eapply lookup_lt_Some).
  simpl. rewrite (bind_eq _ _ _ _ _ (update_node_eq _ _ _ _ Hn)).
  set (nd1 := with_listeners (JsSet.delete l) nd).
  set (st1 := with_nodes _ st).
  assert (nodes st1 !! n = Some nd1) as Hn1.
  { subst st1. simpl. by apply list_lookup_insert_eq. }
  assert (inv_gen (λ m, m = n ∧ is_empty nd1 = true) st1) as Hinv1.
  { eapply inv_gen_mono; [|by eapply (delete_listener_inv _ st st1 n nd l)].
    intros m [[]|?]; done. }
  assert (Hother : ∀ m, m ≠ n → nodes st1 !! m = nodes st !! m).
  { intros m Hm. subst st1. simpl. by rewrite list_lookup_insert_ne. }
  assert (shrinks st st1) as Hsh1 by (by apply delete_listener_shrinks).
  pose proof (λ r n, in_tree_shrinks st st1 r n (sh_nodes _ _ Hsh1)) as Htree1.
  (* the loop over the children *)
  assert (∃ st2, for_of _children n (λ child, unlisten fuel child l) st1 = Some (tt, st2) ∧
            inv_gen (λ m, m = n ∧ is_empty nd1 = true) st2 ∧ shrinks st1 st2 ∧
            (∀ m ndm, in_tree st1 n m → m ≠ n → nodes st1 !! m = Some ndm →
               ∃ nd', nodes st2 !! m = Some nd' ∧
                      _listeners nd' = JsSet.delete l (_listeners ndm)) ∧
            (∀ m, ¬ (in_tree st1 n m ∧ m ≠ n) →
               _listeners <$> nodes st2 !! m = _listeners <$> nodes st1 !! m) ∧
            (∀ m, ¬ in_tree st1 n m → ¬ in_tree st1 m n → nodes st2 !! m = nodes st1 !! m) ∧
            promises st2 = promises st1 ∧ microtasks st2 = microtasks st1 ∧
            ∃ dis, trace st2 = trace st1 ++ dis ∧ Forall is_disconnect dis)
    as (st2 & Hloop & Hinv2 & Hsh2 & Hin2 & Hl2 & Hf2 & Hp2 & Hm2 & dis2 & Ht2 & Hd2).
  { assert (Hbelow : ∀ z ndz m ndm, nodes st1 !! z = Some ndz → parent_of ndz = Some n →
              Some z ∉ _children nd1 → in_tree st1 z m → nodes st1 !! m = Some ndm →
              JsSet.delete l (_listeners ndm) = _listeners ndm).
    { intros z ndz m ndm Hz Hpz Hout Hzm Hm.
      assert (is_empty ndz = true) as Hez.
      { destruct (is_empty ndz) eqn:E; [done|].
        destruct (inv_registered _ _ Hinv1 z ndz n Hz Hpz E) as (nd' & ? & ?).
        by simplify_eq. }
      pose proof (descendants_empty _ _ _ _ _ _ Hinv1 Hz Hez Hzm Hm) as Hem.
      apply is_empty_true_iff in Hem as [Hem _]. by apply delete_absent. }
    destruct (is_empty nd1) eqn:Hemp1.
    - exists st1. split.
      { eapply for_of_dead; [done|]. by apply is_empty_true_iff in Hemp1 as [_ ?]. }
      split; [done|]. split; [apply shrinks_refl|]. split_and!; try done.
      + intros m ndm Hnm Hne Hm. exists ndm. split; [done|].
        destruct (in_tree_child _ _ _ Hnm Hne) as (z & ndz & Hz & Hpz & Hzm).
        symmetry. eapply (Hbelow z ndz m ndm); try done.
        by apply is_empty_true_iff in Hemp1 as [_ ?].
      + exists []. by rewrite (right_id_L [] (++)).
    - assert (inv st1) as Hinv1'.
      { eapply inv_gen_mono; [|done]. intros m [_ ?]. done. }
      destruct (for_of_rule _children n (λ child, unlisten fuel child l)
                  (unlisten_inv n l st1 nd1) st1 nd1 Hn1) as (st2 & Hrun & HI).
      { split; [done|]. split; [apply shrinks_refl|]. split_and!; try done.
        - by exists nd1.
        - intros k x m ndm Hk. lia.
        - exists []. by rewrite (right_id_L [] (++)). }
      { intros j st' HI.
        pose proof HI as (_ & Hsh & (nd' & Hn' & _) & _).
        destruct (nodes_shrink_lookup_l _ _ _ _ (sh_nodes _ _ Hsh) Hn1)
          as (nd'' & ? & _ & _ & Hshc). simplify_eq.
        exists nd'. split; [done|]. split; [by apply shrink_length|].
        intros e He. eapply (unlisten_inv_step (λ child, unlisten fuel child l));
          [exact Hinv1'|exact Hn1| |done..].
        intros st0 x Hinv0 Hlen Hnx Hx.
        destruct (lookup_lt_is_Some_2 (nodes st0) x) as [ndx Hndx]; [lia|].
        apply (IH st0 x ndx l Hinv0 Hndx).
        rewrite Hlen. subst st1. simpl. rewrite length_insert. lia. }
      exists st2. split; [done|].
      destruct HI as (Hinv2 & Hsh & _ & Hsub & Hdone & Hl & Hf & Hp & Hm & Ht).
      split; [eapply inv_gen_mono; [|done]; done|]. split; [done|]. split_and!; try done.
      intros m ndm Hnm Hne Hm'.
      destruct (in_tree_child _ _ _ Hnm Hne) as (z & ndz & Hz & Hpz & Hzm).
      destruct (decide (Some z ∈ _children nd1)) as [Hzin|Hzout].
      + apply list_elem_of_lookup_1 in Hzin as [k Hk].
        eapply (Hdone k z m ndm); [by eapply lookup_lt_Some|done..].
      + exists ndm. split.
        * rewrite <-Hm'. eapply (Hsub z ndz m); [done..| |done].
          intros k _ Hk. apply Hzout. by eapply list_elem_of_lookup_2.
        * symmetry. by eapply (Hbelow z ndz m ndm). }
  rewrite (bind_eq _ _ _ _ _ Hloop).
  destruct (nodes_shrink_lookup_l _ _ _ _ (sh_nodes _ _ Hsh2) Hn1) as (nd2 & Hn2 & Hns2).
  rewrite (bind_eq _ _ _ _ _ (get_node_eq _ _ _ Hn2)).
  pose proof (λ r n, in_tree_shrinks st1 st2 r n (sh_nodes _ _ Hsh2)) as Htree2.
  (* the call of [_disconnect] *)
  assert (∃ st', when (is_empty nd2) (call_disconnect (call_hook fuel) n) st2 = Some (tt, st') ∧
            inv st' ∧ detached n st2 st') as (st' & Hrun & Hinv' & Hdet).
  { destruct (is_empty nd2) eqn:Hemp2; simpl.
    - eapply (call_disconnect_spec fuel (λ _, False) st2 n nd2); [|done|done|].
      + eapply inv_gen_mono; [|done]. intros m [-> _]. by right.
      + lia.
    - exists st2. split; [done|]. split; [|apply detached_refl].
      eapply inv_gen_mono; [|done]. intros m [_ He1].
      apply (node_shrinks_empty _ _ Hns2) in He1. congruence. }
  exists st'. split; [done|]. split; [done|].
  destruct Hdet as [Hs3 Hl3 Hf3 Hp3 Hm3 (dis3 & Ht3 & Hd3)].
  split.
  - eapply shrinks_trans; [done|]. by eapply shrinks_trans.
  - intros m ndm Hnm Hm'. destruct (decide (m = n)) as [->|Hne].
    + assert (ndm = nd) as -> by congruence.
      exists nd2. split.
      * rewrite Hf3; [done|]. intros [_ ?]. done.
      * assert (_listeners <$> nodes st2 !! n = _listeners <$> nodes st1 !! n) as Hls.
        { apply Hl2. intros [_ ?]. done. }
        rewrite Hn2, Hn1 in Hls. simpl in Hls. by injection Hls.
    + destruct (Hin2 m ndm) as (nd' & Hnd' & Hls); [by apply Htree1|done|by rewrite Hother|].
      specialize (Hl3 m). rewrite Hnd' in Hl3.
      destruct (nodes st' !! m) as [nd3|]; [|done]. simpl in Hl3.
      exists nd3. split; [done|]. congruence.
  - intros m Hnm. assert (m ≠ n) by (intros ->; apply Hnm, in_tree_self).
    rewrite Hl3, Hl2, Hother; [done..|]. intros [Hnm' _]. by apply Hnm, Htree1.
  - intros m Hnm Hmn. assert (m ≠ n) by (intros ->; apply Hnm, in_tree_self).
    rewrite Hf3, Hf2, Hother; [done|done|by rewrite <-Htree1..|].
    intros [Hmn' _]. by apply Hmn, Htree1, Htree2.
  - by rewrite Hp3, Hp2.
  - by rewrite Hm3, Hm2.
  - exists (dis2 ++ dis3). rewrite Ht3, Ht2, (assoc_L (++)). split; [done|].
    by apply Forall_app.
Qed.

(** ** [listen] *)

(** A listener that is already registered on the node: [listen] calls no hook
    and [Set.add] finds the entry, so that nothing changes at all. *)
Theorem listen_registered_noop (fuel : nat) st n nd l :
  nodes st !! n = Some nd → Some l ∈ _listeners nd →
  listen fuel n l st = Some (tt, st).
Proof.
  intros Hn Hl. unfold listen, listen_with.
  rewrite (bind_eq _ _ _ _ _ (get_node_eq _ _ _ Hn)).
  assert (is_empty nd = false) as -> by (apply is_empty_false_iff; eauto).
  unfold bind at 1; simpl. rewrite (update_node_eq _ _ _ _ Hn).
  do 2 f_equal. apply with_nodes_id. rewrite with_listeners_id.
  - by apply list_insert_id.
  - unfold JsSet.add. by rewrite decide_True.
Qed.

(** [listen] on a node that has a listener or a child calls no hook.  On a
    node that has neither, it calls the [_connect] of the node, then that of
    the parent if the parent had no listener and no child, and so on up to
    the first ancestor that already had one, or to the source; nothing
    else. *)
Theorem listen_connect_chain (fuel : nat) st n nd (k : nat) :
  inv st → nodes st !! n = Some nd → n < fuel →
  ∃ st', listen fuel n (LExt k) st = Some (tt, st') ∧
    trace st' = trace st ++
      (if is_empty nd then EConnect <$> connect_chain (S n) (nodes st) n else []).
Proof.
  intros Hinv Hn Hfuel.
  destruct (listen_spec fuel st n nd (LExt k) Hinv Hn) as (st' & Hrun & _ & _);
    [done|done|].
  exists st'. split; [done|]. by eapply listen_trace.
Qed.

(** ** [unlisten] *)

(** On a node that has a listener or a child, [unlisten] of a listener that
    is registered nowhere in the subtree changes nothing and calls no hook. *)
Theorem unlisten_absent_noop (fuel : nat) st n nd l :
  inv st → nodes st !! n = Some nd → is_empty nd = false →
  (∀ m ndm, in_tree st n m → nodes st !! m = Some ndm → Some l ∉ _listeners ndm) →
  length (nodes st) ≤ fuel →
  unlisten fuel n l st = Some (tt, st).
Proof.
  intros Hinv Hn Hne Habs Hfuel.
  eapply (unlisten_absent fuel (λ _, False)); [done..| |done|lia]. auto.
Qed.

(** [n.unlisten(l)] returns; afterwards [l] is registered on no node of the
    subtree of [n], every other listener is where it was, in the same order,
    and the nodes outside the subtree have the listeners they had.  The only
    calls that leave the library are calls of [_disconnect] hooks; no promise
    and no queued continuation is touched. *)
Theorem unlisten_removes (fuel : nat) st n nd l :
  inv st → nodes st !! n = Some nd → 2 * length (nodes st) ≤ fuel →
  ∃ st' dis,
    unlisten fuel n l st = Some (tt, st') ∧
    (∀ m ndm, in_tree st n m → nodes st !! m = Some ndm →
       ∃ ndm', nodes st' !! m = Some ndm' ∧
         JsSet.elements (_listeners ndm') =
           base.filter (λ l', l' ≠ l) (JsSet.elements (_listeners ndm))) ∧
    (∀ m, ¬ in_tree st n m →
       _listeners <$> nodes st' !! m = _listeners <$> nodes st !! m) ∧
    trace st' = trace st ++ dis ∧ Forall is_disconnect dis ∧
    promises st' = promises st ∧ results st' = results st ∧
    microtasks st' = microtasks st.
Proof.
  intros Hinv Hn Hfuel.
  destruct (unlisten_spec fuel st n nd l Hinv Hn) as (st' & Hrun & _ & Hut); [lia|].
  destruct Hut as [Hs Hin Hout _ Hp Hm (dis & Ht & Hd)].
  exists st', dis. split_and!; try done.
  - intros m ndm Hnm Hndm. destruct (Hin m ndm Hnm Hndm) as (ndm' & Hndm' & Hls).
    exists ndm'. split; [done|]. by rewrite Hls, elements_delete.
  - exact (sh_results _ _ Hs).
Qed.

(** After [n.unlisten(l)], a firing of [n] does not call [l], whatever the
    value and on whichever node of the subtree [l] was registered. *)
Theorem unlisten_then_fire_silent (fuel : nat) st n nd l (v : V) :
  inv st → nodes st !! n = Some nd → 3 * length (nodes st) ≤ fuel →
  ∃ st1 st2 delta,
    unlisten fuel n l st = Some (tt, st1) ∧
    _trigger fuel n v st1 = Some (tt, st2) ∧
    trace st2 = trace st1 ++ delta ∧
    ∀ m a s, ECall m l a s ∉ delta.
Proof.
  intros Hinv Hn Hfuel.
  assert (n < length (nodes st)) as Hlt by (by eapply lookup_lt_Some).
  destruct (unlisten_spec fuel st n nd l Hinv Hn) as (st1 & Hrun & Hinv1 & Hut); [lia|].
  destruct Hut as [Hs Hin _ _ _ _ _].
  pose proof (shrinks_length _ _ Hs) as Hlen.
  destruct (trigger_spec fuel st1 n v Hinv1) as (st2 & Hrun2 & _ & _ & delta & Ht & Hd);
    [lia|lia|].
  exists st1, st2, delta. split_and!; try done.
  intros m a s Hcall.
  assert (ECall m l a s ∈ base.filter (is_call_to l) delta) as Hf.
  { apply list_elem_of_filter. split; [done|done]. }
  rewrite <-(filter_deliveries (is_call_to l)) in Hf by apply is_call_to_not_disconnect.
  rewrite Hd in Hf. rewrite (filter_call_to_nil st1 n l) in Hf.
  - by apply not_elem_of_nil in Hf.
  - by eapply fire_spec_within.
  - intros m' ndm' Hnm' Hm' Hl.
    destruct (nodes_shrink_lookup_r _ _ _ _ (sh_nodes _ _ Hs) Hm') as (ndm & Hm0 & _).
    destruct (Hin m' ndm) as (nd'' & Hnd'' & Hls);
      [by apply (in_tree_shrinks st st1 n m' (sh_nodes _ _ Hs))|done|].
    assert (nd'' = ndm') as -> by congruence.
    rewrite Hls in Hl. apply elem_of_delete in Hl as [_ ?]. done.
Qed.

(** ** Firing *)

(** The trigger of a source that has no listener and no child does nothing. *)
Theorem trigger_unobserved (fuel : nat) st n nd (v : V) :
  nodes st !! n = Some nd → variant_of nd = SingleEventSource → is_empty nd = true →
  _trigger (S fuel) n v st = Some (tt, st).
Proof.
  intros Hn Hvar [Hls Hcs]%is_empty_true_iff. simpl.
  rewrite (bind_eq _ _ _ _ _ (get_node_eq _ _ _ Hn)), Hvar.
  unfold _notifyListeners_with.
  rewrite (bind_eq _ _ _ _ st (for_of_dead _listeners n _ st nd Hn Hls)).
  by apply (for_of_dead _children n _ st nd Hn).
Qed.

(** A firing returns; it only removes: it calls no [_connect] hook, it adds
    no listener and no child to any node, it allocates no promise, and it
    fulfils no promise of [take]. *)
Theorem fire_only_removes (fuel : nat) st n nd (v : V) :
  inv st → nodes st !! n = Some nd → 3 * length (nodes st) ≤ fuel →
  ∃ st' delta,
    _trigger fuel n v st = Some (tt, st') ∧
    trace st' = trace st ++ delta ∧
    (∀ m, EConnect m ∉ delta) ∧
    (∀ m ndm', nodes st' !! m = Some ndm' →
       ∃ ndm, nodes st !! m = Some ndm ∧
         (∀ l, Some l ∈ _listeners ndm' → Some l ∈ _listeners ndm) ∧
         (∀ c, Some c ∈ _children ndm' → Some c ∈ _children ndm)) ∧
    length (promises st') = length (promises st) ∧
    results st' = results st.
Proof.
  intros Hinv Hn Hfuel.
  assert (n < length (nodes st)) as Hlt by (by eapply lookup_lt_Some).
  destruct (trigger_spec fuel st n v Hinv) as (st' & Hrun & _ & Hfd & delta & Ht & Hd);
    [lia|lia|].
  pose proof (fd_shrinks _ _ _ Hfd) as Hs.
  exists st', delta. split_and!; try done.
  - intros m Hc.
    assert (EConnect m ∈ deliveries delta) as Hin.
    { apply list_elem_of_filter. split; [|done]. simpl. tauto. }
    rewrite Hd in Hin.
    pose proof (fire_spec_within _ st Hinv (length (nodes st)) n v) as Hall.
    rewrite Forall_forall in Hall. exact (Hall _ Hin).
  - intros m ndm' Hm'.
    destruct (nodes_shrink_lookup_r _ _ _ _ (sh_nodes _ _ Hs) Hm') as (ndm & Hm0 & _ & Hl & Hc).
    exists ndm. split; [done|]. split; intros x; by apply shrink_elem_of.
  - exact (sh_promises _ _ Hs).
  - exact (sh_results _ _ Hs).
Qed.

(** ** [next] *)

(** Two calls of [next()] before the node fires: the firing fulfils both
    promises with the same value. *)
Theorem next_twice (fuel : nat) st this nd (v : V) :
  inv st → nodes st !! this = Some nd → 3 * length (nodes st) ≤ fuel →
  ∃ st1 st2 st3,
    let p := length (promises st) in
    next fuel this st = Some (p, st1) ∧
    next fuel this st1 = Some (S p, st2) ∧
    _notifyListeners fuel this v st2 = Some (tt, st3) ∧
    promises st3 !! p = Some (Promise (Some v) []) ∧
    promises st3 !! S p = Some (Promise (Some v) []).
Proof.
  intros Hinv Hthis Hfuel.
  assert (this < length (nodes st)) as Hlt by (by eapply lookup_lt_Some).
  destruct (next_spec fuel st this nd Hinv Hthis) as (st1 & Hnext1 & Hinv1 & Hnx1); [lia|].
  destruct Hnx1 as [N1 N2 N3 _ _ _]. specialize (N2 nd Hthis).
  set (p := length (promises st)) in *.
  set (nd1 := with_listeners (JsSet.add (LNext this p)) nd) in *.
  destruct (next_spec fuel st1 this nd1 Hinv1 N2) as (st2 & Hnext2 & Hinv2 & Hnx2); [lia|].
  destruct Hnx2 as [M1 M2 M3 _ _ _]. specialize (M2 nd1 N2).
  assert (length (promises st1) = S p) as Hlen1.
  { rewrite N1, length_app. simpl. unfold p. lia. }
  rewrite Hlen1 in Hnext2, M2.
  set (nd2 := with_listeners (JsSet.add (LNext this (S p))) nd1) in *.
  assert (promises st2 = promises st ++ [Promise None []; Promise None []]) as Hps.
  { rewrite M1, N1, <-(assoc_L (++)). done. }
  assert (promises st2 !! p = Some (Promise None [])) as Hp.
  { rewrite Hps, lookup_app_r; [|done]. unfold p. by rewrite Nat.sub_diag. }
  assert (promises st2 !! S p = Some (Promise None [])) as Hp'.
  { rewrite Hps, lookup_app_r; [|unfold p; lia].
    unfold p. by replace (S (length (promises st)) - length (promises st)) with 1 by lia. }
  destruct (notifyListeners_spec fuel st2 this nd2 v Hinv2 M2) as (st3 & Hrun & _ & Hnot);
    [lia|].
  destruct Hnot as (mid & _ & Hld & Hcd).
  assert (Hful : ∀ q, Some (LNext this q) ∈ _listeners nd2 →
            promises st2 !! q = Some (Promise None []) →
            promises st3 !! q = Some (Promise (Some v) [])).
  { intros q Hq Hcell.
    assert (promises mid !! q = Some (Promise (Some v) [])) as Hpm.
    { rewrite (ld_promises _ _ _ _ Hld nd2 M2), call_states_lookup, Hcell.
      rewrite decide_True; [done|]. eapply elem_of_next_promises.
      by apply elem_of_elements. }
    destruct (Forall2_lookup_l _ _ _ _ _ (cd_promises _ _ _ _ Hcd) Hpm)
      as (cell' & Hc' & [->|(? & _)]); done. }
  exists st1, st2, st3. simpl. split_and!; try done.
  - apply Hful; [|done]. simpl. apply elem_of_add. left. apply elem_of_add. by right.
  - apply Hful; [|done]. simpl. apply elem_of_add. by right.
Qed.

(** ** Chains of [filter] and [map] *)

(** The argument with which a node that is fired with [a] notifies its
    listeners and its children, if it notifies them (the three [_trigger]
    bodies). *)
Definition passes (nd : node) (a : V) : option V :=
  match variant_of nd with
  | SingleEventSource => Some a
  | FilterEvent pred => if pred a then Some a else None
  | MapEvent transform => Some (transform a)
  end.

(** The same along a path of nodes. *)
Fixpoint through (ns : list node) (path : list node_id) (a : V) : option V :=
  match path with
  | [] => Some a
  | x :: path => nd ← ns !! x; b ← passes nd a; through ns path b
  end.

(** [is_chain ns p path]: the first node of [path] was built on [p], and
    every further node on the one before it. *)
Fixpoint is_chain (ns : list node) (p : node_id) (path : list node_id) : Prop :=
  match path with
  | [] => True
  | x :: path => (∃ nd, ns !! x = Some nd ∧ parent_of nd = Some p) ∧ is_chain ns x path
  end.

Lemma is_chain_in_tree st x rest y :
  is_chain (nodes st) x rest → last (x :: rest) = Some y → in_tree st x y.
Proof.
  revert x. induction rest as [|x' rest IH]; intros x Hch Hlast.
  - simpl in Hlast. injection Hlast as ->. apply in_tree_self.
  - destruct Hch as [(nd' & Hx' & Hp') Hch]. rewrite last_cons_cons in Hlast.
    eapply in_tree_trans; [|by apply IH].
    eapply in_tree_step; [done..|apply in_tree_self].
Qed.

Lemma filter_is_call_at_notify X st d n nd a :
  inv_gen X st → nodes st !! n = Some nd →
  base.filter (is_call_at n) (notify_spec (fire_spec d (nodes st)) n nd a) =
  (λ l, ECall n l a (_sender nd)) <$> JsSet.elements (_listeners nd).
Proof.
  intros Hinv Hn.
  rewrite <-(filter_filter_sub (is_call_at n) (at_node n)) by apply is_call_at_at_node.
  rewrite (filter_at_node_notify _ st d n nd a Hinv Hn). apply filter_is_call_at_calls.
Qed.

(** No call is made at a node that has no listener. *)
Lemma filter_is_call_at_nil st x y ndy (tr : list event) :
  Forall (delivered_in st x) tr → nodes st !! y = Some ndy →
  (∀ l, Some l ∉ _listeners ndy) → base.filter (is_call_at y) tr = [].
Proof.
  intros Htr Hy Hnone. induction Htr as [|e tr He _ IH]; [done|].
  rewrite filter_cons_False; [done|].
  intros Hat. destruct e as [| |m l' a s| |]; simpl in *; try done; subst.
  destruct He as (_ & nd' & Hnd' & _ & Hl). simplify_eq. by apply (Hnone l').
Qed.

Lemma fire_spec_calls st y ndy :
  inv st → nodes st !! y = Some ndy → is_empty ndy = false →
  ∀ rest x ndx a d,
    nodes st !! x = Some ndx → is_chain (nodes st) x rest → last (x :: rest) = Some y →
    length (nodes st) ≤ d + x →
    base.filter (is_call_at y) (fire_spec d (nodes st) x a) =
    match through (nodes st) (x :: rest) a with
    | Some w => (λ l, ECall y l w (_sender ndy)) <$> JsSet.elements (_listeners ndy)
    | None => []
    end.
Proof.
  intros Hinv Hy Hney.
  induction rest as [|x' rest IH]; intros x ndx a d Hx Hch Hlast Hd.
  - simpl in Hlast. injection Hlast as ->. assert (ndx = ndy) as -> by congruence.
    destruct d as [|d]; [apply lookup_lt_Some in Hy; lia|].
    rewrite fire_spec_S, Hy. cbn [through]. rewrite Hy. simpl. unfold passes.
    destruct (variant_of ndy) as [|pred|transform]; simpl.
    + by eapply filter_is_call_at_notify.
    + rewrite filter_cons_False by (by intros ?).
      destruct (pred a); [by eapply filter_is_call_at_notify|done].
    + rewrite filter_cons_False by (by intros ?). by eapply filter_is_call_at_notify.
  - destruct Hch as [(ndx' & Hx' & Hp') Hch]. rewrite last_cons_cons in Hlast.
    pose proof (is_chain_in_tree st x' rest y Hch Hlast) as Hx'y.
    destruct (lookup_lt_parent _ _ _ _ _ Hinv Hx' Hp') as [Hlt _].
    assert (Some x' ∈ _children ndx) as Hreg.
    { destruct (is_empty ndx') eqn:E.
      - by rewrite (descendants_empty _ _ _ _ _ _ Hinv Hx' E Hx'y Hy) in Hney.
      - destruct (inv_registered _ _ Hinv x' ndx' x Hx' Hp' E) as (nd' & ? & ?).
        by simplify_eq. }
    destruct d as [|d]; [apply lookup_lt_Some in Hx; lia|].
    assert (Hblock : ∀ b,
      base.filter (is_call_at y) (notify_spec (fire_spec d (nodes st)) x ndx b) =
      match through (nodes st) (x' :: rest) b with
      | Some w => (λ l, ECall y l w (_sender ndy)) <$> JsSet.elements (_listeners ndy)
      | None => []
      end).
    { intros b.
      rewrite <-(filter_filter_sub (is_call_at y) (at_node y)) by apply is_call_at_at_node.
      rewrite (filter_at_node_block _ st d x ndx x' y b Hinv Hx Hreg Hx'y).
      rewrite (filter_filter_sub (is_call_at y) (at_node y)) by apply is_call_at_at_node.
      apply (IH x' ndx' b d); [done..|lia]. }
    rewrite fire_spec_S, Hx.
    change (through (nodes st) (x :: x' :: rest) a)
      with (nd ← nodes st !! x; b ← passes nd a; through (nodes st) (x' :: rest) b).
    rewrite Hx. simpl. unfold passes.
    destruct (variant_of ndx) as [|pred|transform]; simpl.
    + apply Hblock.
    + rewrite filter_cons_False by (by intros ?). destruct (pred a); [apply Hblock|done].
    + rewrite filter_cons_False by (by intros ?). apply Hblock.
Qed.

(** A listener at the end of a chain of [filter] and [map] calls is called
    with the value the transforms of the chain make of the fired one, composed
    in the order of the chain, when every predicate of the chain accepts the
    value that reaches it, and is not called otherwise. *)
Theorem chain_delivers (fuel : nat) st x ndx (rest : list node_id) y ndy (v : V) :
  inv st → nodes st !! x = Some ndx →
  is_chain (nodes st) x rest → last (x :: rest) = Some y → nodes st !! y = Some ndy →
  3 * length (nodes st) ≤ fuel →
  ∃ st' delta,
    _trigger fuel x v st = Some (tt, st') ∧
    trace st' = trace st ++ delta ∧
    base.filter (is_call_at y) delta =
      match through (nodes st) (x :: rest) v with
      | Some w => (λ l, ECall y l w (_sender ndy)) <$> JsSet.elements (_listeners ndy)
      | None => []
      end.
Proof.
  intros Hinv Hx Hch Hlast Hy Hfuel.
  assert (x < length (nodes st)) as Hlt by (by eapply lookup_lt_Some).
  destruct (trigger_spec fuel st x v Hinv) as (st' & Hrun & _ & _ & delta & Ht & Hd);
    [lia|lia|].
  exists st', delta. split_and!; try done.
  rewrite <-(filter_deliveries (is_call_at y))
    by (intros e He; by apply (at_node_not_disconnect y), is_call_at_at_node).
  rewrite Hd. destruct (is_empty ndy) eqn:Hemp.
  - apply is_empty_true_iff in Hemp as [Hnone _].
    rewrite (filter_is_call_at_nil st x y ndy); [|by eapply fire_spec_within|done..].
    assert (JsSet.elements (_listeners ndy) = []) as ->.
    { apply elem_of_nil_inv. intros l Hl%elem_of_elements. by apply (Hnone l). }
    by destruct (through _ _ _).
  - apply (fire_spec_calls st y ndy Hinv Hy Hemp rest x ndx v); [done..|lia].
Qed.

(** ** [take] and firings within one turn of the event loop *)

(** A firing while no continuation waits for a promise queues nothing. *)
Lemma notify_idle fuel st this nd (v : V) :
  inv st → nodes st !! this = Some nd →
  (∀ q cell, promises st !! q = Some cell → p_reactions cell = []) →
  3 * length (nodes st) ≤ fuel →
  ∃ st', _notifyListeners fuel this v st = Some (tt, st') ∧ inv st' ∧
         length (nodes st') = length (nodes st) ∧
         length (promises st') = length (promises st) ∧
         results st' = results st ∧
         microtasks st' = microtasks st ∧
         ∀ q cell, promises st' !! q = Some cell → p_reactions cell = [].
Proof.
  intros Hinv Hthis Hidle Hfuel.
  destruct (notifyListeners_spec fuel st this nd v Hinv Hthis Hfuel)
    as (st' & Hrun & Hinv' & Hnot).
  destruct (notified_fired st this nd v st' Hinv Hthis Hnot) as ([Hs _ _ Hps Hts] & _).
  exists st'. split_and!; try done.
  - by apply shrinks_length.
  - exact (sh_promises _ _ Hs).
  - exact (sh_results _ _ Hs).
  - destruct Hts as (new & Hnew & Hall).
    destruct new as [|x new]; [by rewrite Hnew, (right_id_L [] (++))|].
    apply Forall_cons in Hall as [(q & cell & Hq & _ & Hx) _].
    rewrite (Hidle q cell Hq) in Hx. by apply not_elem_of_nil in Hx.
  - intros q cell' Hq'.
    destruct (Forall2_lookup_r _ _ _ _ _ Hps Hq') as (cell & Hq & [->|(_ & _ & ?)]);
      [by eapply Hidle|done].
Qed.

Lemma fire_all_idle fuel this : ∀ (vs : list V) st,
  inv st → this < length (nodes st) →
  (∀ q cell, promises st !! q = Some cell → p_reactions cell = []) →
  3 * length (nodes st) ≤ fuel →
  ∃ st', fire_all fuel this vs st = Some (tt, st') ∧ inv st' ∧
         length (nodes st') = length (nodes st) ∧
         length (promises st') = length (promises st) ∧
         results st' = results st ∧
         microtasks st' = microtasks st ∧
         ∀ q cell, promises st' !! q = Some cell → p_reactions cell = [].
Proof.
  induction vs as [|v vs IH]; intros st Hinv Hthis Hidle Hfuel.
  - exists st. done.
  - destruct (lookup_lt_is_Some_2 _ _ Hthis) as [nd Hnd].
    destruct (notify_idle fuel st this nd v Hinv Hnd Hidle Hfuel)
      as (st1 & Hrun1 & Hinv1 & Hn1 & Hp1 & Hr1 & Hm1 & Hidle1).
    destruct (IH st1 Hinv1) as (st' & Hrun' & Hinv' & Hn' & Hp' & Hr' & Hm' & Hidle');
      [lia|done|lia|].
    exists st'. simpl. rewrite (bind_eq _ _ _ _ _ Hrun1). split_and!; try done; congruence.
Qed.

(** The host fires the node with every value of a burst, then returns to the
    event loop, burst after burst. *)
Definition turns (fuel steps : nat) (this : node_id) (bs : list (list V)) : M unit :=
  foldr (λ b k, fire_all fuel this b;; drain steps fuel;; k) (ret tt) bs.

Lemma turns_spec fuel steps this r : ∀ (bs : list (list V)) arr i count p st,
  bs ≠ [] → Forall (λ b, b ≠ []) bs →
  i = Z.of_nat (length arr) → count = Z.of_nat (length arr + length bs) →
  inv st → awaiting this p (TakeFrame this arr i count r) st →
  results st !! r = Some None →
  3 * length (nodes st) ≤ fuel →
  ∃ st', turns fuel (S steps) this bs st = Some (tt, st') ∧
         results st' !! r = Some (Some (arr ++ omap head bs)).
Proof.
  induction bs as [|b bs IH]; intros arr i count p st Hne Hall -> -> Hinv Haw Hres Hfuel;
    [done|].
  apply Forall_cons in Hall as [Hb Hall]. destruct b as [|v b]; [done|].
  pose proof (aw_listener _ _ _ _ Haw) as (nd & Hthis & _).
  assert (this < length (nodes st)) as Hlt by (by eapply lookup_lt_Some).
  destruct (notify_awaiting fuel st this p _ v Hinv Haw Hfuel)
    as (st0 & Hrun0 & Hinv0 & Hlen0 & Hpl0 & Hres0 & Hq0 & Hreact0).
  destruct (fire_all_idle fuel this b st0 Hinv0)
    as (st1 & Hrun1 & Hinv1 & Hlen1 & Hpl1 & Hres1 & Hq1 & Hreact1); [lia|done|lia|].
  rewrite Hq0 in Hq1.
  cbn [turns foldr]. fold (turns fuel (S steps) this bs).
  cbn [fire_all foldr]. fold (@fire_all V Sender fuel this b).
  unfold bind at 1. unfold bind at 1. rewrite Hrun0, Hrun1.
  unfold bind at 1. rewrite (drain_one _ _ _ _ _ Hq1). unfold bind at 1. unfold resume.
  cbn [tf_this tf_array tf_i tf_count tf_result].
  set (st1' := with_microtasks [] st1).
  set (fr' := TakeFrame this (arr ++ [v]) _ _ r).
  assert (inv st1') as Hinv1' by (by eapply (inv_gen_ext _ st1)).
  assert (quiet st1') as Hquiet1' by (by split).
  cbn [omap head]. destruct bs as [|b' bs].
  - unfold take_loop. subst fr'. simpl.
    rewrite (proj2 (Z.ltb_ge _ _)) by lia.
    unfold resolve_result. simpl. rewrite Hres1, Hres0, Hres. simpl.
    rewrite drain_nil by done. eexists. split; [done|]. simpl.
    apply list_lookup_insert_eq. by eapply lookup_lt_Some.
  - assert (∃ nd', nodes st1' !! tf_this fr' = Some nd') as [nd' Hnd'].
    { apply lookup_lt_is_Some_2. simpl. lia. }
    destruct (take_loop_await fuel st1' fr' nd' Hinv1' Hquiet1' Hnd')
      as (st2 & Hrun2 & Hinv2 & Haw2 & Hlen2 & Hpl2 & Hres2).
    { simpl. lia. }
    { subst fr'. simpl. lia. }
    rewrite Hrun2, (drain_nil _ _ _ (aw_tasks _ _ _ _ Haw2)).
    destruct (IH (arr ++ [v]) _ _ (length (promises st1')) st2 ltac:(done) Hall
                eq_refl eq_refl Hinv2) as (st' & Hrun' & Hres').
    + subst fr'. simpl in Haw2.
      replace (Z.of_nat (length (arr ++ [v]))) with (Z.of_nat (length arr) + 1)%Z
        by (rewrite length_app; simpl; lia).
      replace (Z.of_nat (length (arr ++ [v]) + length (b' :: bs)))
        with (Z.of_nat (length arr + length ((v :: b) :: b' :: bs)))
        by (rewrite length_app; simpl; lia).
      exact Haw2.
    + rewrite Hres2. simpl. by rewrite Hres1, Hres0.
    + rewrite Hlen2. simpl. lia.
    + exists st'. split; [done|]. by rewrite <-(assoc_L (++)) in Hres'.
Qed.

(** [take] collects one value per turn of the event loop: of the values the
    node is fired with before the host returns to the event loop, only the
    first is collected, since the listener of the next [next()] is added in
    the microtask that resumes [take]. *)
Theorem take_first_of_each_turn (fuel steps : nat) st this nd (bs : list (list V)) :
  inv st → quiet st → nodes st !! this = Some nd →
  Forall (λ b, b ≠ []) bs → 3 * length (nodes st) ≤ fuel →
  ∃ st1 st2,
    let r := length (results st) in
    take fuel this (Z.of_nat (length bs)) st = Some (r, st1) ∧
    turns fuel (S steps) this bs st1 = Some (tt, st2) ∧
    results st2 !! r = Some (Some (omap head bs)).
Proof.
  intros Hinv Hquiet Hthis Hall Hfuel.
  destruct bs as [|b bs].
  - eexists _, _. simpl. rewrite take_not_positive by done. split_and!; try done.
    simpl. rewrite lookup_app_r; [|done]. by rewrite Nat.sub_diag.
  - unfold take, bind at 1, new_result at 1.
    set (st0 := with_results _ st). set (fr := TakeFrame this [] 0 _ _).
    destruct (take_loop_await fuel st0 fr nd) as (st1 & Hrun & Hinv1 & Haw & Hlen & Hpl & Hres);
      [by eapply (inv_gen_ext _ st)|done|done| |subst fr; simpl; lia|].
    { simpl. apply lookup_lt_Some in Hthis. lia. }
    rewrite (bind_eq _ _ _ _ _ Hrun).
    assert (results st1 !! length (results st) = Some None) as Hr.
    { rewrite Hres. simpl. rewrite lookup_app_r; [|done]. by rewrite Nat.sub_diag. }
    destruct (turns_spec fuel steps this (length (results st)) (b :: bs) [] 0%Z
                (Z.of_nat (length (b :: bs))) (length (promises st)) st1)
      as (st2 & Hrun2 & Hres2); try done.
    { rewrite Hlen. done. }
    exists st1, st2. simpl in *. split_and!; done.
Qed.

(** ** The invariant holds in every state the host can reach *)

(** A dangling reference makes the call fail. *)
Lemma bind_fail {A B} (m : M A) (k : A → M B) st : m st = None → bind m k st = None.
Proof. unfold bind. by intros ->. Qed.

Lemma get_node_fail this st : nodes st !! this = None → get_node this st = None.
Proof. unfold get_node. by intros ->. Qed.

Lemma listen_fail fuel this l st : nodes st !! this = None → listen fuel this l st = None.
Proof. intros Hthis. unfold listen, listen_with. by apply bind_fail, get_node_fail. Qed.

Lemma next_fail fuel this st : nodes st !! this = None → next fuel this st = None.
Proof.
  intros Hthis. unfold next, bind at 1, new_promise at 1. by apply bind_fail, listen_fail.
Qed.

Lemma take_loop_inv fuel st (fr : @take_frame V) st' :
  inv st → 3 * length (nodes st) ≤ fuel →
  take_loop fuel fr st = Some (tt, st') →
  inv st' ∧ length (nodes st') = length (nodes st).
Proof.
  intros Hinv Hfuel Hrun. unfold take_loop in Hrun.
  destruct (tf_i fr <? tf_count fr)%Z.
  - destruct (nodes st !! tf_this fr) as [nd|] eqn:Hthis.
    + destruct (next_spec fuel st (tf_this fr) nd Hinv Hthis) as (st0 & Hnext & Hinv0 & Hnx).
      { apply lookup_lt_Some in Hthis. lia. }
      rewrite (bind_eq _ _ _ _ _ Hnext) in Hrun. unfold await in Hrun.
      destruct (promises st0 !! length (promises st)) as [cell|]; [|done].
      simpl in Hrun. destruct (p_value cell); injection Hrun as <-.
      * split; [by eapply (inv_gen_ext _ st0)|exact (nx_length _ _ _ Hnx)].
      * split; [|exact (nx_length _ _ _ Hnx)].
        eapply (inv_gen_ext _ st0); [done| |done]. simpl. by rewrite length_insert.
    + by rewrite (bind_fail _ _ _ (next_fail fuel _ st Hthis)) in Hrun.
  - unfold resolve_result in Hrun. destruct (results st !! tf_result fr) as [[arr|]|];
      simpl in Hrun; [| |done]; injection Hrun as <-; [done|].
    split; [by eapply (inv_gen_ext _ st)|done].
Qed.

Lemma drain_inv fuel : ∀ steps st st',
  inv st → 3 * length (nodes st) ≤ fuel →
  drain steps fuel st = Some (tt, st') → inv st'.
Proof.
  induction steps as [|steps IH]; intros st st' Hinv Hfuel Hrun; simpl in Hrun.
  - destruct (microtasks st); [|done]. by injection Hrun as <-.
  - destruct (microtasks st) as [|[fr a] rest] eqn:Hq; [by injection Hrun as <-|].
    unfold bind, run_microtask in Hrun. rewrite Hq in Hrun. unfold resume in Hrun.
    set (st0 := with_microtasks rest st) in *.
    destruct (take_loop fuel _ st0) as [[[] st1]|] eqn:Hloop; [|done].
    destruct (take_loop_inv fuel st0 _ st1 (inv_gen_ext _ st st0 eq_refl eq_refl Hinv)
                Hfuel Hloop) as [Hinv1 Hlen1].
    apply (IH st1 st' Hinv1); [|done]. rewrite Hlen1. done.
Qed.

(** The moves of the host program: the calls of the public interface, on any
    event it holds and with any listener of its own, the trigger of a source,
    and the return to the event loop. *)
Inductive step : state → state → Prop :=
  | step_singleEvent sender st n st' :
      singleEvent sender st = Some (n, st') → step st st'
  | step_filter this pred st n st' :
      filter this pred st = Some (n, st') → step st st'
  | step_map this transform st n st' :
      map this transform st = Some (n, st') → step st st'
  | step_listen fuel this k st st' :
      3 * length (nodes st) ≤ fuel →
      listen fuel this (LExt k) st = Some (tt, st') → step st st'
  | step_unlisten fuel this k st st' :
      3 * length (nodes st) ≤ fuel →
      unlisten fuel this (LExt k) st = Some (tt, st') → step st st'
  | step_next fuel this st p st' :
      3 * length (nodes st) ≤ fuel →
      next fuel this st = Some (p, st') → step st st'
  | step_take fuel this count st r st' :
      3 * length (nodes st) ≤ fuel →
      take fuel this count st = Some (r, st') → step st st'
  | step_trigger fuel this nd a st st' :
      3 * length (nodes st) ≤ fuel →
      nodes st !! this = Some nd → variant_of nd = SingleEventSource →
      _trigger fuel this a st = Some (tt, st') → step st st'
  | step_drain steps fuel st st' :
      3 * length (nodes st) ≤ fuel →
      drain steps fuel st = Some (tt, st') → step st st'.

Inductive reachable : state → Prop :=
  | reachable_init : reachable init
  | reachable_step st st' : reachable st → step st st' → reachable st'.

Lemma step_inv st st' : inv st → step st st' → inv st'.
Proof.
  intros Hinv Hstep. destruct Hstep as
    [sender st n st' Hrun|this pred st n st' Hrun|this transform st n st' Hrun
    |fuel this k st st' Hfuel Hrun|fuel this k st st' Hfuel Hrun
    |fuel this st p st' Hfuel Hrun|fuel this count st r st' Hfuel Hrun
    |fuel this nd a st st' Hfuel Hthis Hvar Hrun|steps fuel st st' Hfuel Hrun].
  - destruct (singleEvent_spec st sender Hinv) as (st1 & Hrun1 & Hinv1 & _). congruence.
  - destruct (nodes st !! this) as [nd|] eqn:Hthis.
    + destruct (filter_spec st this nd pred Hinv Hthis) as (st1 & Hrun1 & Hinv1 & _).
      congruence.
    + unfold filter in Hrun. by rewrite (bind_fail _ _ _ (get_node_fail _ _ Hthis)) in Hrun.
  - destruct (nodes st !! this) as [nd|] eqn:Hthis.
    + destruct (map_spec st this nd transform Hinv Hthis) as (st1 & Hrun1 & Hinv1 & _).
      congruence.
    + unfold map in Hrun. by rewrite (bind_fail _ _ _ (get_node_fail _ _ Hthis)) in Hrun.
  - destruct (nodes st !! this) as [nd|] eqn:Hthis.
    + destruct (listen_spec fuel st this nd (LExt k) Hinv Hthis) as (st1 & Hrun1 & Hinv1 & _);
        [done|apply lookup_lt_Some in Hthis; lia|]. congruence.
    + by rewrite (listen_fail fuel this _ st Hthis) in Hrun.
  - destruct (nodes st !! this) as [nd|] eqn:Hthis.
    + destruct (unlisten_spec fuel st this nd (LExt k) Hinv Hthis) as (st1 & Hrun1 & Hinv1 & _);
        [lia|]. congruence.
    + destruct fuel as [|fuel]; [done|]. simpl in Hrun.
      unfold bind, update_node in Hrun. by rewrite Hthis in Hrun.
  - destruct (nodes st !! this) as [nd|] eqn:Hthis.
    + destruct (next_spec fuel st this nd Hinv Hthis) as (st1 & Hrun1 & Hinv1 & _);
        [apply lookup_lt_Some in Hthis; lia|]. congruence.
    + by rewrite (next_fail fuel this st Hthis) in Hrun.
  - unfold take, bind at 1, new_result at 1 in Hrun.
    set (st0 := with_results _ st) in *. unfold bind in Hrun.
    destruct (take_loop fuel _ st0) as [[[] st1]|] eqn:Hloop; [|done].
    injection Hrun as _ <-.
    exact (proj1 (take_loop_inv fuel st0 _ st1 (inv_gen_ext _ st st0 eq_refl eq_refl Hinv)
                    Hfuel Hloop)).
  - destruct (trigger_spec fuel st this a Hinv) as (st1 & Hrun1 & Hinv1 & _);
      [by eapply lookup_lt_Some|lia|]. congruence.
  - by eapply drain_inv.
Qed.

(** Every state the host can reach by calls of the interface satisfies the
    invariant: the hooks of a derived node point at the node it was built on,
    which was allocated before it and has the same sender; no set holds a
    value twice; a one-shot listener of [next()] is registered on its own
    node only; and a derived node is among the children of its parent exactly
    while it has a listener or a child. *)
Theorem reachable_inv st : reachable st → inv st.
Proof.
  induction 1 as [|st st' _ IH Hstep]; [apply init_inv|by eapply step_inv].
Qed.

(** ** [listen] followed by [unlisten] *)

Lemma in_tree_dec X st r m : inv_gen X st → in_tree st r m ∨ ¬ in_tree st r m.
Proof.
  intros Hinv. induction (lt_wf m) as [m _ IH].
  destruct (decide (m = r)) as [->|Hne]; [left; apply in_tree_self|].
  destruct (nodes st !! m) as [nd|] eqn:Hm.
  - destruct (parent_of nd) as [p|] eqn:Hp.
    + destruct (lookup_lt_parent _ _ _ _ _ Hinv Hm Hp) as [Hlt _].
      destruct (IH p Hlt) as [Hin|Hout].
      * left. by eapply in_tree_step.
      * right. intros [->|(nd' & p' & ? & ? & ?)]%in_tree_inv; [done|]. by simplify_eq.
    + right. intros [->|(nd' & p' & ? & ? & ?)]%in_tree_inv; [done|]. by simplify_eq.
  - right. intros [->|(nd' & p' & ? & ? & ?)]%in_tree_inv; [done|]. by simplify_eq.
Qed.

(** [_connect] appends to the child sets. *)
Lemma call_connect_children fuel : ∀ st n nd st',
  inv st → nodes st !! n = Some nd → n < fuel →
  call_connect (call_hook fuel) n st = Some (tt, st') →
  ∀ m ndm, nodes st !! m = Some ndm →
    ∃ ndm', nodes st' !! m = Some ndm' ∧ _children ndm `prefix_of` _children ndm'.
Proof.
  induction fuel as [|fuel IH]; intros st n nd st' Hinv Hn Hfuel Hrun; [lia|].
  unfold call_connect in Hrun. rewrite (bind_eq _ _ _ _ _ (get_node_eq _ _ _ Hn)) in Hrun.
  unfold bind at 1, log at 1 in Hrun. set (st0 := with_trace _ st) in Hrun.
  assert (inv st0) as Hinv0 by (by eapply (inv_gen_ext _ st)).
  rewrite (hooks_ok_connect n nd) in Hrun by (by eapply inv_hooks).
  destruct (parent_of nd) as [p|] eqn:Hpar.
  - destruct (lookup_lt_parent _ _ _ _ _ Hinv Hn Hpar) as [Hlt [ndp Hp]].
    simpl in Hrun. unfold addChild_with in Hrun.
    rewrite (bind_eq _ _ _ _ _ (get_node_eq _ st0 _ Hp)) in Hrun.
    assert (∃ st1, when (is_empty ndp) (call_connect (call_hook fuel) p) st0 = Some (tt, st1) ∧
              ∀ m ndm, nodes st !! m = Some ndm →
                ∃ ndm', nodes st1 !! m = Some ndm' ∧ _children ndm `prefix_of` _children ndm')
      as (st1 & Hrun1 & Hpre1).
    { destruct (is_empty ndp) eqn:Hemp; simpl.
      - destruct (call_connect_spec fuel st0 p ndp Hinv0 Hp) as (st1 & Hrun1 & _ & _); [lia|].
        exists st1. split; [done|]. by apply (IH st0 p ndp st1 Hinv0 Hp ltac:(lia) Hrun1).
      - exists st0. split; [done|]. intros m ndm Hm. by exists ndm. }
    rewrite (bind_eq _ _ _ _ _ Hrun1) in Hrun. unfold update_node in Hrun.
    destruct (nodes st1 !! p) as [ndp1|] eqn:Hp1; [|done].
    simpl in Hrun. injection Hrun as <-. intros m ndm Hm.
    destruct (Hpre1 m ndm Hm) as (ndm1 & Hm1 & Hpre). simpl.
    destruct (decide (m = p)) as [->|Hne].
    + rewrite list_lookup_insert_eq by (by eapply lookup_lt_Some). eexists. split; [done|].
      simplify_eq. simpl. etrans; [done|]. apply add_prefix.
    + rewrite list_lookup_insert_ne by done. eauto.
  - simpl in Hrun. injection Hrun as <-. intros m ndm Hm. by exists ndm.
Qed.

(** Entries appended and then blanked leave the elements as they were. *)
Lemma elements_round_trip {A} `{EqDecision A} (s s1 s2 : JsSet.t A) :
  s `prefix_of` s1 → shrink s1 s2 → NoDup (JsSet.elements s1) →
  (∀ y : A, Some y ∈ s2 ↔ Some y ∈ s) →
  JsSet.elements s2 = JsSet.elements s.
Proof.
  intros [ext ->] Hsh Hnd Hsame.
  pose proof Hsh as Hsh'.
  apply Forall2_app_inv_l in Hsh' as (s2a & s2b & Ha & Hb & ->).
  assert (s2a = s) as ->.
  { apply list_eq. intros i. destruct (s !! i) as [e|] eqn:He.
    - destruct (Forall2_lookup_l _ _ _ _ _ Ha He) as (e' & He' & [->| ->]); [done|].
      destruct e as [y|]; [|done]. exfalso.
      eapply (shrink_not_elem_of (s ++ ext) (s2a ++ s2b) i y); [done|done| | |].
      + by apply lookup_app_l_Some.
      + by apply lookup_app_l_Some.
      + apply Hsame. by eapply list_elem_of_lookup_2.
    - apply lookup_ge_None_1 in He. apply lookup_ge_None_2.
      by rewrite <-(Forall2_length _ _ _ Ha). }
  rewrite elements_app.
  assert (JsSet.elements s2b = []) as ->; [|by rewrite (right_id_L [] (++))].
  apply length_zero_iff_nil. apply (size_0 s2b). intros y Hc.
  rewrite elements_app in Hnd. apply NoDup_app in Hnd as (_ & Hdisj & _).
  apply (Hdisj y).
  - apply elem_of_elements, Hsame, elem_of_app. by right.
  - apply elem_of_elements. by eapply shrink_elem_of.
Qed.

Lemma is_empty_same nd nd' :
  JsSet.elements (_listeners nd') = JsSet.elements (_listeners nd) →
  (∀ c, Some c ∈ _children nd' ↔ Some c ∈ _children nd) →
  is_empty nd' = is_empty nd.
Proof.
  intros Hl Hc. destruct (is_empty nd) eqn:E.
  - apply is_empty_true_iff in E as [El Ec]. apply is_empty_true_iff. split.
    + intros l Hin%elem_of_elements. rewrite Hl in Hin. by apply (El l), elem_of_elements.
    + intros c Hin%Hc. by apply (Ec c).
  - apply is_empty_false_iff in E as [[l El]|[c Ec]]; apply is_empty_false_iff.
    + left. exists l. apply elem_of_elements. rewrite Hl. by apply elem_of_elements.
    + right. exists c. by apply Hc.
Qed.

(** [listen(l)] and then [unlisten(l)] on the same node, for a listener of
    the host that was registered nowhere in the subtree: every node has the
    listeners and the children it had before, in the same order, and no
    promise, result or queued continuation has changed. *)
Theorem listen_unlisten_restores (fuel : nat) st n nd (k : nat) :
  inv st → nodes st !! n = Some nd →
  (∀ m ndm, in_tree st n m → nodes st !! m = Some ndm → Some (LExt k) ∉ _listeners ndm) →
  2 * length (nodes st) ≤ fuel →
  ∃ st1 st2,
    listen fuel n (LExt k) st = Some (tt, st1) ∧
    unlisten fuel n (LExt k) st1 = Some (tt, st2) ∧
    length (nodes st2) = length (nodes st) ∧
    (∀ m ndm, nodes st !! m = Some ndm →
       ∃ ndm2, nodes st2 !! m = Some ndm2 ∧
         JsSet.elements (_listeners ndm2) = JsSet.elements (_listeners ndm) ∧
         JsSet.elements (_children ndm2) = JsSet.elements (_children ndm)) ∧
    promises st2 = promises st ∧ results st2 = results st ∧
    microtasks st2 = microtasks st.
Proof.
  intros Hinv Hn Habs Hfuel. set (l := LExt k) in *.
  assert (n < length (nodes st)) as Hlt by (by eapply lookup_lt_Some).
  destruct (listen_spec fuel st n nd l Hinv Hn) as (st1 & Hrun1 & Hinv1 & Hln);
    [done|lia|].
  destruct Hln as [L1 L2 L3 L4 L5 L6 L7 L8]. specialize (L1 nd Hn).
  set (nd1 := with_listeners (JsSet.add l) nd) in *.
  destruct (unlisten_spec fuel st1 n nd1 l Hinv1 L1) as (st2 & Hrun2 & Hinv2 & Hut); [lia|].
  destruct Hut as [Hs Uin Uout _ Up Um _].
  exists st1, st2. split; [done|]. split; [done|].
  split; [by rewrite (shrinks_length _ _ Hs)|].
  split; [|by rewrite Up, (sh_results _ _ Hs), Um].
  (* the three states node by node *)
  assert (Hmid : ∀ m ndm, nodes st !! m = Some ndm →
            ∃ ndm1, nodes st1 !! m = Some ndm1 ∧ parent_of ndm1 = parent_of ndm ∧
              _listeners ndm1 = (if decide (m = n) then JsSet.add l else id) (_listeners ndm)).
  { intros m ndm Hm. destruct (decide (m = n)) as [->|Hne].
    - simplify_eq. by exists nd1.
    - destruct (L2 m ndm Hm Hne) as (ndm1 & Hm1 & (Hc & _) & Hls & _).
      exists ndm1. split; [done|]. split; [|done]. unfold parent_of. by rewrite Hc. }
  assert (Htree : ∀ m, in_tree st n m ↔ in_tree st1 n m).
  { intros m. split; induction 1 as [|m nd' p Hm Hp _ IH]; try apply in_tree_self.
    - destruct (Hmid m nd' Hm) as (ndm1 & Hm1 & Hp1 & _).
      eapply in_tree_step; [done| |done]. congruence.
    - destruct (lookup_lt_is_Some_2 (nodes st) m) as [ndm Hm0].
      { rewrite <-L3. by eapply lookup_lt_Some. }
      destruct (Hmid m ndm Hm0) as (ndm1 & Hm1 & Hp1 & _). simplify_eq.
      eapply in_tree_step; [done| |done]. congruence. }
  assert (Hlast : ∀ m ndm, nodes st !! m = Some ndm →
            ∃ ndm1 ndm2, nodes st1 !! m = Some ndm1 ∧ nodes st2 !! m = Some ndm2 ∧
              node_shrinks ndm1 ndm2 ∧ parent_of ndm2 = parent_of ndm ∧
              JsSet.elements (_listeners ndm2) = JsSet.elements (_listeners ndm)).
  { intros m ndm Hm. destruct (Hmid m ndm Hm) as (ndm1 & Hm1 & Hp1 & Hls1).
    destruct (nodes_shrink_lookup_l _ _ _ _ (sh_nodes _ _ Hs) Hm1) as (ndm2 & Hm2 & Hns).
    exists ndm1, ndm2. split_and!; try done.
    { by rewrite (node_shrinks_parent _ _ Hns). }
    destruct (in_tree_dec _ st n m Hinv) as [Hin|Hout].
    - destruct (Uin m ndm1) as (nd' & Hnd' & Hls2); [by apply Htree|done|].
      assert (nd' = ndm2) as -> by congruence. rewrite Hls2, Hls1.
      pose proof (Habs m ndm Hin Hm) as Hl.
      destruct (decide (m = n)) as [->|Hne]; simpl.
      + unfold JsSet.add. rewrite decide_False by done.
        unfold JsSet.delete. rewrite fmap_app. fold (JsSet.delete l (_listeners ndm)).
        rewrite delete_absent by done. simpl. rewrite decide_True by done.
        rewrite elements_app. simpl. by rewrite (right_id_L [] (++)).
      + by rewrite delete_absent.
    - assert (m ≠ n) as Hne by (intros ->; apply Hout, in_tree_self).
      specialize (Uout m). rewrite Hm1, Hm2 in Uout. simpl in Uout.
      rewrite decide_False in Hls1 by done. simpl in Hls1.
      assert (_listeners ndm2 = _listeners ndm1) as ->; [|by rewrite Hls1].
      assert (Some (_listeners ndm2) = Some (_listeners ndm1)) as [= ?]; [|done].
      apply Uout. by rewrite <-Htree. }
  (* a node has a child in the end exactly if it had it at the start *)
  assert (Hch : ∀ j m ndm ndm2, length (nodes st) ≤ j + m →
            nodes st !! m = Some ndm → nodes st2 !! m = Some ndm2 →
            ∀ c, Some c ∈ _children ndm2 ↔ Some c ∈ _children ndm).
  { induction j as [|j IH]; intros m ndm ndm2 Hj Hm Hm2 c.
    { apply lookup_lt_Some in Hm. lia. }
    assert (Hsame : ∀ ndc ndc2, m < c → nodes st !! c = Some ndc →
              nodes st2 !! c = Some ndc2 → is_empty ndc2 = is_empty ndc).
    { intros ndc ndc2 Hmc Hc Hc2.
      destruct (Hlast c ndc Hc) as (? & ndc2' & _ & Hc2' & _ & _ & Hls).
      assert (ndc2' = ndc2) as -> by congruence.
      apply is_empty_same; [done|]. apply (IH c ndc ndc2); [lia|done..]. }
    split; intros Hin.
    - destruct (inv_child _ _ Hinv2 m ndm2 c Hm2 Hin) as (ndc2 & Hc2 & Hpc2 & [Hne|[]]).
      destruct (lookup_lt_parent _ _ _ _ _ Hinv2 Hc2 Hpc2) as [Hmc _].
      destruct (lookup_lt_is_Some_2 (nodes st) c) as [ndc Hc].
      { rewrite <-L3, <-(shrinks_length _ _ Hs). by eapply lookup_lt_Some. }
      destruct (Hlast c ndc Hc) as (? & ndc2' & _ & Hc2' & _ & Hpc & _).
      assert (ndc2' = ndc2) as -> by congruence.
      destruct (inv_registered _ _ Hinv c ndc m Hc) as (ndm' & ? & ?);
        [congruence|by rewrite <-(Hsame ndc ndc2)|]. by simplify_eq.
    - destruct (inv_child _ _ Hinv m ndm c Hm Hin) as (ndc & Hc & Hpc & [Hne|[]]).
      destruct (lookup_lt_parent _ _ _ _ _ Hinv Hc Hpc) as [Hmc _].
      destruct (Hlast c ndc Hc) as (? & ndc2 & _ & Hc2 & _ & Hpc2 & _).
      destruct (inv_registered _ _ Hinv2 c ndc2 m Hc2) as (ndm' & ? & ?);
        [congruence|by rewrite (Hsame ndc ndc2)|]. by simplify_eq. }
  (* the child sets were extended at the end and then blanked *)
  assert (Hpre : ∀ m ndm ndm1, nodes st !! m = Some ndm → nodes st1 !! m = Some ndm1 →
            _children ndm `prefix_of` _children ndm1).
  { intros m ndm ndm1 Hm Hm1. unfold listen, listen_with in Hrun1.
    rewrite (bind_eq _ _ _ _ _ (get_node_eq _ _ _ Hn)) in Hrun1.
    assert (∃ st0, when (is_empty nd) (call_connect (call_hook fuel) n) st = Some (tt, st0) ∧
              ∀ m ndm, nodes st !! m = Some ndm →
                ∃ ndm', nodes st0 !! m = Some ndm' ∧ _children ndm `prefix_of` _children ndm')
      as (st0 & Hrun0 & Hpre0).
    { destruct (is_empty nd) eqn:Hemp; simpl.
      - destruct (call_connect_spec fuel st n nd Hinv Hn) as (st0 & Hrun0 & _ & _); [lia|].
        exists st0. split; [done|].
        by apply (call_connect_children fuel st n nd st0 Hinv Hn ltac:(lia) Hrun0).
      - exists st. split; [done|]. intros m' ndm' Hm'. by exists ndm'. }
    rewrite (bind_eq _ _ _ _ _ Hrun0) in Hrun1. unfold update_node in Hrun1.
    destruct (nodes st0 !! n) as [nd0|] eqn:Hn0; [|done].
    simpl in Hrun1. injection Hrun1 as <-.
    destruct (Hpre0 m ndm Hm) as (ndm0 & Hm0 & Hp0). simpl in Hm1.
    destruct (decide (m = n)) as [->|Hne].
    - rewrite list_lookup_insert_eq in Hm1 by (by eapply lookup_lt_Some).
      by simplify_eq.
    - rewrite list_lookup_insert_ne in Hm1 by done. by simplify_eq. }
  intros m ndm Hm.
  destruct (Hlast m ndm Hm) as (ndm1 & ndm2 & Hm1 & Hm2 & (_ & _ & Hshc) & _ & Hls).
  exists ndm2. split_and!; [done..|].
  eapply (elements_round_trip _ (_children ndm1)); [by eapply Hpre|done| |].
  - exact (inv_nodup_children _ _ Hinv1 m ndm1 Hm1).
  - by eapply (Hch (length (nodes st))); [lia|..].
Qed.

(** ** Derived nodes without observer *)

(** A firing reaches the fired node and, below it, only nodes that have a
    listener or a child. *)
Lemma fire_spec_observed st : inv st → ∀ d x (v : V),
  Forall (λ e, ∀ y, at_node y e →
            y = x ∨ ∃ ndy, nodes st !! y = Some ndy ∧ is_empty ndy = false)
         (fire_spec d (nodes st) x v).
Proof.
  intros Hinv. induction d as [|d IH]; intros x v; [constructor|].
  rewrite fire_spec_S. destruct (nodes st !! x) as [nd|] eqn:Hx; [|constructor].
  assert (∀ a, Forall (λ e, ∀ y, at_node y e →
              y = x ∨ ∃ ndy, nodes st !! y = Some ndy ∧ is_empty ndy = false)
            (notify_spec (fire_spec d (nodes st)) x nd a)) as Hn.
  { intros a. unfold notify_spec. apply Forall_app. split.
    - apply Forall_fmap, Forall_forall. intros l _ y Hy. simpl in Hy. by left.
    - apply Forall_concat, Forall_fmap, Forall_forall. intros z Hz%elem_of_elements. simpl.
      destruct (inv_child _ _ Hinv x nd z Hx Hz) as (ndz & Hndz & _ & [Hne|[]]).
      eapply Forall_impl; [apply IH|]. intros e He y Hy.
      destruct (He y Hy) as [->|?]; [right; eauto|by right]. }
  destruct (variant_of nd) as [|pred|transform]; [done| |].
  - constructor; [intros y Hy; simpl in Hy; by left|].
    destruct (pred v); [done|constructor].
  - constructor; [intros y Hy; simpl in Hy; by left|]. done.
Qed.

Lemma filter_nil_Forall {A} (P : A → Prop) `{∀ x, Decision (P x)} (xs : list A) :
  Forall (λ x, ¬ P x) xs → base.filter P xs = [].
Proof.
  induction 1 as [|x xs Hx _ IH]; [done|]. by rewrite filter_cons_False.
Qed.

(** A derived node that has neither listener nor child is not reached by any
    firing of another node: its predicate or transform is not evaluated and
    nothing is called at it. *)
Theorem unobserved_node_idle (fuel : nat) st x ndx y ndy (v : V) :
  inv st → nodes st !! x = Some ndx → nodes st !! y = Some ndy →
  is_empty ndy = true → y ≠ x → 3 * length (nodes st) ≤ fuel →
  ∃ st' delta,
    _trigger fuel x v st = Some (tt, st') ∧
    trace st' = trace st ++ delta ∧
    base.filter (at_node y) delta = [].
Proof.
  intros Hinv Hx Hy Hemp Hne Hfuel.
  assert (x < length (nodes st)) as Hlt by (by eapply lookup_lt_Some).
  destruct (trigger_spec fuel st x v Hinv) as (st' & Hrun & _ & _ & delta & Ht & Hd);
    [lia|lia|].
  exists st', delta. split_and!; try done.
  rewrite <-(filter_deliveries (at_node y)) by apply at_node_not_disconnect.
  rewrite Hd. apply filter_nil_Forall.
  eapply Forall_impl; [apply (fire_spec_observed st Hinv)|].
  intros e He Hat. destruct (He y Hat) as [?|(ndy' & ? & ?)]; [done|]. congruence.
Qed.

(** ** [take] before its last value *)

Lemma turns_pending fuel steps this r (count : Z) : ∀ (bs : list (list V)) arr i p st,
  Forall (λ b, b ≠ []) bs →
  i = Z.of_nat (length arr) → (Z.of_nat (length arr + length bs) < count)%Z →
  inv st → awaiting this p (TakeFrame this arr i count r) st →
  results st !! r = Some None →
  3 * length (nodes st) ≤ fuel →
  ∃ st', turns fuel (S steps) this bs st = Some (tt, st') ∧
         results st' !! r = Some None.
Proof.
  induction bs as [|b bs IH]; intros arr i p st Hall -> Hlt Hinv Haw Hres Hfuel.
  { exists st. done. }
  apply Forall_cons in Hall as [Hb Hall]. destruct b as [|v b]; [done|].
  pose proof (aw_listener _ _ _ _ Haw) as (nd & Hthis & _).
  assert (this < length (nodes st)) as Hlen by (by eapply lookup_lt_Some).
  destruct (notify_awaiting fuel st this p _ v Hinv Haw Hfuel)
    as (st0 & Hrun0 & Hinv0 & Hlen0 & Hpl0 & Hres0 & Hq0 & Hreact0).
  destruct (fire_all_idle fuel this b st0 Hinv0)
    as (st1 & Hrun1 & Hinv1 & Hlen1 & Hpl1 & Hres1 & Hq1 & Hreact1); [lia|done|lia|].
  rewrite Hq0 in Hq1.
  cbn [turns foldr]. fold (turns fuel (S steps) this bs).
  cbn [fire_all foldr]. fold (@fire_all V Sender fuel this b).
  unfold bind at 1. unfold bind at 1. rewrite Hrun0, Hrun1.
  unfold bind at 1. rewrite (drain_one _ _ _ _ _ Hq1). unfold bind at 1. unfold resume.
  cbn [tf_this tf_array tf_i tf_count tf_result].
  set (st1' := with_microtasks [] st1).
  set (fr' := TakeFrame this (arr ++ [v]) _ _ r).
  assert (inv st1') as Hinv1' by (by eapply (inv_gen_ext _ st1)).
  assert (quiet st1') as Hquiet1' by (by split).
  assert (∃ nd', nodes st1' !! tf_this fr' = Some nd') as [nd' Hnd'].
  { apply lookup_lt_is_Some_2. simpl. lia. }
  simpl in Hlt.
  destruct (take_loop_await fuel st1' fr' nd' Hinv1' Hquiet1' Hnd')
    as (st2 & Hrun2 & Hinv2 & Haw2 & Hlen2 & Hpl2 & Hres2).
  { simpl. lia. }
  { subst fr'. simpl. lia. }
  rewrite Hrun2, (drain_nil _ _ _ (aw_tasks _ _ _ _ Haw2)).
  destruct (IH (arr ++ [v]) _ (length (promises st1')) st2 Hall eq_refl) as (st' & Hrun' & Hres').
  - rewrite length_app. simpl. lia.
  - done.
  - subst fr'. simpl in Haw2.
    replace (Z.of_nat (length (arr ++ [v]))) with (Z.of_nat (length arr) + 1)%Z
      by (rewrite length_app; simpl; lia).
    exact Haw2.
  - rewrite Hres2. simpl. by rewrite Hres1, Hres0.
  - rewrite Hlen2. simpl. lia.
  - exists st'. done.
Qed.

(** The promise of [take(count)] stays pending as long as the node has fired
    in fewer than [count] turns of the event loop, however many values it
    was fired with in each turn. *)
Theorem take_pending_before_last (fuel steps : nat) st this nd (count : Z)
    (bs : list (list V)) :
  inv st → quiet st → nodes st !! this = Some nd →
  Forall (λ b, b ≠ []) bs → (Z.of_nat (length bs) < count)%Z →
  3 * length (nodes st) ≤ fuel →
  ∃ st1 st2,
    let r := length (results st) in
    take fuel this count st = Some (r, st1) ∧
    turns fuel (S steps) this bs st1 = Some (tt, st2) ∧
    results st2 !! r = Some None.
Proof.
  intros Hinv Hquiet Hthis Hall Hlt Hfuel.
  unfold take, bind at 1, new_result at 1.
  set (st0 := with_results _ st). set (fr := TakeFrame this [] 0 _ _).
  destruct (take_loop_await fuel st0 fr nd) as (st1 & Hrun & Hinv1 & Haw & Hlen & Hpl & Hres);
    [by eapply (inv_gen_ext _ st)|done|done| |subst fr; simpl; lia|].
  { simpl. apply lookup_lt_Some in Hthis. lia. }
  rewrite (bind_eq _ _ _ _ _ Hrun).
  assert (results st1 !! length (results st) = Some None) as Hr.
  { rewrite Hres. simpl. rewrite lookup_app_r; [|done]. by rewrite Nat.sub_diag. }
  destruct (turns_pending fuel steps this (length (results st)) count bs [] 0%Z
              (length (promises st)) st1) as (st2 & Hrun2 & Hres2); try done.
  { rewrite Hlen. done. }
  exists st1, st2. simpl in *. split_and!; done.
Qed.

(** ** The [_disconnect] calls of [unlisten] on the node that holds the
    listener *)

(** The nodes whose [_disconnect] runs when [n] has lost its last observer:
    [n], then its parent if [n] was the only child of a parent without
    listener, and so on towards the source. *)
Fixpoint disconnect_chain (d : nat) (ns : list node) (n : node_id) : list node_id :=
  match d with
  | O => []
  | S d =>
      n :: match ns !! n with
           | Some nd =>
               match parent_of nd with
               | Some p =>
                   match ns !! p with
                   | Some ndp =>
                       if is_empty (with_children (JsSet.delete n) ndp)
                       then disconnect_chain d ns p else []
                   | None => []
                   end
               | None => []
               end
           | None => []
           end
  end.

Lemma disconnect_chain_ext X st (ns' : list node) : inv_gen X st → ∀ d n,
  (∀ nd, nodes st !! n = Some nd →
     ∃ nd', ns' !! n = Some nd' ∧ parent_of nd' = parent_of nd) →
  (∀ m, m < n → ns' !! m = nodes st !! m) → length ns' = length (nodes st) →
  disconnect_chain d ns' n = disconnect_chain d (nodes st) n.
Proof.
  intros Hinv. induction d as [|d IH]; intros n Hn Hbelow Hlen; [done|].
  simpl. f_equal. destruct (nodes st !! n) as [nd|] eqn:Hnd.
  - destruct (Hn nd eq_refl) as (nd' & -> & ->).
    destruct (parent_of nd) as [p|] eqn:Hp; [|done].
    destruct (lookup_lt_parent _ _ _ _ _ Hinv Hnd Hp) as [Hlt [ndp Hndp]].
    rewrite (Hbelow p Hlt), Hndp.
    destruct (is_empty _); [|done]. apply IH; [|intros m Hm; apply Hbelow; lia|done].
    intros ndp' Hndp'. exists ndp'. split; [|done]. by rewrite (Hbelow p Hlt).
  - apply lookup_ge_None_1 in Hnd. rewrite lookup_ge_None_2 by lia. done.
Qed.

Lemma disconnect_chain_depth X st : inv_gen X st → ∀ d d' n,
  n < d → n < d' → disconnect_chain d (nodes st) n = disconnect_chain d' (nodes st) n.
Proof.
  intros Hinv. induction d as [|d IH]; intros d' n Hd Hd'; [lia|].
  destruct d' as [|d']; [lia|]. simpl. f_equal.
  destruct (nodes st !! n) as [nd|] eqn:Hn; [|done].
  destruct (parent_of nd) as [p|] eqn:Hp; [|done].
  destruct (lookup_lt_parent _ _ _ _ _ Hinv Hn Hp) as [Hlt [ndp Hndp]].
  rewrite Hndp. destruct (is_empty _); [|done]. apply IH; lia.
Qed.

Lemma call_disconnect_trace fuel : ∀ X st n nd st',
  inv_gen (λ m, X m ∨ m = n) st →
  nodes st !! n = Some nd → is_empty nd = true → n < fuel →
  call_disconnect (call_hook fuel) n st = Some (tt, st') →
  trace st' = trace st ++ (EDisconnect <$> disconnect_chain (S n) (nodes st) n).
Proof.
  induction fuel as [|fuel IH]; intros X st n nd st' Hinv Hn Hempty Hfuel Hrun; [lia|].
  unfold call_disconnect in Hrun.
  rewrite (bind_eq _ _ _ _ _ (get_node_eq _ _ _ Hn)) in Hrun.
  unfold bind at 1, log at 1 in Hrun.
  cbn [disconnect_chain]. rewrite Hn.
  destruct (parent_of nd) as [p|] eqn:Hpar.
  - destruct (lookup_lt_parent _ _ _ _ _ Hinv Hn Hpar) as [Hlt [ndp Hp]].
    destruct (hooks_ok_parent n nd p) as (_ & _ & Hdis); [by eapply inv_hooks|done|].
    rewrite Hdis in Hrun. rewrite Hp.
    simpl in Hrun. unfold removeChild_with in Hrun.
    erewrite bind_eq in Hrun; [|by apply update_node_eq].
    set (ndp1 := with_children (JsSet.delete n) ndp) in *.
    set (st1 := with_nodes _ _) in Hrun.
    assert (nodes st1 !! p = Some ndp1) as Hp1.
    { subst st1. simpl. apply list_lookup_insert_eq. by eapply lookup_lt_Some. }
    rewrite (bind_eq _ _ _ _ _ (get_node_eq _ _ _ Hp1)) in Hrun.
    assert (inv_gen (λ m, X m ∨ (m = p ∧ is_empty ndp1 = true)) st1) as Hinv1.
    { by eapply (remove_child_inv X st st1 n nd p ndp). }
    destruct (is_empty ndp1) eqn:Hemp1; simpl in Hrun.
    + assert (inv_gen (λ m, X m ∨ m = p) st1) as Hinv1'.
      { eapply inv_gen_mono; [|done]. intros m [?|[? _]]; auto. }
      rewrite (IH X st1 p ndp1 st' Hinv1' Hp1 Hemp1 ltac:(lia) Hrun).
      change (trace st1) with (trace st ++ [EDisconnect n]).
      rewrite <-(assoc_L (++)). change (nodes st1) with (<[p:=ndp1]> (nodes st)).
      rewrite (disconnect_chain_ext _ st _ Hinv (S p) p).
      * by rewrite (disconnect_chain_depth _ st Hinv (S p) n p) by lia.
      * intros ndp' ?. assert (ndp' = ndp) as -> by congruence. exists ndp1. split; [|done].
        apply list_lookup_insert_eq. by eapply lookup_lt_Some.
      * intros m Hm. apply list_lookup_insert_ne. lia.
      * by rewrite length_insert.
    + by injection Hrun as <-.
  - destruct (hooks_ok_root n nd) as [Hdis _]; [by eapply inv_hooks|done|].
    rewrite Hdis in Hrun. simpl in Hrun. by injection Hrun as <-.
Qed.

Lemma unlisten_direct_trace fuel st n nd l :
  inv st → nodes st !! n = Some nd →
  (∀ m ndm, in_tree st n m → m ≠ n → nodes st !! m = Some ndm → Some l ∉ _listeners ndm) →
  2 * length (nodes st) ≤ fuel →
  ∃ st', unlisten fuel n l st = Some (tt, st') ∧
    trace st' = trace st ++
      (if is_empty (with_listeners (JsSet.delete l) nd)
       then EDisconnect <$> disconnect_chain (S n) (nodes st) n else []).
Proof.
  intros Hinv Hn Habs Hfuel.
  assert (n < length (nodes st)) as Hlt by (by eapply lookup_lt_Some).
  destruct fuel as [|fuel]; [lia|]. simpl.
  rewrite (bind_eq _ _ _ _ _ (update_node_eq _ _ _ _ Hn)).
  set (nd1 := with_listeners (JsSet.delete l) nd).
  set (st1 := with_nodes _ st).
  assert (nodes st1 !! n = Some nd1) as Hn1.
  { subst st1. simpl. by apply list_lookup_insert_eq. }
  assert (inv_gen (λ m, m = n ∧ is_empty nd1 = true) st1) as Hinv1.
  { eapply inv_gen_mono; [|by eapply (delete_listener_inv _ st st1 n nd l)].
    intros m [[]|?]; done. }
  assert (Hother : ∀ m, m ≠ n → nodes st1 !! m = nodes st !! m).
  { intros m Hm. subst st1. simpl. by rewrite list_lookup_insert_ne. }
  pose proof (λ r m, in_tree_shrinks st st1 r m
                (sh_nodes _ _ (delete_listener_shrinks st n nd l Hn))) as Htree.
  destruct (for_of_rule _children n (λ child, unlisten fuel child l)
              (λ _ st2, st2 = st1) st1 nd1 Hn1 eq_refl) as (st' & Hloop & ->).
  { intros j st2 ->. exists nd1. split; [done|]. split; [done|].
    intros [x|] Hx; [|done]. exists st1. split; [|done].
    assert (Some x ∈ _children nd1) as Hin by (by eapply list_elem_of_lookup_2).
    destruct (inv_child _ _ Hinv1 n nd1 x Hn1 Hin) as (ndx & Hndx & Hpx & Hnex).
    destruct (child_in_tree _ _ _ _ _ Hinv1 Hn1 Hin) as (Hnx & Hltx & _).
    eapply (unlisten_absent fuel _ st1 x ndx l Hinv1 Hndx);
      [| | |simpl; rewrite length_insert; lia].
    - destruct Hnex as [?|[? _]]; [done|lia].
    - intros m Hm [-> _]. apply (in_tree_le _ _ _ _ Hinv1) in Hm. lia.
    - intros m ndm Hm Hndm. pose proof (in_tree_le _ _ _ _ Hinv1 Hm).
      rewrite Hother in Hndm by lia. eapply (Habs m); [|lia|done].
      apply Htree. by eapply in_tree_trans. }
  rewrite (bind_eq _ _ _ _ _ Hloop).
  rewrite (bind_eq _ _ _ _ _ (get_node_eq _ _ _ Hn1)).
  set (chain := disconnect_chain (S n) (nodes st) n).
  destruct (is_empty nd1) eqn:Hemp; simpl.
  - assert (inv_gen (λ m, False ∨ m = n) st1) as Hinv1'.
    { eapply inv_gen_mono; [|done]. intros m [-> _]. by right. }
    destruct (call_disconnect_spec fuel (λ _, False) st1 n nd1 Hinv1' Hn1 Hemp)
      as (st' & Hrun & _ & _); [lia|].
    exists st'. split; [done|].
    rewrite (call_disconnect_trace fuel (λ _, False) st1 n nd1 st' Hinv1' Hn1 Hemp
               ltac:(lia) Hrun).
    change (trace st1) with (trace st). subst chain.
    rewrite (disconnect_chain_ext _ st (nodes st1) Hinv (S n) n); [done|..].
    + intros nd0 ?. assert (nd0 = nd) as -> by congruence. by exists nd1.
    + intros m Hm. apply Hother. lia.
    + subst st1. simpl. by rewrite length_insert.
  - exists st1. split; [done|]. simpl. by rewrite (right_id_L [] (++)).
Qed.

(** [unlisten] on the node that holds the listener, no node below holding it
    too: if the node is left with a listener or a child, no hook is called;
    if not, [_disconnect] is called once on the node, then once on its parent
    if that is left without observer, and so on upwards; nothing else. *)
Theorem unlisten_direct_disconnects (fuel : nat) st n nd l :
  inv st → nodes st !! n = Some nd →
  (∀ m ndm, in_tree st n m → m ≠ n → nodes st !! m = Some ndm → Some l ∉ _listeners ndm) →
  2 * length (nodes st) ≤ fuel →
  ∃ st', unlisten fuel n l st = Some (tt, st') ∧
    trace st' = trace st ++
      (if is_empty (with_listeners (JsSet.delete l) nd)
       then EDisconnect <$> disconnect_chain (S n) (nodes st) n else []).
Proof.
  intros Hinv Hn Habs Hfuel.
  destruct (unlisten_direct_trace fuel st n nd l Hinv Hn Habs Hfuel) as (st' & Hrun & Ht).
  exists st'. by split.
Qed.

(** ** Firing while no [next()] is pending *)

Lemma with_trace_app st (t1 t2 : list event) :
  with_trace (trace (with_trace (trace st ++ t1) st) ++ t2) (with_trace (trace st ++ t1) st) =
  with_trace (trace st ++ t1 ++ t2) st.
Proof. unfold with_trace. simpl. by rewrite (assoc_L (++)). Qed.

Lemma with_trace_nil st : with_trace (trace st ++ []) st = st.
Proof. destruct st. unfold with_trace. simpl. by rewrite (right_id_L [] (++)). Qed.

(** If no closure of [next()] is registered in the subtree of [c], firing [c]
    changes the trace only, and appends the traversal to it. *)
Lemma trigger_pure fuel : ∀ st c (v : V),
  inv st → c < length (nodes st) →
  (∀ m ndm p q, in_tree st c m → nodes st !! m = Some ndm →
                Some (LNext p q) ∉ _listeners ndm) →
  length (nodes st) ≤ fuel + c →
  _trigger fuel c v st =
  Some (tt, with_trace (trace st ++ fire_spec (length (nodes st)) (nodes st) c v) st).
Proof.
  induction fuel as [|fuel IH]; intros st c v Hinv Hc Hpure Hfuel; [lia|].
  destruct (lookup_lt_is_Some_2 _ _ Hc) as [nd Hnd].
  assert (Hnotify : ∀ (pre : list event) a,
    _notifyListeners_with (invoke fuel) (_trigger fuel) c a (with_trace (trace st ++ pre) st) =
    Some (tt, with_trace
                (trace st ++ pre ++
                 notify_spec (fire_spec (length (nodes st) - 1) (nodes st)) c nd a) st)).
  { intros pre a. unfold _notifyListeners_with. set (st0 := with_trace (trace st ++ pre) st).
    assert (nodes st0 !! c = Some nd) as Hnd0 by done.
    destruct (for_of_rule _listeners c
                (λ l, nd <- get_node c;; invoke fuel c l a (_sender nd))
                (λ j s, s = with_trace
                   (trace st ++ pre ++
                    ((λ l, ECall c l a (_sender nd)) <$>
                       JsSet.elements (firstn j (_listeners nd)))) st)
                st0 nd Hnd0) as (mid & Hrun1 & ->).
    { subst st0. simpl. by rewrite (right_id_L [] (++)). }
    { intros j s ->. exists nd. split; [done|]. split; [done|].
      intros e He. rewrite (elements_take_S _ _ _ He). destruct e as [l|].
      - destruct l as [k|p q].
        + eexists. split; [|reflexivity].
          set (s := with_trace _ st).
          assert (nodes s !! c = Some nd) as Hs by done.
          rewrite (bind_eq _ _ _ _ _ (get_node_eq _ _ _ Hs)).
          unfold invoke, bind, log, ret. simpl. do 2 f_equal. unfold with_trace. simpl.
          by rewrite fmap_app, <-!(assoc_L (++)).
        + exfalso. apply (Hpure c nd p q (in_tree_self _ _) Hnd).
          by eapply list_elem_of_lookup_2.
      - by rewrite (right_id_L [] (++)). }
    rewrite (bind_eq _ _ _ _ _ Hrun1). rewrite firstn_all.
    set (calls := (λ l, ECall c l a (_sender nd)) <$> JsSet.elements (_listeners nd)).
    set (st1 := with_trace (trace st ++ pre ++ calls) st).
    assert (nodes st1 !! c = Some nd) as Hnd1 by done.
    destruct (for_of_rule _children c (λ x, _trigger fuel x a)
                (λ j s, s = with_trace
                   (trace st ++ pre ++ calls ++
                    concat ((λ x, fire_spec (length (nodes st) - 1) (nodes st) x a) <$>
                              JsSet.elements (firstn j (_children nd)))) st)
                st1 nd Hnd1) as (st2 & Hrun2 & ->).
    { subst st1. simpl. by rewrite (right_id_L [] (++)). }
    { intros j s ->. exists nd. split; [done|]. split; [done|].
      intros e He. rewrite (elements_take_S _ _ _ He). destruct e as [x|].
      - assert (Some x ∈ _children nd) as Hin by (by eapply list_elem_of_lookup_2).
        destruct (child_in_tree _ _ _ _ _ Hinv Hnd Hin) as (Hcx & Hlt & Hlen).
        eexists. split; [|reflexivity].
        set (s := with_trace _ st).
        rewrite (IH s x a); [| |done| |simpl; lia].
        + do 2 f_equal. subst s. unfold with_trace. simpl. f_equal.
          rewrite fmap_app, concat_app, <-!(assoc_L (++)). simpl.
          rewrite (right_id_L [] (++)). do 3 f_equal.
          apply (f_equal (λ t, _ ++ t)). apply (fire_spec_depth _ st Hinv); lia.
        + by eapply (inv_gen_ext _ st).
        + intros m ndm p q Hxm Hm. apply (Hpure m ndm p q); [|done].
          eapply in_tree_trans; [done|]. by rewrite <-(in_tree_ext st s).
      - by rewrite (right_id_L [] (++)). }
    rewrite Hrun2, firstn_all. do 2 f_equal. }
  simpl. rewrite (bind_eq _ _ _ _ _ (get_node_eq _ _ _ Hnd)).
  replace (fire_spec (length (nodes st)) (nodes st) c v)
    with (fire_spec (S (length (nodes st) - 1)) (nodes st) c v) by (f_equal; lia).
  rewrite fire_spec_S, Hnd.
  destruct (variant_of nd) as [|pred|transform].
  - specialize (Hnotify [] v). rewrite with_trace_nil in Hnotify. by rewrite Hnotify.
  - unfold bind at 1, log at 1.
    destruct (pred v); [|done]. by rewrite (Hnotify [EPred c v] v).
  - unfold bind at 1, log at 1. by rewrite (Hnotify [ETransform c v] (transform v)).
Qed.

(** While no [next()] and no [take] waits in the subtree of a node, firing
    the node is a pure delivery: it calls no hook and leaves every node,
    promise, result and queued continuation as they were; the calls it makes
    are those of the traversal, so that firing again delivers the same. *)
Theorem fire_without_next_pure (fuel : nat) st n nd (v w : V) :
  inv st → nodes st !! n = Some nd →
  (∀ m ndm p q, in_tree st n m → nodes st !! m = Some ndm →
                Some (LNext p q) ∉ _listeners ndm) →
  length (nodes st) ≤ fuel →
  let fire a := fire_spec (length (nodes st)) (nodes st) n a in
  _trigger fuel n v st = Some (tt, with_trace (trace st ++ fire v) st) ∧
  (_trigger fuel n v;; _trigger fuel n w) st =
    Some (tt, with_trace (trace st ++ fire v ++ fire w) st).
Proof.
  intros Hinv Hn Hpure Hfuel fire.
  assert (n < length (nodes st)) as Hlt by (by eapply lookup_lt_Some).
  assert (_trigger fuel n v st = Some (tt, with_trace (trace st ++ fire v) st)) as Hrun.
  { apply trigger_pure; [done..|lia]. }
  split; [done|]. rewrite (bind_eq _ _ _ _ _ Hrun).
  set (st' := with_trace _ st).
  rewrite (trigger_pure fuel st' n w); [| |done| |simpl; lia].
  - unfold st'. by rewrite with_trace_app.
  - by eapply (inv_gen_ext _ st).
  - intros m ndm p q Hnm Hm. apply (Hpure m ndm p q); [|done].
    by rewrite <-(in_tree_ext st st').
Qed.

(** ** [next()] on a node without observer *)

(** A loop over a set whose only live entry is the last one. *)
Lemma for_of_from_last {K} (set : node → JsSet.t K) this (body : K → M unit) st nd
    (dead : JsSet.t K) (x : K) st' :
  nodes st !! this = Some nd → set nd = dead ++ [Some x] → (∀ y, Some y ∉ dead) →
  body x st = Some (tt, st') →
  (∃ nd', nodes st' !! this = Some nd' ∧ length (set nd') = length (set nd)) →
  ∀ k i, i + k = length dead →
    for_of_from (S k) set this i body st = Some (tt, st').
Proof.
  intros Hn Hset Hdead Hbody (nd' & Hn' & Hlen').
  induction k as [|k IH]; intros i Hi.
  - simpl. rewrite (bind_eq _ _ _ _ _ (get_node_eq _ _ _ Hn)), Hset.
    rewrite lookup_app_r by lia. replace (i - length dead) with 0 by lia. simpl.
    rewrite (bind_eq _ _ _ _ _ Hbody).
    rewrite (bind_eq _ _ _ _ _ (get_node_eq _ _ _ Hn')).
    rewrite lookup_ge_None_2; [done|]. rewrite Hlen', Hset, length_app. simpl. lia.
  - cbn [for_of_from]. rewrite (bind_eq _ _ _ _ _ (get_node_eq _ _ _ Hn)), Hset.
    destruct (lookup_lt_is_Some_2 dead i) as [e He]; [lia|].
    rewrite (lookup_app_l_Some _ _ _ _ He).
    destruct e as [y|]; [destruct (Hdead y); by eapply list_elem_of_lookup_2|].
    unfold bind at 1, ret at 1. apply IH. lia.
Qed.

Lemma for_of_last {K} (set : node → JsSet.t K) this (body : K → M unit) st nd
    (dead : JsSet.t K) (x : K) st' :
  nodes st !! this = Some nd → set nd = dead ++ [Some x] → (∀ y, Some y ∉ dead) →
  body x st = Some (tt, st') →
  (∃ nd', nodes st' !! this = Some nd' ∧ length (set nd') = length (set nd)) →
  for_of set this body st = Some (tt, st').
Proof.
  intros Hn Hset Hdead Hbody Hpost. unfold for_of.
  rewrite (bind_eq _ _ _ _ _ (get_node_eq _ _ _ Hn)), Hset, length_app. simpl.
  replace (length dead + 1) with (S (length dead)) by lia.
  eapply for_of_from_last; [done..|lia].
Qed.

(** Adding a child that was not there and deleting it again. *)
Lemma is_empty_add_delete nd x :
  Some x ∉ _children nd →
  is_empty (with_children (JsSet.delete x) (with_children (JsSet.add x) nd)) = is_empty nd.
Proof.
  intros Hx. apply is_empty_same; [done|]. intros y. simpl.
  rewrite elem_of_delete, elem_of_add. split.
  - intros [[?| ->] ?]; done.
  - intros Hy. split; [by left|]. intros ->. done.
Qed.

(** The nodes that [_connect] has attached are those that [_disconnect]
    detaches again. *)
Lemma call_connect_chain_eq fuel : ∀ st n nd st',
  inv st → nodes st !! n = Some nd → is_empty nd = true → n < fuel →
  call_connect (call_hook fuel) n st = Some (tt, st') →
  ∀ d, disconnect_chain d (nodes st') n = connect_chain d (nodes st) n.
Proof.
  induction fuel as [|fuel IH]; intros st n nd st' Hinv Hn Hempty Hfuel Hrun d; [lia|].
  destruct d as [|d]; [done|].
  unfold call_connect in Hrun. rewrite (bind_eq _ _ _ _ _ (get_node_eq _ _ _ Hn)) in Hrun.
  unfold bind at 1, log at 1 in Hrun. set (st0 := with_trace _ st) in Hrun.
  assert (inv st0) as Hinv0 by (by eapply (inv_gen_ext _ st)).
  rewrite (hooks_ok_connect n nd) in Hrun by (by eapply inv_hooks).
  cbn [connect_chain disconnect_chain]. rewrite Hn. f_equal.
  destruct (parent_of nd) as [p|] eqn:Hpar.
  - destruct (lookup_lt_parent _ _ _ _ _ Hinv Hn Hpar) as [Hlt [ndp Hp]].
    rewrite Hp. simpl in Hrun. unfold addChild_with in Hrun.
    rewrite (bind_eq _ _ _ _ _ (get_node_eq _ st0 _ Hp)) in Hrun.
    assert (Some n ∉ _children ndp) as Hnew.
    { intros Hin. destruct (inv_child _ _ Hinv p ndp n Hp Hin) as (nd' & ? & _ & [?|[]]).
      simplify_eq. congruence. }
    destruct (is_empty ndp) eqn:Hemp; simpl in Hrun.
    + destruct (call_connect_spec fuel st0 p ndp Hinv0 Hp) as (st1 & Hrun1 & Hinv1 & Hat);
        [lia|].
      rewrite (bind_eq _ _ _ _ _ Hrun1) in Hrun.
      pose proof (IH st0 p ndp st1 Hinv0 Hp Hemp ltac:(lia) Hrun1 d) as Hchain.
      assert (nodes st1 !! p = Some ndp) as Hp1.
      { rewrite (at_frame _ _ _ Hat); [done|]. intros [_ ?]. done. }
      assert (nodes st1 !! n = Some nd) as Hn1.
      { rewrite (at_frame _ _ _ Hat); [done|]. intros [Hin _].
        apply (in_tree_le _ _ _ _ Hinv0) in Hin. lia. }
      rewrite (update_node_eq _ _ _ _ Hp1) in Hrun. injection Hrun as <-. simpl.
      rewrite list_lookup_insert_ne by lia. rewrite Hn1, Hpar.
      rewrite list_lookup_insert_eq by (by eapply lookup_lt_Some).
      rewrite (is_empty_add_delete ndp n Hnew), Hemp.
      rewrite (disconnect_chain_ext _ st1 _ Hinv1 d p); [done|..].
      * intros ndp' ?. assert (ndp' = ndp) as -> by congruence.
        exists (with_children (JsSet.add n) ndp). split; [|done].
        apply list_lookup_insert_eq. by eapply lookup_lt_Some.
      * intros m Hm. apply list_lookup_insert_ne. lia.
      * by rewrite length_insert.
    + unfold bind at 1 in Hrun. simpl in Hrun.
      rewrite (update_node_eq p _ st0 ndp Hp) in Hrun. injection Hrun as <-. simpl.
      rewrite list_lookup_insert_ne by lia. rewrite Hn, Hpar.
      rewrite list_lookup_insert_eq by (by eapply lookup_lt_Some).
      by rewrite (is_empty_add_delete ndp n Hnew), Hemp.
  - simpl in Hrun. injection Hrun as <-. simpl. by rewrite Hn, Hpar.
Qed.

Lemma listen_chain_eq fuel st n nd l st' :
  inv st → nodes st !! n = Some nd → is_empty nd = true → n < fuel →
  listen fuel n l st = Some (tt, st') →
  ∀ d, disconnect_chain d (nodes st') n = connect_chain d (nodes st) n.
Proof.
  intros Hinv Hn Hemp Hfuel Hrun d. unfold listen, listen_with in Hrun.
  rewrite (bind_eq _ _ _ _ _ (get_node_eq _ _ _ Hn)), Hemp in Hrun. simpl in Hrun.
  destruct (call_connect_spec fuel st n nd Hinv Hn Hfuel) as (st1 & Hrun1 & Hinv1 & Hat).
  rewrite (bind_eq _ _ _ _ _ Hrun1) in Hrun.
  assert (nodes st1 !! n = Some nd) as Hn1.
  { rewrite (at_frame _ _ _ Hat); [done|]. intros [_ ?]. done. }
  rewrite (update_node_eq _ _ _ _ Hn1) in Hrun. injection Hrun as <-. simpl.
  rewrite <-(call_connect_chain_eq fuel st n nd st1 Hinv Hn Hemp Hfuel Hrun1 d).
  apply (disconnect_chain_ext _ st1 _ Hinv1 d n).
  - intros nd0 ?. assert (nd0 = nd) as -> by congruence.
    exists (with_listeners (JsSet.add l) nd). split; [|done].
    apply list_lookup_insert_eq. by eapply lookup_lt_Some.
  - intros m Hm. apply list_lookup_insert_ne. lia.
  - by rewrite length_insert.
Qed.

(** [next()] on a node that has no listener and no child calls the
    [_connect] hooks of the node and of the ancestors that had no observer
    either; the first firing of the node then calls the one-shot listener,
    and after it the [_disconnect] hooks of the same nodes, each once and in
    the same order; it makes no other call. *)
Theorem next_lifecycle (fuel : nat) st this nd (v : V) :
  inv st → nodes st !! this = Some nd → is_empty nd = true →
  3 * length (nodes st) ≤ fuel →
  ∃ st1 st2,
    let p := length (promises st) in
    let chain := connect_chain (S this) (nodes st) this in
    next fuel this st = Some (p, st1) ∧
    trace st1 = trace st ++ (EConnect <$> chain) ∧
    _notifyListeners fuel this v st1 = Some (tt, st2) ∧
    trace st2 = trace st1 ++
      ECall this (LNext this p) v (_sender nd) :: (EDisconnect <$> chain).
Proof.
  intros Hinv Hthis Hemp Hfuel.
  assert (this < length (nodes st)) as Hlt by (by eapply lookup_lt_Some).
  set (p := length (promises st)). set (l := LNext this p).
  set (chain := connect_chain (S this) (nodes st) this).
  (* next() *)
  destruct (next_spec fuel st this nd Hinv Hthis) as (st1 & Hnext & Hinv1 & Hnx); [lia|].
  destruct Hnx as [N1 N2 N3 _ _ _]. specialize (N2 nd Hthis). fold p l in N2, Hnext.
  set (nd1 := with_listeners (JsSet.add l) nd) in *.
  pose proof Hnext as Hnext'. unfold next, bind at 1, new_promise at 1 in Hnext'.
  set (st0 := with_promises _ st) in Hnext'.
  assert (inv st0) as Hinv0.
  { destruct Hinv as [H1 H2 H3 H4 H5 H6 H7]. split; try done.
    intros n ndn m q Hn Hl. destruct (H5 n ndn m q Hn Hl) as [-> ?].
    split; [done|]. simpl. rewrite length_app. simpl. lia. }
  unfold bind in Hnext'. fold p in Hnext'. fold l in Hnext'.
  destruct (listen fuel this l st0) as [[[] st1']|] eqn:Hlisten; [|done].
  unfold ret in Hnext'. injection Hnext' as ->.
  pose proof (listen_trace fuel st0 this nd l st1 Hinv0 Hthis ltac:(lia) Hlisten) as Ht1.
  rewrite Hemp in Ht1. change (trace st0) with (trace st) in Ht1.
  change (nodes st0) with (nodes st) in Ht1. fold chain in Ht1.
  pose proof (listen_chain_eq fuel st0 this nd l st1 Hinv0 Hthis Hemp ltac:(lia) Hlisten
                (S this)) as Hchain.
  change (nodes st0) with (nodes st) in Hchain. fold chain in Hchain.
  apply is_empty_true_iff in Hemp as [Hnol Hnoc].
  (* the firing *)
  assert (_listeners nd1 = _listeners nd ++ [Some l]) as Hls1.
  { simpl. unfold JsSet.add. rewrite decide_False; [done|]. apply Hnol. }
  set (st1a := with_trace (trace st1 ++ [ECall this l v (_sender nd)]) st1).
  set (st1b := resolve_state p v st1a).
  assert (nodes st1b = nodes st1) as Hnodes by (unfold st1b; by rewrite resolve_state_nodes).
  assert (inv st1b) as Hinv1b.
  { eapply (inv_gen_ext _ st1); [done| |done]. unfold st1b.
    by rewrite resolve_state_length. }
  assert (nodes st1b !! this = Some nd1) as Hthis1b by (by rewrite Hnodes).
  assert (p < length (promises st1a)) as Hp.
  { simpl. rewrite N1, length_app. simpl. unfold p. lia. }
  destruct (unlisten_direct_trace fuel st1b this nd1 l Hinv1b Hthis1b)
    as (st' & Hun & Ht'); [|rewrite Hnodes; lia|].
  { intros m ndm _ Hne Hm Hin. rewrite Hnodes in Hm.
    by destruct (inv_listener _ _ Hinv1 m ndm this p Hm Hin). }
  destruct (unlisten_spec fuel st1b this nd1 l Hinv1b Hthis1b) as (st'' & Hun' & _ & Hut);
    [rewrite Hnodes; lia|].
  assert (st'' = st') as -> by congruence.
  destruct (nodes_shrink_lookup_l _ _ _ _ (sh_nodes _ _ (ut_shrinks _ _ _ _ Hut)) Hthis1b)
    as (nd' & Hthis' & _ & Hshl & Hshc).
  assert (is_empty (with_listeners (JsSet.delete l) nd1) = true) as Hemp1.
  { apply is_empty_true_iff. split; [|done]. intros l' Hl'. simpl in Hl'.
    apply elem_of_delete in Hl' as [[?| ->]%elem_of_add ?]; [by apply (Hnol l')|done]. }
  rewrite Hemp1, Hnodes, Hchain in Ht'.
  exists st1, st'. cbv zeta. split_and!; [done|done| |].
  - unfold _notifyListeners, _notifyListeners_with.
    assert (for_of _listeners this
              (λ l0, nd0 <- get_node this;; invoke fuel this l0 v (_sender nd0)) st1 =
            Some (tt, st')) as Hloop.
    { eapply (for_of_last _listeners this _ st1 nd1 (_listeners nd) l st');
        [done|done|done| |].
      - rewrite (bind_eq _ _ _ _ _ (get_node_eq _ _ _ N2)).
        unfold invoke, bind at 1, log at 1.
        change ((resolve p v;; unlisten fuel this l) st1a = Some (tt, st')).
        rewrite (bind_eq _ _ _ _ _ (resolve_eq p v st1a Hp)). exact Hun.
      - exists nd'. split; [done|]. by apply shrink_length. }
    rewrite (bind_eq _ _ _ _ _ Hloop).
    apply (for_of_dead _children this _ st' nd' Hthis').
    intros c Hc. apply (Hnoc c). by eapply shrink_elem_of.
  - rewrite Ht'. unfold st1b. rewrite resolve_state_trace. unfold st1a.
    cbn [trace with_trace]. by rewrite <-(assoc_L (++)).
Qed.

End Interface.

(** * Registration of a derived node with its parent *)

Section Registration.

Import JsSetFacts.

Context {V Sender : Type}.

Local Abbreviation state := (@state V Sender).
Local Abbreviation node := (@node V Sender).
Local Abbreviation event := (@event V Sender).
Local Abbreviation M := (M state).

Implicit Types (st : state) (nd : node) (n m p e this : node_id) (l : listener).

Lemma connect_chain_ext X st (ns' : list node) : inv_gen X st → ∀ d n,
  (∀ m, m ≤ n → ns' !! m = nodes st !! m) →
  connect_chain d ns' n = connect_chain d (nodes st) n.
Proof.
  intros Hinv. induction d as [|d IH]; intros n Hsame; [done|].
  simpl. f_equal. rewrite (Hsame n) by lia.
  destruct (nodes st !! n) as [nd|] eqn:Hn; [|done].
  destruct (parent_of nd) as [p|] eqn:Hp; [|done].
  destruct (lookup_lt_parent _ _ _ _ _ Hinv Hn Hp) as [Hlt _].
  rewrite (Hsame p) by lia. destruct (nodes st !! p) as [ndp|]; [|done].
  destruct (is_empty ndp); [|done]. apply IH. intros m Hm. apply Hsame. lia.
Qed.

(** The [_connect] calls of a derived node [n] without observer: its own,
    and the chain of its parent [p] if [p] has no observer either. *)
Lemma connect_chain_derived X st n ndn p ndp :
  inv_gen X st → nodes st !! n = Some ndn → parent_of ndn = Some p →
  nodes st !! p = Some ndp →
  connect_chain (S n) (nodes st) n =
  n :: (if is_empty ndp then connect_chain (S p) (nodes st) p else []).
Proof.
  intros Hinv Hn Hpar Hp.
  destruct (lookup_lt_parent _ _ _ _ _ Hinv Hn Hpar) as [Hlt _].
  set (chain := connect_chain (S p) (nodes st) p).
  cbn [connect_chain]. rewrite Hn, Hpar, Hp. f_equal.
  destruct (is_empty ndp); [|done]. apply (connect_chain_depth _ st Hinv); lia.
Qed.

(** The first listener of a derived node. *)
Lemma listen_unobserved fuel st n ndn p ndp l :
  inv st → nodes st !! n = Some ndn → is_empty ndn = true →
  parent_of ndn = Some p → nodes st !! p = Some ndp →
  (∀ m q, l = LNext m q → m = n ∧ q < length (promises st)) → n < fuel →
  ∃ st2 ndp2,
    listen fuel n l st = Some (tt, st2) ∧ inv st2 ∧
    nodes st2 !! p = Some ndp2 ∧ Some n ∈ _children ndp2 ∧
    trace st2 = trace st ++
      EConnect n :: (if is_empty ndp then EConnect <$> connect_chain (S p) (nodes st) p
                     else []).
Proof.
  intros Hinv Hn Hemp Hpar Hp Hl Hfuel.
  destruct (listen_spec fuel st n ndn l Hinv Hn Hl Hfuel) as (st2 & Hrun & Hinv2 & Hln).
  pose proof (ln_trace _ _ _ _ Hln ndn Hn) as Hreg. rewrite Hemp in Hreg.
  destruct Hreg as (Hreg & _). destruct (Hreg p Hpar) as (ndp2 & Hp2 & Hin).
  exists st2, ndp2. split_and!; [done..|].
  rewrite (listen_trace fuel st n ndn l st2 Hinv Hn Hfuel Hrun), Hemp.
  rewrite (connect_chain_derived _ st n ndn p ndp Hinv Hn Hpar Hp).
  rewrite fmap_cons. by destruct (is_empty ndp).
Qed.

(** The first child of a derived node. *)
Lemma addChild_unobserved fuel st n ndn p ndp e :
  inv st → nodes st !! n = Some ndn → is_empty ndn = true →
  parent_of ndn = Some p → nodes st !! p = Some ndp → n < fuel →
  ∃ st2 ndp2 ndn2,
    addChild fuel n e st = Some (tt, st2) ∧
    nodes st2 !! p = Some ndp2 ∧ Some n ∈ _children ndp2 ∧
    nodes st2 !! n = Some ndn2 ∧ Some e ∈ _children ndn2 ∧
    trace st2 = trace st ++
      EConnect n :: (if is_empty ndp then EConnect <$> connect_chain (S p) (nodes st) p
                     else []).
Proof.
  intros Hinv Hn Hemp Hpar Hp Hfuel.
  destruct (lookup_lt_parent _ _ _ _ _ Hinv Hn Hpar) as [Hlt _].
  unfold addChild, addChild_with.
  rewrite (bind_eq _ _ _ _ _ (get_node_eq _ _ _ Hn)), Hemp. simpl.
  destruct (call_connect_spec fuel st n ndn Hinv Hn Hfuel) as (st1 & Hrun1 & _ & Hat).
  rewrite (bind_eq _ _ _ _ _ Hrun1).
  assert (nodes st1 !! n = Some ndn) as Hn1.
  { rewrite (at_frame _ _ _ Hat); [done|]. intros [_ ?]. done. }
  destruct (at_registered _ _ _ Hat ndn Hn p Hpar) as (ndp2 & Hp2 & Hin).
  rewrite (update_node_eq _ _ _ _ Hn1).
  exists (with_nodes (<[n := with_children (JsSet.add e) ndn]> (nodes st1)) st1),
    ndp2, (with_children (JsSet.add e) ndn).
  split_and!; [done| |done| | |].
  - simpl. rewrite list_lookup_insert_ne by lia. done.
  - simpl. apply list_lookup_insert_eq. by eapply lookup_lt_Some.
  - simpl. apply elem_of_add. by right.
  - simpl. rewrite (call_connect_trace fuel st n ndn st1 Hinv Hn Hfuel Hrun1).
    rewrite (connect_chain_derived _ st n ndn p ndp Hinv Hn Hpar Hp).
    rewrite fmap_cons. by destruct (is_empty ndp).
Qed.

(** What [filter] and [map] build. *)
Lemma derive_spec st this nd (derive : M node_id) :
  inv st → nodes st !! this = Some nd →
  (∃ pred, derive = filter this pred) ∨ (∃ transform, derive = map this transform) →
  ∃ st1 ndf,
    derive st = Some (length (nodes st), st1) ∧ inv st1 ∧
    st1 = with_nodes (nodes st ++ [ndf]) st ∧
    is_empty ndf = true ∧ parent_of ndf = Some this.
Proof.
  intros Hinv Hthis [[pred ->]|[transform ->]].
  - destruct (filter_spec st this nd pred Hinv Hthis) as (st1 & Hrun & Hinv1 & ->).
    eexists _, _. split_and!; done.
  - destruct (map_spec st this nd transform Hinv Hthis) as (st1 & Hrun & Hinv1 & ->).
    eexists _, _. split_and!; done.
Qed.

(** C3, amended.  [filter(pred)] and [map(transform)] only build the new node:
    no set of an existing node changes, the new node is not among the children
    of its parent, and no hook is called.  The new node registers itself with
    its parent when it gets its first listener or its first child, through
    its connect hook [() => parent.addChild(node)]: with the first listener
    of the host ([listen]), with the one-shot listener of [next()], with an
    [addChild] on it, and with the first listener of a node derived from it,
    whose connect hook is that [addChild].  Each time the hooks called are
    the connect hook of the new node and, exactly when the parent had neither
    listener nor child, the connect hook of the parent and those of its
    ancestors without observer. *)
Theorem C3_lazy_registration (fuel : nat) st this nd (derive : M node_id) :
  inv st → nodes st !! this = Some nd →
  (∃ pred, derive = filter this pred) ∨ (∃ transform, derive = map this transform) →
  length (nodes st) + 1 < fuel →
  let new := length (nodes st) in
  let hooks :=
    EConnect new ::
    (if is_empty nd then EConnect <$> connect_chain (S this) (nodes st) this else []) in
  ∃ st1,
    derive st = Some (new, st1) ∧
    (∀ m, m < new → nodes st1 !! m = nodes st !! m) ∧
    (Some new ∉ _children nd) ∧
    trace st1 = trace st ∧
    (∀ k, ∃ st2 nd2,
       listen fuel new (LExt k) st1 = Some (tt, st2) ∧
       nodes st2 !! this = Some nd2 ∧ Some new ∈ _children nd2 ∧
       trace st2 = trace st1 ++ hooks) ∧
    (∃ st2 nd2,
       next fuel new st1 = Some (length (promises st), st2) ∧
       nodes st2 !! this = Some nd2 ∧ Some new ∈ _children nd2 ∧
       trace st2 = trace st1 ++ hooks) ∧
    (∀ e, ∃ st2 nd2 ndn,
       addChild fuel new e st1 = Some (tt, st2) ∧
       nodes st2 !! this = Some nd2 ∧ Some new ∈ _children nd2 ∧
       nodes st2 !! new = Some ndn ∧ Some e ∈ _children ndn ∧
       trace st2 = trace st1 ++ hooks) ∧
    (∀ derive2 : M node_id,
       (∃ pred, derive2 = filter new pred) ∨ (∃ transform, derive2 = map new transform) →
       ∃ st1',
         derive2 st1 = Some (S new, st1') ∧
         nodes st1' !! this = Some nd ∧ trace st1' = trace st1 ∧
         (∃ st2 nd2 ndn,
            addChild fuel new (S new) st1' = Some (tt, st2) ∧
            nodes st2 !! this = Some nd2 ∧ Some new ∈ _children nd2 ∧
            nodes st2 !! new = Some ndn ∧ Some (S new) ∈ _children ndn ∧
            trace st2 = trace st1' ++ hooks) ∧
         (∀ k, ∃ st2 nd2 ndn,
            listen fuel (S new) (LExt k) st1' = Some (tt, st2) ∧
            nodes st2 !! this = Some nd2 ∧ Some new ∈ _children nd2 ∧
            nodes st2 !! new = Some ndn ∧ Some (S new) ∈ _children ndn ∧
            trace st2 = trace st1' ++ EConnect (S new) :: hooks)).
Proof.
  intros Hinv Hthis Hderive Hfuel new hooks.
  assert (this < new) as Hlt by (by eapply lookup_lt_Some).
  destruct (derive_spec st this nd derive Hinv Hthis Hderive)
    as (st1 & ndf & Hrun & Hinv1 & Hst1 & Hemp & Hpar).
  assert (nodes st1 = nodes st ++ [ndf]) as Hnodes by (by rewrite Hst1).
  assert (nodes st1 !! new = Some ndf) as Hf.
  { rewrite Hnodes, lookup_app_r; [|done]. unfold new. by rewrite Nat.sub_diag. }
  assert (nodes st1 !! this = Some nd) as Hthis1.
  { by rewrite Hnodes, lookup_app_l. }
  assert (Hchain1 : ∀ d, connect_chain d (nodes st1) this = connect_chain d (nodes st) this).
  { intros d. apply (connect_chain_ext _ st _ Hinv). intros m Hm.
    rewrite Hnodes, lookup_app_l; [done|]. fold new. lia. }
  exists st1. split_and!; [done| | |by rewrite Hst1| | | |].
  - intros m Hm. by rewrite Hnodes, lookup_app_l.
  - intros Hin. destruct (inv_child _ _ Hinv this nd new Hthis Hin) as (ndc & Hc & _).
    apply lookup_lt_Some in Hc. unfold new in Hc. lia.
  - intros k.
    destruct (listen_unobserved fuel st1 new ndf this nd (LExt k) Hinv1 Hf Hemp Hpar Hthis1)
      as (st2 & nd2 & Hrun2 & _ & Hnd2 & Hin & Ht2); [done|lia|].
    exists st2, nd2. split_and!; [done..|]. by rewrite Ht2, Hchain1.
  - unfold next, bind at 1, new_promise at 1.
    set (st0 := with_promises (promises st1 ++ [Promise None []]) st1).
    assert (inv st0) as Hinv0.
    { destruct Hinv1 as [H1 H2 H3 H4 H5 H6 H7]. split; try done.
      intros n ndn m q Hn Hl. destruct (H5 n ndn m q Hn Hl) as [-> ?].
      split; [done|]. simpl. rewrite length_app. simpl. lia. }
    destruct (listen_unobserved fuel st0 new ndf this nd
                (LNext new (length (promises st1))) Hinv0 Hf Hemp Hpar Hthis1)
      as (st2 & nd2 & Hrun2 & _ & Hnd2 & Hin & Ht2); [|lia|].
    { intros m q [= <- <-]. split; [done|]. simpl. rewrite length_app. simpl. lia. }
    rewrite (bind_eq _ _ _ _ _ Hrun2).
    exists st2, nd2. split_and!; [by rewrite Hst1|done..|].
    rewrite Ht2. change (nodes st0) with (nodes st1). by rewrite Hchain1.
  - intros e.
    destruct (addChild_unobserved fuel st1 new ndf this nd e Hinv1 Hf Hemp Hpar Hthis1)
      as (st2 & nd2 & ndn & Hrun2 & Hnd2 & Hin & Hndn & Hine & Ht2); [lia|].
    exists st2, nd2, ndn. split_and!; [done..|]. by rewrite Ht2, Hchain1.
  - intros derive2 Hderive2.
    destruct (derive_spec st1 new ndf derive2 Hinv1 Hf Hderive2)
      as (st1' & nde & Hrun' & Hinv1' & Hst1' & Hempe & Hpare).
    assert (length (nodes st1) = S new) as Hlen1.
    { rewrite Hnodes, length_app. simpl. unfold new. lia. }
    rewrite Hlen1 in Hrun'.
    assert (nodes st1' = nodes st1 ++ [nde]) as Hnodes' by (by rewrite Hst1').
    assert (nodes st1' !! S new = Some nde) as He.
    { rewrite Hnodes', lookup_app_r; [|lia]. by rewrite Hlen1, Nat.sub_diag. }
    assert (nodes st1' !! new = Some ndf) as Hf'.
    { rewrite Hnodes', lookup_app_l; [done|]. lia. }
    assert (nodes st1' !! this = Some nd) as Hthis1'.
    { rewrite Hnodes', lookup_app_l; [done|]. lia. }
    assert (Hchain1' : ∀ d,
              connect_chain d (nodes st1') this = connect_chain d (nodes st) this).
    { intros d. rewrite <-Hchain1. apply (connect_chain_ext _ st1 _ Hinv1). intros m Hm.
      rewrite Hnodes', lookup_app_l; [done|]. lia. }
    exists st1'. split_and!; [done|done|by rewrite Hst1'| |].
    + destruct (addChild_unobserved fuel st1' new ndf this nd (S new)
                  Hinv1' Hf' Hemp Hpar Hthis1')
        as (st2 & nd2 & ndn & Hrun2 & Hnd2 & Hin & Hndn & Hine & Ht2); [lia|].
      exists st2, nd2, ndn. split_and!; [done..|]. by rewrite Ht2, Hchain1'.
    + intros k.
      destruct (listen_unobserved fuel st1' (S new) nde new ndf (LExt k)
                  Hinv1' He Hempe Hpare Hf')
        as (st2 & ndn & Hrun2 & Hinv2 & Hndn & Hine & Ht2); [done|lia|].
      assert (is_empty ndn = false) as Hne.
      { apply is_empty_false_iff. right. by exists (S new). }
      assert (parent_of ndn = Some this) as Hparn.
      { destruct (listen_spec fuel st1' (S new) nde (LExt k) Hinv1' He) as (st2' & Hrun2' & _ & Hln);
          [done|lia|].
        assert (st2' = st2) as -> by congruence.
        destruct (ln_nodes _ _ _ _ Hln new ndf Hf') as (ndn' & Hndn' & (Hc & _) & _); [lia|].
        assert (ndn' = ndn) as -> by congruence. unfold parent_of in *. by rewrite Hc. }
      destruct (inv_registered _ _ Hinv2 new ndn this Hndn Hparn Hne) as (nd2 & Hnd2 & Hin).
      exists st2, nd2, ndn. split_and!; [done..|].
      rewrite Ht2, Hemp.
      rewrite (connect_chain_derived _ st1' new ndf this nd Hinv1' Hf' Hpar Hthis1').
      rewrite fmap_cons. unfold hooks. do 3 f_equal.
      destruct (is_empty nd); [|done]. by rewrite Hchain1'.
Qed.

End Registration.

(** * Concrete runs of the interface *)

(** [[ev, trigger] = singleEvent(7); f = ev.filter(positive)]: nobody
    listens. *)
Definition pair_source : @node Z nat :=
  Node [] [] HExternal HExternal 7 SingleEventSource.

Definition pair_filter : @node Z nat :=
  Node [] [] (HAddChild 0 1) (HRemoveChild 0 1) 7 (FilterEvent positive).

Definition pair_state : @state Z nat := State [pair_source; pair_filter] [] [] [] [].

Lemma pair_state_reached :
  (ev <- singleEvent 7;; filter ev positive) init = Some (1, pair_state).
Proof. reflexivity. Qed.

Lemma pair_state_inv : inv pair_state.
Proof.
  destruct (singleEvent_spec (V := Z) init 7 init_inv) as (st1 & _ & I1 & ->).
  destruct (filter_spec _ 0 _ positive I1 eq_refl) as (st2 & _ & I2 & ->).
  exact I2.
Qed.

Lemma pair_state_reachable : reachable pair_state.
Proof.
  eapply reachable_step; [eapply reachable_step; [apply reachable_init|]|].
  - by eapply (step_singleEvent 7).
  - by eapply (step_filter 0 positive).
Qed.

(** [[ev, trigger] = singleEvent(7); m = ev.map(double);
      f = m.filter(positive); f.listen(l0)] *)
Definition chain_script : M (@state Z nat) unit :=
  ev <- singleEvent 7;;
  m <- map ev double;;
  f <- filter m positive;;
  listen 9 f (LExt 0).

Definition chain_source : @node Z nat :=
  Node [] [Some 1] HExternal HExternal 7 SingleEventSource.

Definition chain_map : @node Z nat :=
  Node [] [Some 2] (HAddChild 0 1) (HRemoveChild 0 1) 7 (MapEvent double).

Definition chain_filter : @node Z nat :=
  Node [Some (LExt 0)] [] (HAddChild 1 2) (HRemoveChild 1 2) 7 (FilterEvent positive).

Definition chain_state : @state Z nat :=
  State [chain_source; chain_map; chain_filter] [] [] []
        [EConnect 2; EConnect 1; EConnect 0].

Lemma chain_state_reached : chain_script init = Some (tt, chain_state).
Proof. vm_compute. reflexivity. Qed.

Lemma chain_state_inv : inv chain_state.
Proof.
  destruct (singleEvent_spec (V := Z) init 7 init_inv) as (st1 & _ & I1 & ->).
  destruct (map_spec _ 0 _ double I1 eq_refl) as (st2 & _ & I2 & ->).
  destruct (filter_spec _ 1 _ positive I2 eq_refl) as (st3 & _ & I3 & ->).
  destruct (listen_spec 9 _ 2 _ (LExt 0) I3 eq_refl) as (st4 & H4 & I4 & _);
    [done|simpl; lia|].
  vm_compute in H4. injection H4 as <-. exact I4.
Qed.

(** A listener that is on no node of the small tree. *)
Lemma tree_state_fresh m (ndm : @node Z nat) :
  nodes tree_state !! m = Some ndm → Some (LExt 9) ∉ _listeners ndm.
Proof.
  destruct m as [|[|[|m]]]; simpl; intros [= <-]; simpl;
    intros H; repeat (apply elem_of_cons in H as [[=]|H]); by apply not_elem_of_nil in H.
Qed.

Lemma listen_registered_noop_witness :
  nodes tree_state !! 0 = Some tree_root ∧ Some (LExt 2) ∈ _listeners tree_root ∧
  listen 0 0 (LExt 2) tree_state = Some (tt, tree_state).
Proof.
  assert (Some (LExt 2) ∈ _listeners tree_root) as Hl by (simpl; left).
  split_and!; [reflexivity|exact Hl|].
  exact (listen_registered_noop 0 tree_state 0 tree_root (LExt 2) eq_refl Hl).
Defined.

Lemma listen_connect_chain_witness :
  inv pair_state ∧ nodes pair_state !! 1 = Some pair_filter ∧ 1 < 9 ∧
  ∃ st', listen 9 1 (LExt 0) pair_state = Some (tt, st') ∧
         trace st' = [EConnect 1; EConnect 0].
Proof.
  assert (1 < 9) as Hfuel by lia.
  split_and!; [exact pair_state_inv|reflexivity|exact Hfuel|].
  exact (listen_connect_chain 9 pair_state 1 pair_filter 0 pair_state_inv eq_refl Hfuel).
Defined.

Lemma unlisten_absent_noop_witness :
  inv tree_state ∧ nodes tree_state !! 0 = Some tree_root ∧ is_empty tree_root = false ∧
  (∀ m ndm, in_tree tree_state 0 m → nodes tree_state !! m = Some ndm →
            Some (LExt 9) ∉ _listeners ndm) ∧
  length (nodes tree_state) ≤ 9 ∧
  unlisten 9 0 (LExt 9) tree_state = Some (tt, tree_state).
Proof.
  assert (∀ m ndm, in_tree tree_state 0 m → nodes tree_state !! m = Some ndm →
                   Some (LExt 9) ∉ _listeners ndm) as Habs
    by (intros m ndm _; apply tree_state_fresh).
  assert (length (nodes tree_state) ≤ 9) as Hfuel by (simpl; lia).
  split_and!; [exact tree_state_inv|reflexivity|reflexivity|exact Habs|exact Hfuel|].
  exact (unlisten_absent_noop 9 tree_state 0 tree_root (LExt 9) tree_state_inv
           eq_refl eq_refl Habs Hfuel).
Defined.

Lemma unlisten_removes_witness :
  inv tree_state ∧ nodes tree_state !! 0 = Some tree_root ∧
  2 * length (nodes tree_state) ≤ 9 ∧
  ∃ st' dis,
    unlisten 9 0 (LExt 0) tree_state = Some (tt, st') ∧
    (∀ m ndm, in_tree tree_state 0 m → nodes tree_state !! m = Some ndm →
       ∃ ndm', nodes st' !! m = Some ndm' ∧
         JsSet.elements (_listeners ndm') =
           base.filter (λ l', l' ≠ LExt 0) (JsSet.elements (_listeners ndm))) ∧
    (∀ m, ¬ in_tree tree_state 0 m →
       _listeners <$> nodes st' !! m = _listeners <$> nodes tree_state !! m) ∧
    trace st' = trace tree_state ++ dis ∧ Forall is_disconnect dis ∧
    promises st' = promises tree_state ∧ results st' = results tree_state ∧
    microtasks st' = microtasks tree_state.
Proof.
  assert (2 * length (nodes tree_state) ≤ 9) as Hfuel by (simpl; lia).
  split_and!; [exact tree_state_inv|reflexivity|exact Hfuel|].
  exact (unlisten_removes 9 tree_state 0 tree_root (LExt 0) tree_state_inv eq_refl Hfuel).
Defined.

Lemma unlisten_then_fire_silent_witness :
  inv tree_state ∧ nodes tree_state !! 0 = Some tree_root ∧
  3 * length (nodes tree_state) ≤ 9 ∧
  ∃ st1 st2 delta,
    unlisten 9 0 (LExt 0) tree_state = Some (tt, st1) ∧
    _trigger 9 0 5%Z st1 = Some (tt, st2) ∧
    trace st2 = trace st1 ++ delta ∧
    ∀ m a s, ECall m (LExt 0) a s ∉ delta.
Proof.
  assert (3 * length (nodes tree_state) ≤ 9) as Hfuel by (simpl; lia).
  split_and!; [exact tree_state_inv|reflexivity|exact Hfuel|].
  exact (unlisten_then_fire_silent 9 tree_state 0 tree_root (LExt 0) 5%Z
           tree_state_inv eq_refl Hfuel).
Defined.

Lemma trigger_unobserved_witness :
  nodes pair_state !! 0 = Some pair_source ∧ variant_of pair_source = SingleEventSource ∧
  is_empty pair_source = true ∧
  _trigger 1 0 5%Z pair_state = Some (tt, pair_state).
Proof.
  split_and!; [reflexivity..|].
  exact (trigger_unobserved 0 pair_state 0 pair_source 5%Z eq_refl eq_refl eq_refl).
Defined.

Lemma fire_only_removes_witness :
  inv tree_state ∧ nodes tree_state !! 0 = Some tree_root ∧
  3 * length (nodes tree_state) ≤ 9 ∧
  ∃ st' delta,
    _trigger 9 0 5%Z tree_state = Some (tt, st') ∧
    trace st' = trace tree_state ++ delta ∧
    (∀ m, EConnect m ∉ delta) ∧
    (∀ m ndm', nodes st' !! m = Some ndm' →
       ∃ ndm, nodes tree_state !! m = Some ndm ∧
         (∀ l, Some l ∈ _listeners ndm' → Some l ∈ _listeners ndm) ∧
         (∀ c, Some c ∈ _children ndm' → Some c ∈ _children ndm)) ∧
    length (promises st') = length (promises tree_state) ∧
    results st' = results tree_state.
Proof.
  assert (3 * length (nodes tree_state) ≤ 9) as Hfuel by (simpl; lia).
  split_and!; [exact tree_state_inv|reflexivity|exact Hfuel|].
  exact (fire_only_removes 9 tree_state 0 tree_root 5%Z tree_state_inv eq_refl Hfuel).
Defined.

Lemma next_twice_witness :
  inv tree_state ∧ nodes tree_state !! 0 = Some tree_root ∧
  3 * length (nodes tree_state) ≤ 9 ∧
  ∃ st1 st2 st3,
    next 9 0 tree_state = Some (0, st1) ∧
    next 9 0 st1 = Some (1, st2) ∧
    _notifyListeners 9 0 5%Z st2 = Some (tt, st3) ∧
    promises st3 !! 0 = Some (Promise (Some 5%Z) []) ∧
    promises st3 !! 1 = Some (Promise (Some 5%Z) []).
Proof.
  assert (3 * length (nodes tree_state) ≤ 9) as Hfuel by (simpl; lia).
  split_and!; [exact tree_state_inv|reflexivity|exact Hfuel|].
  exact (next_twice 9 tree_state 0 tree_root 5%Z tree_state_inv eq_refl Hfuel).
Defined.

Lemma chain_delivers_witness :
  inv chain_state ∧ nodes chain_state !! 0 = Some chain_source ∧
  is_chain (nodes chain_state) 0 [1; 2] ∧ last [0; 1; 2] = Some 2 ∧
  nodes chain_state !! 2 = Some chain_filter ∧
  3 * length (nodes chain_state) ≤ 9 ∧
  ∃ st' delta,
    _trigger 9 0 3%Z chain_state = Some (tt, st') ∧
    trace st' = trace chain_state ++ delta ∧
    base.filter (is_call_at 2) delta = [ECall 2 (LExt 0) 6%Z 7].
Proof.
  assert (is_chain (nodes chain_state) 0 [1; 2]) as Hch.
  { split; [by exists chain_map|]. split; [by exists chain_filter|done]. }
  assert (3 * length (nodes chain_state) ≤ 9) as Hfuel by (simpl; lia).
  split_and!; [exact chain_state_inv|reflexivity|exact Hch|reflexivity|reflexivity|
               exact Hfuel|].
  exact (chain_delivers 9 chain_state 0 chain_source [1; 2] 2 chain_filter 3%Z
           chain_state_inv eq_refl Hch eq_refl eq_refl Hfuel).
Defined.

Lemma take_first_of_each_turn_witness :
  inv tree_state ∧ quiet tree_state ∧ nodes tree_state !! 0 = Some tree_root ∧
  Forall (λ b, b ≠ []) [[1; 2]; [3]]%Z ∧ 3 * length (nodes tree_state) ≤ 9 ∧
  ∃ st1 st2,
    take 9 0 2 tree_state = Some (0, st1) ∧
    turns 9 1 0 [[1; 2]; [3]]%Z st1 = Some (tt, st2) ∧
    results st2 !! 0 = Some (Some [1; 3]%Z).
Proof.
  assert (Forall (λ b : list Z, b ≠ []) [[1; 2]; [3]]%Z) as Hall
    by (repeat constructor; discriminate).
  assert (3 * length (nodes tree_state) ≤ 9) as Hfuel by (simpl; lia).
  split_and!; [exact tree_state_inv|exact tree_state_quiet|reflexivity|exact Hall|
               exact Hfuel|].
  exact (take_first_of_each_turn 9 0 tree_state 0 tree_root [[1; 2]; [3]]%Z
           tree_state_inv tree_state_quiet eq_refl Hall Hfuel).
Defined.

Lemma reachable_inv_witness : reachable pair_state ∧ inv pair_state.
Proof.
  split; [exact pair_state_reachable|].
  exact (reachable_inv pair_state pair_state_reachable).
Defined.

Lemma listen_unlisten_restores_witness :
  inv tree_state ∧ nodes tree_state !! 1 = Some tree_filter ∧
  (∀ m ndm, in_tree tree_state 1 m → nodes tree_state !! m = Some ndm →
            Some (LExt 9) ∉ _listeners ndm) ∧
  2 * length (nodes tree_state) ≤ 9 ∧
  ∃ st1 st2,
    listen 9 1 (LExt 9) tree_state = Some (tt, st1) ∧
    unlisten 9 1 (LExt 9) st1 = Some (tt, st2) ∧
    length (nodes st2) = length (nodes tree_state) ∧
    (∀ m ndm, nodes tree_state !! m = Some ndm →
       ∃ ndm2, nodes st2 !! m = Some ndm2 ∧
         JsSet.elements (_listeners ndm2) = JsSet.elements (_listeners ndm) ∧
         JsSet.elements (_children ndm2) = JsSet.elements (_children ndm)) ∧
    promises st2 = promises tree_state ∧ results st2 = results tree_state ∧
    microtasks st2 = microtasks tree_state.
Proof.
  assert (∀ m ndm, in_tree tree_state 1 m → nodes tree_state !! m = Some ndm →
                   Some (LExt 9) ∉ _listeners ndm) as Habs
    by (intros m ndm _; apply tree_state_fresh).
  assert (2 * length (nodes tree_state) ≤ 9) as Hfuel by (simpl; lia).
  split_and!; [exact tree_state_inv|reflexivity|exact Habs|exact Hfuel|].
  exact (listen_unlisten_restores 9 tree_state 1 tree_filter 9 tree_state_inv
           eq_refl Habs Hfuel).
Defined.

Lemma unobserved_node_idle_witness :
  inv pair_state ∧ nodes pair_state !! 0 = Some pair_source ∧
  nodes pair_state !! 1 = Some pair_filter ∧ is_empty pair_filter = true ∧ 1 ≠ 0 ∧
  3 * length (nodes pair_state) ≤ 6 ∧
  ∃ st' delta,
    _trigger 6 0 5%Z pair_state = Some (tt, st') ∧
    trace st' = trace pair_state ++ delta ∧
    base.filter (at_node 1) delta = [].
Proof.
  assert (1 ≠ 0) as Hne by lia.
  assert (3 * length (nodes pair_state) ≤ 6) as Hfuel by (simpl; lia).
  split_and!; [exact pair_state_inv|reflexivity|reflexivity|reflexivity|exact Hne|
               exact Hfuel|].
  exact (unobserved_node_idle 6 pair_state 0 pair_source 1 pair_filter 5%Z
           pair_state_inv eq_refl eq_refl eq_refl Hne Hfuel).
Defined.

Lemma take_pending_before_last_witness :
  inv tree_state ∧ quiet tree_state ∧ nodes tree_state !! 0 = Some tree_root ∧
  Forall (λ b, b ≠ []) [[1; 2]]%Z ∧ (Z.of_nat (length [[1; 2]%Z]) < 3)%Z ∧
  3 * length (nodes tree_state) ≤ 9 ∧
  ∃ st1 st2,
    take 9 0 3 tree_state = Some (0, st1) ∧
    turns 9 1 0 [[1; 2]]%Z st1 = Some (tt, st2) ∧
    results st2 !! 0 = Some None.
Proof.
  assert (Forall (λ b : list Z, b ≠ []) [[1; 2]]%Z) as Hall
    by (repeat constructor; discriminate).
  assert (Z.of_nat (length [[1; 2]%Z]) < 3)%Z as Hlt by (simpl; lia).
  assert (3 * length (nodes tree_state) ≤ 9) as Hfuel by (simpl; lia).
  split_and!; [exact tree_state_inv|exact tree_state_quiet|reflexivity|exact Hall|
               exact Hlt|exact Hfuel|].
  exact (take_pending_before_last 9 0 tree_state 0 tree_root 3 [[1; 2]]%Z
           tree_state_inv tree_state_quiet eq_refl Hall Hlt Hfuel).
Defined.

Lemma unlisten_direct_disconnects_witness :
  inv chain_state ∧ nodes chain_state !! 2 = Some chain_filter ∧
  (∀ m ndm, in_tree chain_state 2 m → m ≠ 2 → nodes chain_state !! m = Some ndm →
            Some (LExt 0) ∉ _listeners ndm) ∧
  2 * length (nodes chain_state) ≤ 9 ∧
  ∃ st', unlisten 9 2 (LExt 0) chain_state = Some (tt, st') ∧
         trace st' = trace chain_state ++ [EDisconnect 2; EDisconnect 1; EDisconnect 0].
Proof.
  assert (∀ m ndm, in_tree chain_state 2 m → m ≠ 2 → nodes chain_state !! m = Some ndm →
                   Some (LExt 0) ∉ _listeners ndm) as Habs.
  { intros m ndm _ Hne. destruct m as [|[|[|m]]]; simpl; intros [= <-]; simpl;
      [apply not_elem_of_nil..|done]. }
  assert (2 * length (nodes chain_state) ≤ 9) as Hfuel by (simpl; lia).
  split_and!; [exact chain_state_inv|reflexivity|exact Habs|exact Hfuel|].
  exact (unlisten_direct_disconnects 9 chain_state 2 chain_filter (LExt 0)
           chain_state_inv eq_refl Habs Hfuel).
Defined.

Lemma tree_state_no_next m (ndm : @node Z nat) p q :
  nodes tree_state !! m = Some ndm → Some (LNext p q) ∉ _listeners ndm.
Proof.
  destruct m as [|[|[|m]]]; simpl; intros [= <-]; simpl;
    intros H; repeat (apply elem_of_cons in H as [[=]|H]); by apply not_elem_of_nil in H.
Qed.

Lemma fire_without_next_pure_witness :
  inv tree_state ∧ nodes tree_state !! 0 = Some tree_root ∧
  (∀ m ndm p q, in_tree tree_state 0 m → nodes tree_state !! m = Some ndm →
                Some (LNext p q) ∉ _listeners ndm) ∧
  length (nodes tree_state) ≤ 3 ∧
  let fire a := fire_spec 3 (nodes tree_state) 0 a in
  _trigger 3 0 5%Z tree_state = Some (tt, with_trace (trace tree_state ++ fire 5%Z) tree_state) ∧
  (_trigger 3 0 5%Z;; _trigger 3 0 (-1)%Z) tree_state =
    Some (tt, with_trace (trace tree_state ++ fire 5%Z ++ fire (-1)%Z) tree_state).
Proof.
  assert (∀ m ndm p q, in_tree tree_state 0 m → nodes tree_state !! m = Some ndm →
                       Some (LNext p q) ∉ _listeners ndm) as Hpure
    by (intros m ndm p q _; apply tree_state_no_next).
  assert (length (nodes tree_state) ≤ 3) as Hfuel by (simpl; lia).
  split_and!; [exact tree_state_inv|reflexivity|exact Hpure|exact Hfuel|].
  exact (fire_without_next_pure 3 tree_state 0 tree_root 5%Z (-1)%Z tree_state_inv
           eq_refl Hpure Hfuel).
Defined.

Lemma next_lifecycle_witness :
  inv pair_state ∧ nodes pair_state !! 1 = Some pair_filter ∧
  is_empty pair_filter = true ∧ 3 * length (nodes pair_state) ≤ 6 ∧
  ∃ st1 st2,
    next 6 1 pair_state = Some (0, st1) ∧
    trace st1 = [EConnect 1; EConnect 0] ∧
    _notifyListeners 6 1 5%Z st1 = Some (tt, st2) ∧
    trace st2 = trace st1 ++ [ECall 1 (LNext 1 0) 5%Z 7; EDisconnect 1; EDisconnect 0].
Proof.
  assert (3 * length (nodes pair_state) ≤ 6) as Hfuel by (simpl; lia).
  split_and!; [exact pair_state_inv|reflexivity|reflexivity|exact Hfuel|].
  exact (next_lifecycle 6 pair_state 1 pair_filter 5%Z pair_state_inv eq_refl eq_refl Hfuel).
Defined.

Definition pair_derive : M (@state Z nat) node_id := map 1 double.

Lemma C3_witness :
  inv pair_state ∧ nodes pair_state !! 1 = Some pair_filter ∧
  ((∃ pred, pair_derive = filter 1 pred) ∨ (∃ transform, pair_derive = map 1 transform)) ∧
  length (nodes pair_state) + 1 < 9 ∧
  ∃ st1,
    pair_derive pair_state = Some (2, st1) ∧
    (∀ m, m < 2 → nodes st1 !! m = nodes pair_state !! m) ∧
    (Some 2 ∉ _children pair_filter) ∧
    trace st1 = trace pair_state ∧
    (∀ k, ∃ st2 nd2,
       listen 9 2 (LExt k) st1 = Some (tt, st2) ∧
       nodes st2 !! 1 = Some nd2 ∧ Some 2 ∈ _children nd2 ∧
       trace st2 = trace st1 ++ [EConnect 2; EConnect 1; EConnect 0]) ∧
    (∃ st2 nd2,
       next 9 2 st1 = Some (0, st2) ∧
       nodes st2 !! 1 = Some nd2 ∧ Some 2 ∈ _children nd2 ∧
       trace st2 = trace st1 ++ [EConnect 2; EConnect 1; EConnect 0]) ∧
    (∀ e, ∃ st2 nd2 ndn,
       addChild 9 2 e st1 = Some (tt, st2) ∧
       nodes st2 !! 1 = Some nd2 ∧ Some 2 ∈ _children nd2 ∧
       nodes st2 !! 2 = Some ndn ∧ Some e ∈ _children ndn ∧
       trace st2 = trace st1 ++ [EConnect 2; EConnect 1; EConnect 0]) ∧
    (∀ derive2 : M (@state Z nat) node_id,
       (∃ pred, derive2 = filter 2 pred) ∨ (∃ transform, derive2 = map 2 transform) →
       ∃ st1',
         derive2 st1 = Some (3, st1') ∧
         nodes st1' !! 1 = Some pair_filter ∧ trace st1' = trace st1 ∧
         (∃ st2 nd2 ndn,
            addChild 9 2 3 st1' = Some (tt, st2) ∧
            nodes st2 !! 1 = Some nd2 ∧ Some 2 ∈ _children nd2 ∧
            nodes st2 !! 2 = Some ndn ∧ Some 3 ∈ _children ndn ∧
            trace st2 = trace st1' ++ [EConnect 2; EConnect 1; EConnect 0]) ∧
         (∀ k, ∃ st2 nd2 ndn,
            listen 9 3 (LExt k) st1' = Some (tt, st2) ∧
            nodes st2 !! 1 = Some nd2 ∧ Some 2 ∈ _children nd2 ∧
            nodes st2 !! 2 = Some ndn ∧ Some 3 ∈ _children ndn ∧
            trace st2 = trace st1' ++ [EConnect 3; EConnect 2; EConnect 1; EConnect 0])).
Proof.
  assert (length (nodes pair_state) + 1 < 9) as Hfuel by (simpl; lia).
  assert ((∃ pred, pair_derive = filter 1 pred) ∨
          (∃ transform, pair_derive = map 1 transform)) as Hd
    by (right; by exists double).
  split_and!; [exact pair_state_inv|reflexivity|exact Hd|exact Hfuel|].
  exact (C3_lazy_registration 9 pair_state 1 pair_filter pair_derive
           pair_state_inv eq_refl Hd Hfuel).
Defined.
